(** * MathVis: the integral solver's render-job layer, verified

    A shallow embedding of the two programs of the repository:

    - [src/main.py], the Tkinter desktop application: the validation of
      the fields in [start_solve], the three-step timeline that
      [finish_render] derives from the video duration, and the
      navigation of [prev_step] and [next_step];
    - [src/app.py], the Flask application: the task map [TASKS], the
      dispatcher [index], the poll endpoint [status], the worker
      [generate_integral_video] and the sweep of the output store,
      [_flatten_to_video_dir].

    Besides these the file covers the symbol palette ([insert_symbol]),
    the worker thread of the desktop application ([solve_worker]) with
    the callbacks it schedules, the page [result] and the preview
    endpoint [latex_preview].

    Python values are modelled as follows.  A [str] is a [string] whose
    characters are read as the code points U+0000..U+00FF.  An [int] is a
    [Z], a [float] is a primitive IEEE-754 binary64 [float].  An exception
    is a value of [exn]; code that may raise returns an [outcome].  The
    directory [static/videos] is a finite map from relative paths to
    nodes. *)

From Stdlib Require Import ZArith Floats Ascii OrderedTypeEx.
From stdpp Require Import gmap strings list fin_maps sorting.

Open Scope string_scope.

(** ** Python runtime *)

Module Py.

(** Exceptions below [Exception].  [OSError] stands for the class and
    all of its subclasses ([FileNotFoundError], [IsADirectoryError],
    [NotADirectoryError], [shutil.Error], ...); [EngineError] is whatever
    SymPy, LaTeX or Manim raise. *)
Inductive exn : Type :=
| OSError (msg : string)
| ValueError (msg : string)
| OverflowError (msg : string)
| IndexError (msg : string)
| EngineError (msg : string).

(** [str(exc)] *)
Definition py_str (e : exn) : string :=
  match e with
  | OSError m | ValueError m | OverflowError m | IndexError m
  | EngineError m => m
  end.

(** [isinstance(exc, OSError)] *)
Definition is_OSError (e : exn) : bool :=
  match e with OSError _ => true | _ => false end.

Inductive outcome (A : Type) : Type :=
| Ok (a : A)
| Raise (e : exn).
Arguments Ok {A} a.
Arguments Raise {A} e.

(** Code that mutates a state [S] and may raise: the state reached is
    kept when an exception leaves the code. *)
Definition M (S A : Type) : Type := S → outcome A * S.

Definition ret {S A} (a : A) : M S A := λ s, (Ok a, s).
Definition raise {S A} (e : exn) : M S A := λ s, (Raise e, s).
Definition bind {S A B} (c : M S A) (k : A → M S B) : M S B :=
  λ s, match c s with
       | (Ok a, s') => k a s'
       | (Raise e, s') => (Raise e, s')
       end.

Definition get {S} : M S S := λ s, (Ok s, s).
Definition modify {S} (f : S → S) : M S unit := λ s, (Ok tt, f s).
Definition lift {S A} (r : outcome A) : M S A := λ s, (r, s).

#[global] Instance M_ret {S} : MRet (M S) := λ A, @ret S A.
#[global] Instance M_bind {S} : MBind (M S) := λ A B k c, bind c k.

(** [for x in l: body(x)] *)
Fixpoint for_ {S A} (l : list A) (body : A → M S unit) : M S unit :=
  match l with
  | [] => mret tt
  | x :: l' => body x;; for_ l' body
  end.

(** [str.isspace] on one character, for the code points below 256:
    TAB..CR, FS..US, SPACE, NEL and NBSP. *)
Definition isspace (c : Ascii.ascii) : bool :=
  let n := Ascii.N_of_ascii c in
  ((9 <=? n) && (n <=? 13) || (28 <=? n) && (n <=? 32)
   || (n =? 133) || (n =? 160))%N.

Fixpoint lstrip (s : string) : string :=
  match s with
  | EmptyString => EmptyString
  | String c s' => if isspace c then lstrip s' else s
  end.

Fixpoint rstrip (s : string) : string :=
  match s with
  | EmptyString => EmptyString
  | String c s' =>
      match rstrip s' with
      | EmptyString => if isspace c then EmptyString else String c EmptyString
      | t => String c t
      end
  end.

(** [s.strip()] *)
Definition strip (s : string) : string := rstrip (lstrip s).

(** [s.startswith(p)] *)
Definition startswith (s p : string) : bool := String.prefix p s.

(** Truth value of a [str]: [not s] is [s == ""]. *)
Definition truthy (s : string) : bool :=
  match s with EmptyString => false | _ => true end.

(** A number held in a Python list: [0] is an [int], [dur / 3.0] a
    [float]. *)
Inductive num : Type :=
| PyInt (z : Z)
| PyFloat (f : float).

(** [int(x)]: truncation toward zero; NaN and the infinities raise. *)
Definition int_of_float (f : float) : outcome Z :=
  match Prim2SF f with
  | S754_zero _ => Ok 0%Z
  | S754_infinity _ =>
      Raise (OverflowError "cannot convert float infinity to integer")
  | S754_nan => Raise (ValueError "cannot convert float NaN to integer")
  | S754_finite s m e =>
      let mag := if (0 <=? e)%Z then (Z.pos m * 2 ^ e)%Z
                 else (Z.pos m / 2 ^ (- e))%Z in
      Ok (if s then (- mag)%Z else mag)
  end.

Definition py_int (x : num) : outcome Z :=
  match x with
  | PyInt z => Ok z
  | PyFloat f => int_of_float f
  end.

(** [l[i]] with Python's negative indices. *)
Definition getitem {A} (l : list A) (i : Z) : outcome A :=
  let n := Z.of_nat (length l) in
  let j := if (i <? 0)%Z then (i + n)%Z else i in
  if (j <? 0)%Z then Raise (IndexError "list index out of range")
  else match l !! Z.to_nat j with
       | Some x => Ok x
       | None => Raise (IndexError "list index out of range")
       end.

End Py.

Export Py.

(** ** [src/main.py]: the desktop application *)

(** [tk.NORMAL] and [tk.DISABLED] *)
Inductive btn_state : Type := NORMAL | DISABLED.

(** Calls made on the [TkinterVideo] widget. *)
Inductive player_call : Type :=
| Load (video_path : string)
| Play
| Seek (t : Z).

(** The fields of [IntegralApp] that the callbacks read and write.  The
    three entries and [var_choice] hold what the user typed; [videoplayer],
    [dialogs] and [threads] log the calls made on the video widget, the
    [messagebox.showerror] calls and the worker threads started, oldest
    first. *)
Record IntegralApp : Type := mkIntegralApp {
  integrand_entry : string;
  var_choice : string;
  lower_entry : string;
  upper_entry : string;
  solve_btn : btn_state;
  prev_btn : btn_state;
  next_btn : btn_state;
  step_times : list num;
  current_step : Z;
  videoplayer : list player_call;
  dialogs : list (string * string);
  threads : list (string * string * string * string)
}.

Definition set_solve_btn (b : btn_state) (a : IntegralApp) : IntegralApp :=
  mkIntegralApp (integrand_entry a) (var_choice a) (lower_entry a)
    (upper_entry a) b (prev_btn a) (next_btn a) (step_times a)
    (current_step a) (videoplayer a) (dialogs a) (threads a).

Definition set_prev_btn (b : btn_state) (a : IntegralApp) : IntegralApp :=
  mkIntegralApp (integrand_entry a) (var_choice a) (lower_entry a)
    (upper_entry a) (solve_btn a) b (next_btn a) (step_times a)
    (current_step a) (videoplayer a) (dialogs a) (threads a).

Definition set_next_btn (b : btn_state) (a : IntegralApp) : IntegralApp :=
  mkIntegralApp (integrand_entry a) (var_choice a) (lower_entry a)
    (upper_entry a) (solve_btn a) (prev_btn a) b (step_times a)
    (current_step a) (videoplayer a) (dialogs a) (threads a).

Definition set_step_times (l : list num) (a : IntegralApp) : IntegralApp :=
  mkIntegralApp (integrand_entry a) (var_choice a) (lower_entry a)
    (upper_entry a) (solve_btn a) (prev_btn a) (next_btn a) l
    (current_step a) (videoplayer a) (dialogs a) (threads a).

Definition set_current_step (i : Z) (a : IntegralApp) : IntegralApp :=
  mkIntegralApp (integrand_entry a) (var_choice a) (lower_entry a)
    (upper_entry a) (solve_btn a) (prev_btn a) (next_btn a) (step_times a)
    i (videoplayer a) (dialogs a) (threads a).

Definition player (c : player_call) (a : IntegralApp) : IntegralApp :=
  mkIntegralApp (integrand_entry a) (var_choice a) (lower_entry a)
    (upper_entry a) (solve_btn a) (prev_btn a) (next_btn a) (step_times a)
    (current_step a) (videoplayer a ++ [c]) (dialogs a) (threads a).

Definition showerror (title text : string) (a : IntegralApp) : IntegralApp :=
  mkIntegralApp (integrand_entry a) (var_choice a) (lower_entry a)
    (upper_entry a) (solve_btn a) (prev_btn a) (next_btn a) (step_times a)
    (current_step a) (videoplayer a) (dialogs a ++ [(title, text)])
    (threads a).

Definition start_thread (args : string * string * string * string)
    (a : IntegralApp) : IntegralApp :=
  mkIntegralApp (integrand_entry a) (var_choice a) (lower_entry a)
    (upper_entry a) (solve_btn a) (prev_btn a) (next_btn a) (step_times a)
    (current_step a) (videoplayer a) (dialogs a) (threads a ++ [args]).

(** [IntegralApp.start_solve]: the variable is read from the combobox as
    it is; only the three entries are stripped and tested. *)
Definition start_solve (a : IntegralApp) : IntegralApp :=
  let integrand := strip (integrand_entry a) in
  let lower := strip (lower_entry a) in
  let upper := strip (upper_entry a) in
  if negb (truthy integrand) || negb (truthy lower) || negb (truthy upper)
  then showerror "Error" "Please fill in the integrand and both bounds." a
  else
    start_thread (integrand, var_choice a, lower, upper)
      (set_next_btn DISABLED (set_prev_btn DISABLED (set_solve_btn DISABLED a))).

(** [dur <= 0] for [dur = video_info().get("duration", 0)]: [None] is the
    missing key, whose default is the integer [0]. *)
Definition dur_le_0 (duration : option float) : bool :=
  match duration with
  | None => true
  | Some dur => (dur <=? 0)%float
  end.

(** [IntegralApp.finish_render]; [duration] is the ["duration"] entry of
    what [videoplayer.video_info()] returns after [load] and [play]. *)
Definition finish_render (video_path : string) (duration : option float)
    (a : IntegralApp) : IntegralApp :=
  let a := player Play (player (Load video_path) a) in
  if dur_le_0 duration then
    set_solve_btn NORMAL
      (showerror "Error" "Could not read video duration." a)
  else
    let dur := default 0%float duration in
    let seg := (dur / 3.0)%float in
    let a := set_step_times [PyInt 0; PyFloat seg; PyFloat (2 * seg)%float] a in
    let a := set_current_step 0 a in
    set_next_btn NORMAL (set_prev_btn DISABLED (set_solve_btn NORMAL a)).

(** [self.videoplayer.seek(int(self.step_times[self.current_step]))] *)
Definition seek_current : M IntegralApp unit :=
  a ← get;
  t ← lift (getitem (step_times a) (current_step a));
  n ← lift (py_int t);
  modify (player (Seek n)).

(** [IntegralApp.prev_step] *)
Definition prev_step : M IntegralApp unit :=
  a ← get;
  (if (0 <? current_step a)%Z then
     modify (set_current_step (current_step a - 1));; seek_current
   else mret tt);;
  a ← get;
  modify (set_prev_btn (if (0 <? current_step a)%Z then NORMAL else DISABLED));;
  modify (set_next_btn NORMAL).

(** [IntegralApp.next_step] *)
Definition next_step : M IntegralApp unit :=
  a ← get;
  (if (current_step a <? Z.of_nat (length (step_times a)) - 1)%Z then
     modify (set_current_step (current_step a + 1));; seek_current
   else mret tt);;
  a ← get;
  modify (set_next_btn
            (if (current_step a <? Z.of_nat (length (step_times a)) - 1)%Z
             then NORMAL else DISABLED));;
  modify (set_prev_btn NORMAL).

(** [IntegralApp.__init__]: the state of a new window.  The variable
    combobox starts at ["x"], the two step buttons are disabled. *)
Definition __init__ : IntegralApp :=
  mkIntegralApp "" "x" "" "" NORMAL DISABLED DISABLED [] 0 [] [] [].

(** The integrand entry as [insert_symbol] sees it: its text and the
    position of the insertion cursor, counted in characters from the
    left.  [integrand_entry] above is the text of this widget. *)
Record Entry : Type := mkEntry {
  entry_text : string;
  insertPos : nat
}.

(** [entry.index(tk.INSERT)] *)
Definition index_INSERT (e : Entry) : nat :=
  Nat.min (insertPos e) (String.length (entry_text e)).

(** The text with [sym] put in before the character at [idx]; an index
    past the end appends. *)
Fixpoint insert_at (idx : nat) (sym s : string) : string :=
  match idx, s with
  | O, _ => sym ++ s
  | S _, EmptyString => sym
  | S idx', String c s' => String c (insert_at idx' sym s')
  end.

(** [entry.insert(idx, sym)]: a cursor at or after [idx] moves right with
    the text behind it. *)
Definition entry_insert (idx : nat) (sym : string) (e : Entry) : Entry :=
  let idx := Nat.min idx (String.length (entry_text e)) in
  mkEntry (insert_at idx sym (entry_text e))
    (if (idx <=? index_INSERT e)%nat then index_INSERT e + String.length sym
     else index_INSERT e)%nat.

(** [entry.icursor(idx)]: the index is brought into the text. *)
Definition icursor (idx : Z) (e : Entry) : Entry :=
  mkEntry (entry_text e)
    (Nat.min (Z.to_nat idx) (String.length (entry_text e))).

(** [s.endswith(suffix)] *)
Fixpoint endswith (s suffix : string) : bool :=
  String.eqb s suffix
  || match s with
     | EmptyString => false
     | String _ s' => endswith s' suffix
     end.

(** [IntegralApp.insert_symbol], on the integrand entry. *)
Definition insert_symbol (sym : string) (e : Entry) : Entry :=
  let idx := index_INSERT e in
  let e := entry_insert idx sym e in
  if endswith sym "()"
  then icursor (Z.of_nat idx + Z.of_nat (String.length sym) - 1) e
  else e.

(** ** [pathlib], [os] and [shutil] on the output store

    A path is the list of its components below [VIDEO_DIR], outermost
    first, so [VIDEO_DIR] itself is the empty list and always a
    directory.  The model covers the tree below [VIDEO_DIR] on one
    filesystem; symbolic links and permissions are left out. *)

Abbreviation path := (list string).

Inductive node : Type :=
| File (data : string)
| Dir.

#[global] Instance node_eq_dec : EqDecision node.
Proof. solve_decision. Defined.

Abbreviation store := (gmap path node).

Definition VIDEO_DIR : path := [].

(** [p / name] *)
Definition joinpath (p : path) (name : string) : path := (p ++ [name])%list.
Infix "//" := joinpath (at level 40, left associativity).

(** [p.name] and [p.parent] *)
Definition name (p : path) : string := default "" (last p).
Definition parent (p : path) : path := removelast p.

Definition stat (fs : store) (p : path) : option node :=
  match p with
  | [] => Some Dir
  | _ => fs !! p
  end.

(** [p.exists()] and [p.is_dir()] *)
Definition exists_ (fs : store) (p : path) : bool :=
  match stat fs p with Some _ => true | None => false end.
Definition is_dir (fs : store) (p : path) : bool :=
  match stat fs p with Some Dir => true | _ => false end.

(** [k] lies strictly below [d]. *)
Definition below (d k : path) : Prop := d `prefix_of` k ∧ d ≠ k.

(** [k] is an entry of the directory [d]. *)
Definition entry_of (d k : path) : Prop := k ≠ [] ∧ parent k = d.

Definition keys (fs : store) : list path := (map_to_list fs).*1.

Definition has_entry (fs : store) (d : path) : Prop :=
  Exists (entry_of d) (keys fs).

(** A store is a tree: every entry lies in a directory. *)
Definition tree (fs : store) : Prop :=
  map_Forall (λ k _, k ≠ [] ∧ stat fs (parent k) = Some Dir) fs.

(** [fnmatch] for patterns made of literal characters and [*]. *)
Fixpoint fnmatch (pat : string) : string → bool :=
  match pat with
  | EmptyString => λ s, match s with EmptyString => true | _ => false end
  | String c pat' =>
      if Ascii.eqb c "*"%char then
        fix star (s : string) : bool :=
          fnmatch pat' s
          || match s with
             | EmptyString => false
             | String _ s' => star s'
             end
      else
        λ s, match s with
             | EmptyString => false
             | String d s' => Ascii.eqb c d && fnmatch pat' s'
             end
  end.

(** The order in which the operating system lists directory entries is
    not specified: it is any rearrangement of them, which may depend on
    the state of the disk. *)
Class Scandir : Type := {
  scandir : store → list path → list path;
  scandir_perm : ∀ fs l, scandir fs l ≡ₚ l
}.

(** [sorted(paths, reverse=True)]: paths compare as the tuples of their
    components, strings by code points. *)
Fixpoint path_cmp (p q : path) : comparison :=
  match p, q with
  | [], [] => Eq
  | [], _ :: _ => Lt
  | _ :: _, [] => Gt
  | a :: p', b :: q' =>
      match String.compare a b with
      | Eq => path_cmp p' q'
      | c => c
      end
  end.

Definition path_ge (p q : path) : Prop := path_cmp p q ≠ Lt.

#[global] Instance path_ge_dec : RelDecision path_ge.
Proof. intros p q. unfold path_ge. solve_decision. Defined.

Definition sorted_reverse (l : list path) : list path := merge_sort path_ge l.

Section pathlib.
Context `{Scandir}.

(** [d.rglob(pat)]: nothing unless [d] is a directory.  The paths are
    those the store holds when the call is made.  [pathlib] lists the
    directories one after the other while the loop runs; that yields the
    same paths as long as the loop only moves files out to the top level,
    and may differ once the loop has moved a directory away. *)
Definition rglob (pat : string) (d : path) (fs : store) : list path :=
  if is_dir fs d then
    scandir fs (filter (λ k, below d k ∧ fnmatch pat (name k) = true) (keys fs))
  else [].

(** [d.iterdir()] *)
Definition iterdir (d : path) (fs : store) : list path :=
  scandir fs (filter (entry_of d) (keys fs)).
End pathlib.

Definition ENOENT : exn := OSError "No such file or directory".
Definition EISDIR : exn := OSError "Is a directory".
Definition ENOTDIR : exn := OSError "Not a directory".
Definition ENOTEMPTY : exn := OSError "Directory not empty".
Definition EINVAL : exn := OSError "Invalid argument".
Definition EBUSY : exn := OSError "Device or resource busy".

(** [p.unlink()] *)
Definition unlink (p : path) : M store unit := λ fs,
  match stat fs p with
  | None => (Raise ENOENT, fs)
  | Some Dir => (Raise EISDIR, fs)
  | Some (File _) => (Ok tt, delete p fs)
  end.

(** [p.unlink(missing_ok=True)] *)
Definition unlink_missing_ok (p : path) : M store unit := λ fs,
  match stat fs p with
  | None => (Ok tt, fs)
  | Some Dir => (Raise EISDIR, fs)
  | Some (File _) => (Ok tt, delete p fs)
  end.

(** [p.rmdir()]; the store's own root is not removed. *)
Definition rmdir (p : path) : M store unit := λ fs,
  match p, stat fs p with
  | [], _ => (Raise EBUSY, fs)
  | _, None => (Raise ENOENT, fs)
  | _, Some (File _) => (Raise ENOTDIR, fs)
  | _, Some Dir =>
      if decide (has_entry fs p) then (Raise ENOTEMPTY, fs)
      else (Ok tt, delete p fs)
  end.

(** Exchange the subtrees at [a] and [b]. *)
Definition swap_prefix (a b k : path) : path :=
  if decide (a `prefix_of` k) then (b ++ drop (length a) k)%list
  else if decide (b `prefix_of` k) then (a ++ drop (length b) k)%list
  else k.

(** The tree at [src] takes the place of whatever is at [dst]. *)
Definition relocate (src dst : path) (fs : store) : store :=
  kmap (swap_prefix src dst)
    (filter (λ kv : path * node, ¬ dst `prefix_of` kv.1) fs).

(** [os.rename(src, dst)]: a file replaces a file, a directory replaces an
    empty directory. *)
Definition os_rename (src dst : path) : M store unit := λ fs,
  match stat fs src with
  | None => (Raise ENOENT, fs)
  | Some n =>
      if decide (src = dst) then (Ok tt, fs)
      else if negb (is_dir fs (parent dst)) then (Raise ENOENT, fs)
      else
        match n, stat fs dst with
        | File _, Some Dir => (Raise EISDIR, fs)
        | File c, _ => (Ok tt, <[dst := File c]> (delete src fs))
        | Dir, Some (File _) => (Raise ENOTDIR, fs)
        | Dir, _ =>
            if decide (src `prefix_of` dst ∨ dst `prefix_of` src)
            then (Raise EINVAL, fs)
            else if decide (has_entry fs dst) then (Raise ENOTEMPTY, fs)
            else (Ok tt, relocate src dst fs)
        end
  end.

(** [shutil.move(src, dst)].  When [os.rename] fails the error is raised
    again: the copying fallback of [shutil.move] serves moves between
    filesystems (it would also create the missing parents of [dst] for a
    directory [src]; the program moves to [VIDEO_DIR] only). *)
Definition shutil_move (src dst : path) : M store unit :=
  fs ← get;
  if is_dir fs dst then
    if decide (src = dst) then os_rename src dst
    else
      let real_dst := dst // name src in
      if exists_ fs real_dst
      then raise (OSError "Destination path already exists")
      else os_rename src real_dst
  else os_rename src dst.

(** ** [src/app.py]: the web application *)

(** What the worker has SymPy compute: [sympy.latex] of the parsed
    integrand, of its antiderivative [F], of [F] at the upper and at the
    lower bound, and of the simplified value. *)
Record solved : Type := mkSolved {
  latex_expr : string;
  latex_F : string;
  latex_F_upper : string;
  latex_F_lower : string;
  latex_result : string
}.

(** The two external engines.  [sympy_solve integrand var lower_s upper_s]
    stands for the parsing and integration calls; [manim_render texs] for
    [IntegralScene().render()] followed by reading
    [scene.renderer.file_writer.movie_file_path]: it writes below
    [VIDEO_DIR] as it sees fit and returns the path of the movie. *)
Class Engines : Type := {
  sympy_solve : string → string → string → string → outcome solved;
  manim_render : list string → M store path
}.

(** [TASKS] together with the disk. *)
Record world : Type := mkWorld {
  TASKS : gmap string string;
  disk : store
}.

Definition set_task (vid state : string) (w : world) : world :=
  mkWorld (<[vid := state]> (TASKS w)) (disk w).

(** Run filesystem code in the world. *)
Definition on_disk {A} (c : M store A) : M world A := λ w,
  let '(r, fs) := c (disk w) in (r, mkWorld (TASKS w) fs).

(** [try: body  except Exception as exc: handler(exc)] *)
Definition try_except {S A} (body : M S A) (handler : exn → M S A) : M S A :=
  λ s, match body s with
       | (Ok a, s') => (Ok a, s')
       | (Raise exc, s') => handler exc s'
       end.

Definition partial_movie_files : string := "partial_movie_files".

Section app.
Context `{Scandir} `{Engines}.

(** The body of the first loop of [_flatten_to_video_dir]. *)
Definition flatten_move (mp4 : path) : M store unit :=
  if decide (parent mp4 = VIDEO_DIR) then mret tt
  else
    let dest := VIDEO_DIR // name mp4 in
    fs ← get;
    (if exists_ fs dest then unlink dest else mret tt);;
    shutil_move mp4 dest.

(** The body of the second loop: [try: p.rmdir()  except OSError: pass]. *)
Definition try_rmdir (p : path) : M store unit := λ fs,
  match rmdir p fs with
  | (Ok _, fs') => (Ok tt, fs')
  | (Raise e, fs') => if is_OSError e then (Ok tt, fs') else (Raise e, fs')
  end.

(** The first loop: [for mp4 in src_dir.rglob("*.mp4"): ...] *)
Definition move_videos (src_dir : path) : M store unit :=
  fs ← get;
  for_ (rglob "*.mp4" src_dir fs) flatten_move.

(** The second loop:
    [for p in sorted(src_dir.rglob("*"), reverse=True): ...] *)
Definition prune_empty (src_dir : path) : M store unit :=
  fs ← get;
  for_ (sorted_reverse (rglob "*" src_dir fs)) try_rmdir.

Definition _flatten_to_video_dir (src_dir : path) : M store unit :=
  fs ← get;
  if negb (exists_ fs src_dir) then mret tt
  else move_videos src_dir;; prune_empty src_dir.

(** Steps 2 and 3 of the worker: SymPy, then the Manim scene. *)
Definition render_scene (integrand var lower_s upper_s : string)
    : M store path :=
  s ← lift (sympy_solve integrand var lower_s upper_s);
  let expr_tex := "\int_{" ++ lower_s ++ "}^{" ++ upper_s ++ "} "
                  ++ latex_expr s ++ "\,d" ++ var in
  let anti_tex := "\left[" ++ latex_F s ++ "\right]_{" ++ lower_s
                  ++ "}^{" ++ upper_s ++ "}" in
  let eval_tex := latex_F_upper s ++ " - " ++ latex_F_lower s in
  let final_tex := latex_result s in
  manim_render [expr_tex; anti_tex; eval_tex ++ " = " ++ final_tex].

(** The body of the loop of step 6:
    [if sub.is_dir() and sub.name != "partial_movie_files": ...] *)
Definition flatten_subdir (sub : path) : M store unit :=
  fs ← get;
  if is_dir fs sub && negb (String.eqb (name sub) partial_movie_files)
  then _flatten_to_video_dir sub
  else mret tt.

(** Steps 4 to 6: move the movie to [outfile], then sweep
    [partial_movie_files] and every other directory of [VIDEO_DIR]. *)
Definition collect (movie outfile : path) : M store unit :=
  shutil_move movie outfile;;
  _flatten_to_video_dir (VIDEO_DIR // partial_movie_files);;
  fs ← get;
  for_ (iterdir VIDEO_DIR fs) flatten_subdir.

(** The statements of the worker's [try] block that touch the disk. *)
Definition render_and_collect (integrand var lower_s upper_s : string)
    (outfile : path) : M store unit :=
  movie ← render_scene integrand var lower_s upper_s;
  collect movie outfile.

(** The worker; the logging call of the handler is left out. *)
Definition generate_integral_video
    (integrand var lower_s upper_s : string) (outfile : path)
    (vid : string) : M world unit :=
  modify (set_task vid "pending");;
  try_except
    (on_disk (render_and_collect integrand var lower_s upper_s outfile);;
     modify (set_task vid "ready"))
    (λ exc,
      on_disk (unlink_missing_ok outfile);;
      modify (set_task vid ("error:" ++ py_str exc))).
End app.

(** A started thread: the arguments of [generate_integral_video]. *)
Record job : Type := mkJob {
  job_integrand : string;
  job_var : string;
  job_lower : string;
  job_upper : string;
  job_outfile : path;
  job_vid : string
}.

(** The process: the world, the messages flashed and the threads started,
    oldest first. *)
Record server : Type := mkServer {
  the_world : world;
  flashes : list (string * string);
  started : list job
}.

Inductive response : Type :=
| redirect_index
| redirect_result (vid : string)
| render_index
| render_result (vid video_url : string) (ready : bool)
| jsonify_status (ready : bool) (error : option string).

(** [request.form.get(k, "").strip()] *)
Definition form_get (form : gmap string string) (k : string) : string :=
  strip (default "" (form !! k)).

(** [index()]; [hex] is the value of [uuid4().hex]. *)
Definition index (method : string) (form : gmap string string) (hex : string)
    (s : server) : response * server :=
  if String.eqb method "POST" then
    let integrand := form_get form "integrand" in
    let variable := form_get form "variable" in
    let lower := form_get form "lower" in
    let upper := form_get form "upper" in
    if negb (forallb truthy [integrand; variable; lower; upper]) then
      (redirect_index,
       mkServer (the_world s)
         (flashes s ++ [("Please fill in the integrand and all bounds.", "danger")])
         (started s))
    else
      let vid := hex ++ ".mp4" in
      let video_path := VIDEO_DIR // vid in
      (redirect_result vid,
       mkServer (the_world s) (flashes s)
         (started s ++ [mkJob integrand variable lower upper video_path vid]))
  else (render_index, s).

(** [result(vid)] *)
Definition result (vid : string) (s : server) : response :=
  let video_path := VIDEO_DIR // vid in
  render_result vid ("/static/videos/" ++ vid)
    (exists_ (disk (the_world s)) video_path).

(** [status(vid)] *)
Definition status (vid : string) (s : server) : response :=
  let state := default "pending" (TASKS (the_world s) !! vid) in
  jsonify_status (String.eqb state "ready")
    (if startswith state "error:" then Some state else None).

(** What a started thread runs: its target applied to its arguments. *)
Definition run_job `{Scandir} `{Engines} (j : job) : M world unit :=
  generate_integral_video (job_integrand j) (job_var j) (job_lower j)
    (job_upper j) (job_outfile j) (job_vid j).

(** *** The preview endpoint *)

(** A JSON value as [request.get_json] returns it: [None], [bool], [int],
    [float], [str], [list] or [dict]. *)
#[warnings="-register-all"]
Inductive json : Type :=
| JNull
| JBool (b : bool)
| JInt (z : Z)
| JFloat (f : float)
| JStr (s : string)
| JArr (items : list json)
| JObj (members : list (string * json)).

(** [bool(v)] *)
Definition json_truthy (v : json) : bool :=
  match v with
  | JNull => false
  | JBool b => b
  | JInt z => negb (z =? 0)%Z
  | JFloat f => negb (f =? 0)%float
  | JStr s => truthy s
  | JArr items => match items with [] => false | _ => true end
  | JObj members => match members with [] => false | _ => true end
  end.

(** [type(v).__name__] *)
Definition type_name (v : json) : string :=
  match v with
  | JNull => "NoneType"
  | JBool _ => "bool"
  | JInt _ => "int"
  | JFloat _ => "float"
  | JStr _ => "str"
  | JArr _ => "list"
  | JObj _ => "dict"
  end.

(** The entry of a key in the [dict] built from the members of a JSON
    object: of two members with one key the later one counts. *)
Fixpoint member (k : string) (members : list (string * json)) : option json :=
  match members with
  | [] => None
  | (k', v) :: rest =>
      match member k rest with
      | Some v' => Some v'
      | None => if String.eqb k' k then Some v else None
      end
  end.

(** What the lines before the [try] of [latex_preview] evaluate to: a
    value, or the [AttributeError] that leaves the function. *)
Inductive attr (A : Type) : Type :=
| Has (a : A)
| AttributeError (msg : string).
Arguments Has {A} a.
Arguments AttributeError {A} msg.

Definition no_attribute (v : json) (attribute : string) : string :=
  "'" ++ type_name v ++ "' object has no attribute '" ++ attribute ++ "'".

(** [data.get(k, default).strip()] *)
Definition get_strip (data : json) (k default : string) : attr string :=
  match data with
  | JObj members =>
      match member k members with
      | None => Has (strip default)
      | Some (JStr s) => Has (strip s)
      | Some v => AttributeError (no_attribute v "strip")
      end
  | _ => AttributeError (no_attribute data "get")
  end.

(** SymPy as [latex_preview] uses it: [sympy.symbols(variable)], and
    [sympy.latex(parse_expr(text, ld, transformations=...))] with the
    local dictionary built for [variable]. *)
Class Preview : Type := {
  sympy_symbols : string → outcome unit;
  parse_latex : string → string → outcome string
}.

Inductive preview : Type :=
| jsonify_latex (expr lower upper : string)
| preview_raises (msg : string).

(** [X if text else ""] for [X = sympy.latex(parse_expr(text, ...))] *)
Definition latex_or_empty `{Preview} (variable text : string) : outcome string :=
  if truthy text then parse_latex variable text else Ok "".

(** The [try] block of [latex_preview]. *)
Definition preview_texts `{Preview} (integrand variable lower upper : string)
    : outcome preview :=
  match sympy_symbols variable with
  | Raise e => Raise e
  | Ok _ =>
      match latex_or_empty variable integrand with
      | Raise e => Raise e
      | Ok expr_tex =>
          match latex_or_empty variable lower with
          | Raise e => Raise e
          | Ok lower_tex =>
              match latex_or_empty variable upper with
              | Raise e => Raise e
              | Ok upper_tex => Ok (jsonify_latex expr_tex lower_tex upper_tex)
              end
          end
      end
  end.

(** [latex_preview()]; [body] is what [request.get_json(silent=True)]
    returns, [None] for a body that is not JSON. *)
Definition latex_preview `{Preview} (body : option json) : preview :=
  let data := match body with
              | Some v => if json_truthy v then v else JObj []
              | None => JObj []
              end in
  match get_strip data "integrand" "" with
  | AttributeError msg => preview_raises msg
  | Has integrand =>
      match get_strip data "variable" "x" with
      | AttributeError msg => preview_raises msg
      | Has variable0 =>
          let variable := if truthy variable0 then variable0 else "x" in
          match get_strip data "lower" "" with
          | AttributeError msg => preview_raises msg
          | Has lower =>
              match get_strip data "upper" "" with
              | AttributeError msg => preview_raises msg
              | Has upper =>
                  match preview_texts integrand variable lower upper with
                  | Ok reply => reply
                  | Raise _ => jsonify_latex "" "" ""
                  end
              end
          end
      end
  end.

(** ** [src/main.py]: the worker thread of the desktop application *)

(** The engines of the desktop application.  [desktop_solve] stands for
    the SymPy calls of [solve_worker] (its transformations do not include
    [convert_xor]), [desktop_render texs] for [IntegralScene().render()]
    followed by reading [movie_file_path]. *)
Class Desktop : Type := {
  desktop_solve : string → string → string → string → outcome solved;
  desktop_render : list string → outcome string
}.

(** What [solve_worker] hands to [self.master.after(0, ...)]. *)
Inductive callback : Type :=
| after_finish_render (video_path : string)
| after_showerror (e : exn)
| after_solve_btn_normal.

(** [IntegralApp.solve_worker]: the callbacks it schedules, in order. *)
Definition solve_worker `{Desktop} (integrand_str var a_str b_str : string)
    : list callback :=
  match desktop_solve integrand_str var a_str b_str with
  | Raise e => [after_showerror e; after_solve_btn_normal]
  | Ok s =>
      let expr_tex := "\int_{" ++ a_str ++ "}^{" ++ b_str ++ "} "
                      ++ latex_expr s ++ "\,d" ++ var in
      let anti_tex := "\left[" ++ latex_F s ++ "\right]_{" ++ a_str
                      ++ "}^{" ++ b_str ++ "}" in
      let eval_tex := latex_F_upper s ++ " - " ++ latex_F_lower s in
      let final_tex := latex_result s in
      match desktop_render [expr_tex; anti_tex; eval_tex ++ " = " ++ final_tex] with
      | Ok video_path => [after_finish_render video_path]
      | Raise e => [after_showerror e; after_solve_btn_normal]
      end
  end.

(** A scheduled callback, run by the main loop.  [duration] is what the
    video widget reports for the file loaded.  The dialog callback reads
    the variable [e] of the handler that scheduled it; Python unbinds that
    variable when the handler ends, and a callback that runs afterwards
    raises [NameError] before it shows anything.  [e_bound] tells whether
    the handler was still running; Tk reports the exception of a callback
    and carries on. *)
Definition run_callback (duration : option float) (e_bound : bool)
    (c : callback) (a : IntegralApp) : IntegralApp :=
  match c with
  | after_finish_render video_path => finish_render video_path duration a
  | after_showerror e => if e_bound then showerror "Error" (py_str e) a else a
  | after_solve_btn_normal => set_solve_btn NORMAL a
  end.

(** * Statements *)

Open Scope list_scope.

(** ** Vocabulary *)

(** A string made of whitespace only (the empty string included). *)
Definition whitespace_only (s : string) : Prop :=
  Forall (λ c, isspace c = true) (String.list_ascii_of_string s).

(** The four fields of the form. *)
Definition fields : list string := ["integrand"; "variable"; "lower"; "upper"].

(** The text of a form field before stripping; a missing field is empty. *)
Definition field (form : gmap string string) (k : string) : string :=
  default "" (form !! k).

(** The server after a rejected submission: one more flashed message. *)
Definition rejected (s : server) : server :=
  mkServer (the_world s)
    (flashes s ++ [("Please fill in the integrand and all bounds.", "danger")])
    (started s).

(** No component of the path [q] ends in [.mp4]. *)
Definition plain (q : path) : Prop :=
  Forall (λ c, fnmatch "*.mp4" c = false) q.

(** The name of [q] does not end in [.mp4], nor does the name of any
    directory above [q] other than a top-level one. *)
Definition sheltered (q : path) : Prop :=
  fnmatch "*.mp4" (name q) = false
  ∧ ∀ a, below a q → (2 ≤ length a)%nat → fnmatch "*.mp4" (name a) = false.

(** The paths of [l] that the first loop moves to the top-level name [n]. *)
Definition writers (n : string) (l : list path) : list path :=
  filter (λ x, (2 ≤ length x)%nat ∧ name x = n) l.

(** No directory of the store has a name ending in [.mp4]. *)
Definition videos_are_files (fs : store) : Prop :=
  map_Forall (λ k v, fnmatch "*.mp4" (name k) = true → v ≠ Dir) fs.

(** Every video file of the store is at its top level. *)
Definition flat (fs : store) : Prop :=
  ∀ k c, fs !! k = Some (File c) → fnmatch "*.mp4" (name k) = true →
         length k = 1%nat.

(** In [fs] the name [vid] is used by nothing but a top-level entry that
    is not a directory. *)
Definition reserved (vid : string) (fs : store) : Prop :=
  (∀ k, is_Some (fs !! k) → name k = vid → k = [vid])
  ∧ fs !! [vid] ≠ Some Dir.

(** No entry of the store is named [vid]. *)
Definition unused (vid : string) (fs : store) : Prop :=
  map_Forall (λ k _, name k ≠ vid) fs.

(** The job [index] starts for a form and a fresh [uuid4().hex]. *)
Definition job_of (form : gmap string string) (hex : string) : job :=
  mkJob (form_get form "integrand") (form_get form "variable")
    (form_get form "lower") (form_get form "upper")
    (VIDEO_DIR // (hex +:+ ".mp4")) (hex +:+ ".mp4").

(** What the user types into the four fields. *)
Definition set_entries (integrand var lower upper : string) (a : IntegralApp)
    : IntegralApp :=
  mkIntegralApp integrand var lower upper (solve_btn a) (prev_btn a)
    (next_btn a) (step_times a) (current_step a) (videoplayer a) (dialogs a)
    (threads a).

(** The calls that reach the application on the main thread: the three
    button commands, a callback scheduled by a worker, and the editing of
    the fields. *)
Inductive handler : Type :=
| on_start_solve
| on_prev_step
| on_next_step
| on_after (c : callback) (duration : option float) (e_bound : bool)
| on_edit (integrand var lower upper : string).

Definition handle (h : handler) : M IntegralApp unit :=
  match h with
  | on_start_solve => modify start_solve
  | on_prev_step => prev_step
  | on_next_step => next_step
  | on_after c duration e_bound => modify (run_callback duration e_bound c)
  | on_edit integrand var lower upper =>
      modify (set_entries integrand var lower upper)
  end.

(** The calls run one after the other; an exception that leaves one of
    them is reported and the next one runs on the state reached. *)
Fixpoint mainloop (hs : list handler) (a : IntegralApp)
    : list (outcome unit) * IntegralApp :=
  match hs with
  | [] => ([], a)
  | h :: hs' =>
      let '(r, a1) := handle h a in
      let '(rs, a2) := mainloop hs' a1 in
      (r :: rs, a2)
  end.

(** The timeline is empty with the step at 0, or has three entries with
    the step among them. *)
Definition timeline_ok (a : IntegralApp) : Prop :=
  (step_times a = [] ∧ current_step a = 0%Z)
  ∨ (length (step_times a) = 3%nat ∧ (0 ≤ current_step a ≤ 2)%Z).

(** One press of a step button: Next for [true], Prev for [false]. *)
Definition press (forward : bool) : M IntegralApp unit :=
  if forward then next_step else prev_step.

(** Each step button is enabled exactly when there is a step to go to. *)
Definition nav_ok (a : IntegralApp) : Prop :=
  (prev_btn a = NORMAL ↔ (0 < current_step a)%Z)
  ∧ (next_btn a = NORMAL ↔ (current_step a < 2)%Z).

(** The string neither begins nor ends with whitespace. *)
Definition no_outer_space (s : string) : Prop :=
  ∀ c, head (String.list_ascii_of_string s) = Some c
       ∨ last (String.list_ascii_of_string s) = Some c →
       isspace c = false.

(** [f] is [v] without the whitespace around it. *)
Definition trimmed (v f : string) : Prop :=
  no_outer_space f
  ∧ ∃ l r, v = (l +:+ f +:+ r)%string ∧ whitespace_only l ∧ whitespace_only r.

(** A JSON object in which the four keys of the preview, where present,
    hold strings. *)
Definition string_fields (members : list (string * json)) : Prop :=
  ∀ k v, k ∈ fields → member k members = Some v → ∃ s, v = JStr s.

(** The text of a key of a JSON object, [fallback] when it is missing. *)
Definition text_of (members : list (string * json)) (k fallback : string)
    : string :=
  match member k members with
  | Some (JStr s) => s
  | _ => fallback
  end.

(** The reply of the [try] block of [latex_preview] and of its handler
    together. *)
Definition reply_of `{Preview} (integrand variable lower upper : string)
    : preview :=
  match preview_texts integrand variable lower upper with
  | Ok reply => reply
  | Raise _ => jsonify_latex "" "" ""
  end.

(** ** Example inputs *)

Definition app0 : IntegralApp :=
  mkIntegralApp "2*x" "x" "0" "1" NORMAL DISABLED DISABLED [] 0 [] [] [].

Definition app_at (i : Z) : IntegralApp :=
  mkIntegralApp "2*x" "x" "0" "1" NORMAL NORMAL NORMAL
    [PyInt 0; PyFloat 3.0; PyFloat 6.0] i [] [] [].

Definition app_blank_var : IntegralApp :=
  mkIntegralApp "2*x" "  " "0" "1" NORMAL DISABLED DISABLED [] 0 [] [] [].

Definition server0 : server := mkServer (mkWorld ∅ ∅) [] [].

Definition form_no_integrand : gmap string string :=
  list_to_map [("integrand", ""); ("variable", "x"); ("lower", "0"); ("upper", "1")].

Definition form_2x : gmap string string :=
  list_to_map [("integrand", "2*x"); ("variable", "x"); ("lower", "0"); ("upper", "1")].

(** The listing order used in the examples: entries as the map holds them. *)
Definition as_listed : Scandir :=
  {| scandir := λ _ l, l; scandir_perm := λ _ l, reflexivity l |}.

(** A directory named like a video, with a text file in it. *)
Definition store_clip_dir : store :=
  list_to_map [(["1080p60"], Dir);
               (["1080p60"; "clip.mp4"], Dir);
               (["1080p60"; "clip.mp4"; "notes.txt"], File "notes")].

Definition store_mixed : store :=
  list_to_map [(["1080p60"], Dir);
               (["1080p60"; "IntegralScene.mp4"], File "movie");
               (["1080p60"; "log.txt"], File "log");
               (["1080p60"; "empty"], Dir)].

Definition store_collision : store :=
  list_to_map [(["1080p60"], Dir);
               (["1080p60"; "IntegralScene.mp4"], File "new");
               (["IntegralScene.mp4"], File "stale")].

Definition store_rendered : store :=
  list_to_map [(["partial_movie_files"], Dir);
               (["partial_movie_files"; "IntegralScene"], Dir);
               (["partial_movie_files"; "IntegralScene"; "a.mp4"], File "a");
               (["partial_movie_files"; "IntegralScene"; "b.mp4"], File "b");
               (["partial_movie_files"; "IntegralScene"; "list.txt"], File "l");
               (["a.mp4"], File "stale")].

(** An engine whose render writes one fragment and then fails. *)
Definition engines_crash : Engines := {|
  sympy_solve := λ _ _ _ _, Ok (mkSolved "2 x" "x^{2}" "1" "0" "1");
  manim_render := λ _ fs,
    (Raise (EngineError "ffmpeg exited with code 1"),
     <[["partial_movie_files"; "IntegralScene"; "0.mp4"] := File "fragment"]>
       (<[["partial_movie_files"; "IntegralScene"] := Dir]>
          (<[["partial_movie_files"] := Dir]> fs)))
|}.

(** An engine whose render leaves two fragments and the movie. *)
Definition engines_ok : Engines := {|
  sympy_solve := λ _ _ _ _, Ok (mkSolved "2 x" "x^{2}" "1" "0" "1");
  manim_render := λ _ fs,
    (Ok ["1080p60"; "IntegralScene.mp4"],
     <[["1080p60"; "IntegralScene.mp4"] := File "movie"]>
       (<[["1080p60"] := Dir]>
          (<[["partial_movie_files"; "IntegralScene"; "1.mp4"] := File "f1"]>
             (<[["partial_movie_files"; "IntegralScene"; "0.mp4"] := File "f0"]>
                (<[["partial_movie_files"; "IntegralScene"] := Dir]>
                   (<[["partial_movie_files"] := Dir]> fs))))))
|}.

Definition world0 : world := mkWorld ∅ ∅.

(** A desktop engine whose render fails. *)
Definition desktop_crash : Desktop := {|
  desktop_solve := λ _ _ _ _, Ok (mkSolved "2 x" "x^{2}" "1" "0" "1");
  desktop_render := λ _, Raise (EngineError "latex exited with code 1")
|}.

(** A SymPy that accepts every variable and every text but ["2*("]. *)
Definition preview_echo : Preview := {|
  sympy_symbols := λ _, Ok tt;
  parse_latex := λ _ text,
    if String.eqb text "2*(" then Raise (EngineError "invalid syntax")
    else Ok text
|}.

(** The body [{"integrand": " 2*x ", "lower": "0", "upper": ""}]. *)
Definition body_2x : list (string * json) :=
  [("integrand", JStr " 2*x "); ("lower", JStr "0"); ("upper", JStr "")].

(** The listing order of the examples, reversed. *)
Definition reversed : Scandir :=
  {| scandir := λ _ l, reverse l; scandir_perm := λ _ l, reverse_Permutation l |}.

(** * Properties *)

(** ** Strings *)

Lemma lstrip_empty_iff (s : string) : lstrip s = "" ↔ whitespace_only s.
Proof.
  unfold whitespace_only. induction s as [|c s IH]; simpl.
  - split; [constructor | done].
  - destruct (isspace c) eqn:Hc.
    + rewrite IH. split; [by constructor | by inversion 1].
    + split; [done | inversion 1; congruence].
Qed.

Lemma rstrip_nonspace (c : ascii) (s : string) :
  isspace c = false → rstrip (String c s) ≠ "".
Proof. intros Hc. simpl. destruct (rstrip s); by rewrite ?Hc. Qed.

Lemma strip_empty_iff (s : string) : strip s = "" ↔ whitespace_only s.
Proof.
  rewrite <- lstrip_empty_iff. unfold strip. split.
  - induction s as [|c s IH]; [done |]. simpl.
    destruct (isspace c) eqn:Hc; [done |].
    intros Hr. by destruct (rstrip_nonspace c s Hc).
  - by intros ->.
Qed.

Lemma truthy_false_iff (s : string) : truthy s = false ↔ s = "".
Proof. by destruct s. Qed.

(** ** The desktop application *)

Lemma float_pos_not_le_0 (dur : float) :
  (0 <? dur)%float = true → (dur <=? 0)%float = false.
Proof.
  rewrite ltb_spec, leb_spec.
  change (Prim2SF 0) with (S754_zero false).
  destruct (Prim2SF dur) as [[]|[]| |[] m e]; by cbv.
Qed.

(** C7.  For a duration above zero [finish_render] sets the three seek
    points [0, dur/3, 2*(dur/3)] and the current step 0, so for 9.0 they
    are 0, 3.0 and 6.0; for a duration that is missing, zero or negative
    it shows the error dialog and leaves the timeline as it was. *)
Theorem finish_render_timeline (video_path : string) (a : IntegralApp) :
  (∀ dur : float, (0 <? dur)%float = true →
     let a' := finish_render video_path (Some dur) a in
     step_times a' = [PyInt 0; PyFloat (dur / 3); PyFloat (2 * (dur / 3))]
     ∧ current_step a' = 0%Z ∧ dialogs a' = dialogs a)
  ∧ (∀ duration : option float,
       match duration with
       | None => True
       | Some dur => (dur <=? 0)%float = true
       end →
       let a' := finish_render video_path duration a in
       step_times a' = step_times a ∧ current_step a' = current_step a
       ∧ dialogs a' = (dialogs a ++ [("Error", "Could not read video duration.")])%list)
  ∧ step_times (finish_render video_path (Some 9.0%float) a)
    = [PyInt 0; PyFloat 3.0; PyFloat 6.0].
Proof.
  split; [|split].
  - intros dur Hpos. unfold finish_render. simpl.
    by rewrite (float_pos_not_le_0 dur Hpos).
  - intros [dur|] Hle; unfold finish_render; simpl; by rewrite ?Hle.
  - reflexivity.
Qed.

Lemma finish_render_timeline_witness :
  step_times (finish_render "out.mp4" (Some 12.0%float) app0)
  = [PyInt 0; PyFloat 4.0; PyFloat 8.0]
  ∧ dialogs (finish_render "out.mp4" (Some 0%float) app0)
    = [("Error", "Could not read video duration.")].
Proof.
  split.
  - apply (proj1 (finish_render_timeline "out.mp4" app0) 12.0%float).
    reflexivity.
  - apply (proj1 (proj2 (finish_render_timeline "out.mp4" app0)) (Some 0%float)).
    reflexivity.
Defined.

Lemma seek_current_keeps (a : IntegralApp) :
  current_step (seek_current a).2 = current_step a
  ∧ step_times (seek_current a).2 = step_times a.
Proof.
  unfold seek_current, mbind, M_bind, bind, get, lift, modify. simpl.
  destruct (getitem _ _) as [t|e]; [|done]. by destruct (py_int t).
Qed.

Lemma prev_step_current (a : IntegralApp) :
  current_step (prev_step a).2
  = if (0 <? current_step a)%Z then (current_step a - 1)%Z else current_step a.
Proof.
  unfold prev_step, mbind, M_bind, bind, get, modify, mret, M_ret, ret. simpl.
  destruct (0 <? current_step a)%Z; [|done].
  pose proof (seek_current_keeps (set_current_step (current_step a - 1) a))
    as [Hc _].
  by destruct (seek_current _) as [[[]|e] a'].
Qed.

Lemma next_step_current (a : IntegralApp) :
  current_step (next_step a).2
  = if (current_step a <? Z.of_nat (length (step_times a)) - 1)%Z
    then (current_step a + 1)%Z else current_step a.
Proof.
  unfold next_step, mbind, M_bind, bind, get, modify, mret, M_ret, ret. simpl.
  destruct (current_step a <? _)%Z; [|done].
  pose proof (seek_current_keeps (set_current_step (current_step a + 1) a))
    as [Hc _].
  by destruct (seek_current _) as [[[]|e] a'].
Qed.

(** C8.  With the three seek points in place and the current step in
    [0, 2], Prev at step 0 stays at 0 and Next at step 2 stays at 2;
    otherwise Prev moves one step back and Next one step forward. *)
Theorem step_navigation_clamps (a : IntegralApp) :
  length (step_times a) = 3 →
  (0 ≤ current_step a ≤ 2)%Z →
  current_step (prev_step a).2
  = (if (current_step a =? 0)%Z then 0 else current_step a - 1)%Z
  ∧ current_step (next_step a).2
    = (if (current_step a =? 2)%Z then 2 else current_step a + 1)%Z.
Proof.
  intros Hlen Hcur. rewrite prev_step_current, next_step_current, Hlen.
  split.
  - destruct (Z.ltb_spec 0 (current_step a)), (Z.eqb_spec (current_step a) 0); lia.
  - destruct (Z.ltb_spec (current_step a) (Z.of_nat 3 - 1)),
      (Z.eqb_spec (current_step a) 2); lia.
Qed.

Lemma step_navigation_clamps_witness :
  current_step (prev_step (app_at 0)).2 = 0%Z
  ∧ current_step (next_step (app_at 0)).2 = 1%Z.
Proof. apply (step_navigation_clamps (app_at 0)); [reflexivity | simpl; lia]. Defined.

(** ** Submission and polling *)

Lemma truthy_form_get (form : gmap string string) (k : string) :
  truthy (form_get form k) = false ↔ whitespace_only (field form k).
Proof. unfold form_get. by rewrite truthy_false_iff, strip_empty_iff. Qed.

Lemma truthy_strip (s : string) :
  truthy (strip s) = false ↔ whitespace_only s.
Proof. by rewrite truthy_false_iff, strip_empty_iff. Qed.

Lemma index_all_truthy (form : gmap string string) :
  forallb truthy [form_get form "integrand"; form_get form "variable";
                  form_get form "lower"; form_get form "upper"] = true
  ↔ ∀ k, k ∈ fields → ¬ whitespace_only (field form k).
Proof.
  unfold fields. simpl. rewrite !andb_true_iff.
  split.
  - intros (H1 & H2 & H3 & H4 & _) k Hk Hw.
    apply truthy_form_get in Hw.
    set_unfold in Hk. destruct Hk as [->|[->|[->|[->|[]]]]]; congruence.
  - intros Hall.
    assert (∀ k, k ∈ fields → truthy (form_get form k) = true) as Ht.
    { intros k Hk. destruct (truthy (form_get form k)) eqn:E; [done |].
      apply truthy_form_get in E. by destruct (Hall k Hk). }
    unfold fields in Ht. repeat split; apply Ht; set_solver.
Qed.

(** C9, as stated, fails in the desktop application: with a blank
    variable and the other three fields filled in, [start_solve] starts
    the worker thread. *)
Lemma start_solve_blank_variable_starts_worker :
  ¬ (∀ a : IntegralApp,
       whitespace_only (integrand_entry a) ∨ whitespace_only (var_choice a)
       ∨ whitespace_only (lower_entry a) ∨ whitespace_only (upper_entry a) →
       threads (start_solve a) = threads a).
Proof.
  intros Hall. specialize (Hall app_blank_var).
  assert (whitespace_only (var_choice app_blank_var)) as Hw.
  { apply strip_empty_iff. reflexivity. }
  specialize (Hall (or_intror (or_introl Hw))). vm_compute in Hall. discriminate.
Qed.

(** C9, amended.  A POST to [index] in which one of the four fields is
    missing, empty or whitespace-only is answered by a redirect to the
    form with a flashed message: the task map and the disk are unchanged
    and no thread is started.  [start_solve] rejects in the same way a
    blank integrand, lower bound or upper bound (it does not look at the
    variable): it shows the error dialog and starts no thread. *)
Theorem blank_field_rejected :
  (∀ (form : gmap string string) (hex : string) (s : server) (k : string),
     k ∈ fields → whitespace_only (field form k) →
     index "POST" form hex s = (redirect_index, rejected s))
  ∧ (∀ a : IntegralApp,
       whitespace_only (integrand_entry a) ∨ whitespace_only (lower_entry a)
       ∨ whitespace_only (upper_entry a) →
       start_solve a
       = showerror "Error" "Please fill in the integrand and both bounds." a
       ∧ threads (start_solve a) = threads a).
Proof.
  split.
  - intros form hex s k Hk Hw. unfold index. simpl String.eqb. cbv iota.
    destruct (forallb truthy _) eqn:Hall; [|done].
    pose proof (proj1 (index_all_truthy form) Hall k Hk) as Hn. by destruct Hn.
  - intros a Hw.
    assert (start_solve a
            = showerror "Error" "Please fill in the integrand and both bounds." a)
      as ->; [|done].
    unfold start_solve.
    destruct Hw as [Hw|[Hw|Hw]]; apply truthy_strip in Hw; rewrite Hw; simpl;
      by rewrite ?orb_true_r.
Qed.

Lemma blank_field_rejected_witness :
  index "POST" form_no_integrand "0f" server0 = (redirect_index, rejected server0).
Proof.
  apply (proj1 blank_field_rejected form_no_integrand "0f" server0 "integrand").
  - unfold fields. apply list_elem_of_here.
  - apply strip_empty_iff. reflexivity.
Defined.

(** C4.  For an identifier with no entry in [TASKS], [status] answers
    [ready = false] and [error = null]. *)
Theorem status_unknown_is_pending (vid : string) (s : server) :
  TASKS (the_world s) !! vid = None →
  status vid s = jsonify_status false None.
Proof. intros Hnone. unfold status. by rewrite Hnone. Qed.

Lemma status_unknown_is_pending_witness :
  status "never-submitted.mp4" server0 = jsonify_status false None.
Proof. apply status_unknown_is_pending. reflexivity. Defined.

(** C3, as stated, fails: [index] does not write the task map, so right
    after it returns the new identifier has no entry there. *)
Lemma index_does_not_register :
  ¬ (∀ (form : gmap string string) (hex : string) (s : server),
       (∀ k, k ∈ fields → ¬ whitespace_only (field form k)) →
       TASKS (the_world (index "POST" form hex s).2) !! (hex ++ ".mp4")%string
       = Some "pending").
Proof.
  intros Hall. specialize (Hall form_2x "0f" server0).
  assert (∀ k, k ∈ fields → ¬ whitespace_only (field form_2x k)) as Hv.
  { apply index_all_truthy. reflexivity. }
  specialize (Hall Hv). vm_compute in Hall. discriminate.
Qed.

(** ** Paths *)

Ltac unfold_M :=
  unfold mbind, M_bind, bind, mret, M_ret, ret, get, modify, lift, raise in *.

Lemma path_snoc (k : path) : k ≠ [] → ∃ d n, k = d // n.
Proof.
  destruct k as [|a k] using rev_ind; [done |]. intros _. by exists k, a.
Qed.

Lemma parent_snoc (d : path) (n : string) : parent (d // n) = d.
Proof. apply removelast_last. Qed.

Lemma name_snoc (d : path) (n : string) : name (d // n) = n.
Proof. unfold name, joinpath. by rewrite last_snoc. Qed.

Lemma snoc_not_nil (d : path) (n : string) : d // n ≠ [].
Proof. unfold joinpath. by destruct d. Qed.

Lemma name_app (d r : path) : r ≠ [] → name (d ++ r) = name r.
Proof.
  intros Hr. destruct (path_snoc r Hr) as (r' & n & ->).
  unfold joinpath. rewrite app_assoc. fold (joinpath (d ++ r') n).
  fold (joinpath r' n). by rewrite !name_snoc.
Qed.

Lemma entry_of_iff (d k : path) : entry_of d k ↔ ∃ n, k = d // n.
Proof.
  split.
  - intros [Hk <-]. destruct (path_snoc k Hk) as (d & n & ->).
    exists n. by rewrite parent_snoc.
  - intros [n ->]. split; [apply snoc_not_nil | apply parent_snoc].
Qed.

Lemma entry_below (d k : path) : entry_of d k → below d k.
Proof.
  intros [n ->]%entry_of_iff. split.
  - by apply prefix_app_r.
  - unfold joinpath. intros Heq. apply (f_equal length) in Heq.
    rewrite length_app in Heq. simpl in Heq. lia.
Qed.

Lemma prefix_below (x k : path) : x `prefix_of` k → x = k ∨ below x k.
Proof. intros Hp. destruct (decide (x = k)); [by left | by right]. Qed.

Lemma below_length (d k : path) : below d k → length d < length k.
Proof.
  intros [[r ->] Hne]. rewrite length_app.
  destruct r; [by rewrite app_nil_r in Hne | simpl; lia].
Qed.

Lemma below_trans (a b c : path) : a `prefix_of` b → below b c → below a c.
Proof.
  intros Hab Hbc. pose proof (below_length _ _ Hbc) as Hlen.
  destruct Hbc as [Hbc _]. split; [by etrans |].
  intros ->. apply prefix_length in Hab. lia.
Qed.

Lemma elem_of_keys (fs : store) (k : path) : k ∈ keys fs ↔ is_Some (fs !! k).
Proof.
  unfold keys. rewrite list_elem_of_fmap. split.
  - intros ([k' v] & -> & Hin). apply elem_of_map_to_list in Hin. by exists v.
  - intros [v Hv]. exists (k, v). split; [done |]. by apply elem_of_map_to_list.
Qed.

Lemma NoDup_keys (fs : store) : NoDup (keys fs).
Proof. apply NoDup_fst_map_to_list. Qed.

Lemma has_entry_iff (fs : store) (d : path) :
  has_entry fs d ↔ ∃ n, is_Some (fs !! (d // n)).
Proof.
  unfold has_entry. rewrite Exists_exists. split.
  - intros (k & Hk & [n ->]%entry_of_iff). exists n. by apply elem_of_keys.
  - intros [n Hn]. exists (d // n). split; [by apply elem_of_keys |].
    apply entry_of_iff. by exists n.
Qed.

Lemma stat_cons (fs : store) (a : string) (k : path) :
  stat fs (a :: k) = fs !! (a :: k).
Proof. done. Qed.

Lemma stat_lookup (fs : store) (k : path) : k ≠ [] → stat fs k = fs !! k.
Proof. by destruct k. Qed.

(** ** Exchanging two subtrees *)

Lemma swap_prefix_involutive (a b k : path) :
  ¬ (a `prefix_of` b ∨ b `prefix_of` a) →
  swap_prefix a b (swap_prefix a b k) = k.
Proof.
  intros Hinc. unfold swap_prefix at 2.
  destruct (decide (a `prefix_of` k)) as [[r ->]|Hak].
  - rewrite drop_app_length. unfold swap_prefix.
    destruct (decide (a `prefix_of` b ++ r)) as [Ha|_].
    + destruct Hinc.
      apply (prefix_weak_total a b (b ++ r) Ha). by apply prefix_app_r.
    + rewrite decide_True by (by apply prefix_app_r).
      by rewrite drop_app_length.
  - destruct (decide (b `prefix_of` k)) as [[r ->]|Hbk].
    + rewrite drop_app_length. unfold swap_prefix.
      rewrite decide_True by (by apply prefix_app_r).
      by rewrite drop_app_length.
    + unfold swap_prefix. by rewrite !decide_False.
Qed.

Lemma swap_prefix_inj (a b : path) :
  ¬ (a `prefix_of` b ∨ b `prefix_of` a) → Inj (=) (=) (swap_prefix a b).
Proof.
  intros Hinc k1 k2 Heq.
  rewrite <- (swap_prefix_involutive a b k1 Hinc), Heq.
  by apply swap_prefix_involutive.
Qed.

Lemma lookup_kmap_swap (a b : path) (fs : store) (k : path) :
  ¬ (a `prefix_of` b ∨ b `prefix_of` a) →
  (kmap (swap_prefix a b) fs : store) !! k = fs !! swap_prefix a b k.
Proof.
  intros Hinc. pose proof (swap_prefix_inj a b Hinc) as Hinj.
  rewrite <- (swap_prefix_involutive a b k Hinc) at 1.
  by rewrite lookup_kmap.
Qed.

Lemma lookup_relocate (src dst : path) (fs : store) (k : path) :
  ¬ (src `prefix_of` dst ∨ dst `prefix_of` src) →
  relocate src dst fs !! k
  = if decide (src `prefix_of` k) then None
    else if decide (dst `prefix_of` k)
         then fs !! (src ++ drop (length dst) k)
         else fs !! k.
Proof.
  intros Hinc. unfold relocate. rewrite lookup_kmap_swap by done.
  unfold swap_prefix.
  destruct (decide (src `prefix_of` k)) as [Hs|Hs].
  - apply map_lookup_filter_None. right. intros v _ Hn. apply Hn. simpl.
    by apply prefix_app_r.
  - destruct (decide (dst `prefix_of` k)) as [Hd|Hd].
    + destruct (fs !! (src ++ drop (length dst) k)) as [v|] eqn:E.
      * apply map_lookup_filter_Some. split; [done |]. simpl. intros Hp.
        destruct Hinc.
        destruct (prefix_weak_total dst src _ Hp) as [?|?]; [|by right|by left].
        by apply prefix_app_r.
      * apply map_lookup_filter_None. by left.
    + destruct (fs !! k) as [v|] eqn:E.
      * by apply map_lookup_filter_Some.
      * apply map_lookup_filter_None. by left.
Qed.

(** ** What the primitives do *)

Lemma stat_File_lookup (fs : store) (p : path) (c : string) :
  stat fs p = Some (File c) → p ≠ [] ∧ fs !! p = Some (File c).
Proof. by destruct p. Qed.

Lemma unlink_missing_ok_inv (p : path) (fs fs' : store) (r : outcome unit) :
  unlink_missing_ok p fs = (r, fs') →
  (r = Ok tt ∧ fs' = delete p fs ∧ stat fs p ≠ Some Dir)
  ∨ (∃ e, r = Raise e ∧ fs' = fs ∧ stat fs p = Some Dir).
Proof.
  unfold unlink_missing_ok. destruct (stat fs p) as [[c|]|] eqn:E;
    intros [= <- <-]; [left | right; eauto | left]; split_and!; try done.
  destruct p; [done |]. simpl in E. by rewrite delete_id.
Qed.

Lemma rmdir_inv (p : path) (fs fs' : store) (r : outcome unit) :
  rmdir p fs = (r, fs') →
  (r = Ok tt ∧ p ≠ [] ∧ fs !! p = Some Dir ∧ ¬ has_entry fs p
   ∧ fs' = delete p fs)
  ∨ (∃ e, r = Raise e ∧ is_OSError e = true ∧ fs' = fs).
Proof.
  unfold rmdir. destruct p as [|a p]; [intros [= <- <-]; right; eauto |].
  rewrite stat_cons.
  destruct (fs !! (a :: p)) as [[c|]|] eqn:E.
  - intros [= <- <-]. right. eauto.
  - destruct (decide (has_entry fs (a :: p))); intros [= <- <-];
      [right; eauto | left; done].
  - intros [= <- <-]. right. eauto.
Qed.

Lemma os_rename_inv (src dst : path) (fs fs' : store) (r : outcome unit) :
  os_rename src dst fs = (r, fs') →
  (r = Ok tt ∧ src = dst ∧ fs' = fs)
  ∨ (∃ c, r = Ok tt ∧ src ≠ [] ∧ dst ≠ [] ∧ src ≠ dst
          ∧ fs !! src = Some (File c) ∧ fs !! dst ≠ Some Dir
          ∧ is_dir fs (parent dst) = true
          ∧ fs' = <[dst := File c]> (delete src fs))
  ∨ (r = Ok tt ∧ stat fs src = Some Dir
     ∧ ¬ (src `prefix_of` dst ∨ dst `prefix_of` src)
     ∧ is_dir fs (parent dst) = true
     ∧ fs' = relocate src dst fs)
  ∨ (∃ e, r = Raise e ∧ fs' = fs).
Proof.
  unfold os_rename. destruct (stat fs src) as [n|] eqn:Es;
    [|intros [= <- <-]; eauto 10].
  destruct (decide (src = dst)) as [->|Hne]; [intros [= <- <-]; eauto |].
  destruct (is_dir fs (parent dst)) eqn:Hpd; simpl;
    [|intros [= <- <-]; eauto 10].
  destruct n as [c|].
  - assert (src ≠ []) as Hs by (intros ->; done).
    rewrite (stat_lookup _ _ Hs) in Es.
    destruct (stat fs dst) as [[c'|]|] eqn:Ed; intros [= <- <-];
      [| eauto 10 |]; right; left; exists c; split_and!; try done.
    + intros ->. done.
    + destruct dst; [done |]. simpl in Ed. congruence.
    + intros ->. done.
    + destruct dst; [done |]. simpl in Ed. congruence.
  - destruct (stat fs dst) as [[c'|]|] eqn:Ed;
      [intros [= <- <-]; eauto 10 | |];
      (destruct (decide (_ ∨ _)) as [Hc|Hc]; [intros [= <- <-]; eauto 10 |]);
      (destruct (decide (has_entry fs dst)); intros [= <- <-]; eauto 10).
Qed.

Lemma shutil_move_inv (src dst : path) (fs fs' : store) (r : outcome unit) :
  shutil_move src dst fs = (r, fs') →
  (∃ e, r = Raise e ∧ fs' = fs)
  ∨ (∃ dst', (dst' = dst ∨ dst' = dst // name src)
             ∧ os_rename src dst' fs = (r, fs')).
Proof.
  unfold shutil_move. unfold_M.
  destruct (is_dir fs dst); [|eauto].
  destruct (decide (src = dst)); [eauto |].
  destruct (exists_ fs _); [intros [= <- <-] |]; eauto.
Qed.

(** Loops: a reflexive and transitive relation that every pass of the
    body respects holds between the states before and after the loop. *)
Lemma for_rel {S A} (R : relation S) (l : list A) (body : A → M S unit) :
  (∀ s, R s s) → (∀ s1 s2 s3, R s1 s2 → R s2 s3 → R s1 s3) →
  (∀ x s, x ∈ l → R s (body x s).2) →
  ∀ s, R s (for_ l body s).2.
Proof.
  intros Hrefl Htrans.
  induction l as [|x l IH]; intros Hbody s; simpl; [done |].
  unfold_M. pose proof (Hbody x s (list_elem_of_here _ _)) as Hx.
  destruct (body x s) as [[[]|e] s1]; simpl in *; [|done].
  eapply Htrans; [done |]. apply IH. intros y s' Hy. apply Hbody. by right.
Qed.

(** An invariant of the body is an invariant of the loop. *)
Lemma for_inv {S A} (I : S → Prop) (l : list A) (body : A → M S unit) :
  (∀ x s, x ∈ l → I s → I (body x s).2) →
  ∀ s, I s → I (for_ l body s).2.
Proof.
  induction l as [|x l IH]; intros Hbody s Hs; simpl; [done |].
  unfold_M. pose proof (Hbody x s (list_elem_of_here _ _) Hs) as Hx.
  destruct (body x s) as [[[]|e] s1]; simpl in *; [|done].
  apply IH; [|done]. intros y s' Hy. apply Hbody. by right.
Qed.

(** Code that returns the value [a] is determined by the state it
    leaves behind. *)
Lemma returns_pair {S A} (c : M S A) (s : S) (a : A) :
  (c s).1 = Ok a → c s = (Ok a, (c s).2).
Proof. destruct (c s) as [r s']. simpl. by intros ->. Qed.

Section listing.
Context `{Scandir}.

Lemma elem_of_rglob (pat : string) (d : path) (fs : store) (k : path) :
  k ∈ rglob pat d fs
  ↔ is_dir fs d = true ∧ is_Some (fs !! k) ∧ below d k
    ∧ fnmatch pat (name k) = true.
Proof.
  unfold rglob. destruct (is_dir fs d).
  - rewrite scandir_perm, list_elem_of_filter, elem_of_keys. tauto.
  - split; [by intros ?%not_elem_of_nil | by intros [? _]].
Qed.

Lemma NoDup_rglob (pat : string) (d : path) (fs : store) :
  NoDup (rglob pat d fs).
Proof.
  unfold rglob. destruct (is_dir fs d); [|constructor].
  rewrite scandir_perm. apply NoDup_filter, NoDup_keys.
Qed.

Lemma elem_of_iterdir (d : path) (fs : store) (k : path) :
  k ∈ iterdir d fs ↔ is_Some (fs !! k) ∧ entry_of d k.
Proof.
  unfold iterdir.
  rewrite scandir_perm, list_elem_of_filter, elem_of_keys. tauto.
Qed.
End listing.

(** The two patterns of the sweep: [*] matches every name, [*.mp4] the
    names that end in [.mp4]. *)
Lemma fnmatch_star (s : string) : fnmatch "*" s = true.
Proof. induction s as [|c s IH]; [done |]. simpl in *. exact IH. Qed.

Lemma fnmatch_literal (p s : string) :
  (∀ c, c ∈ String.list_ascii_of_string p → c ≠ "*"%char) →
  fnmatch p s = true ↔ s = p.
Proof.
  revert s. induction p as [|c p IH]; intros s Hp.
  - by destruct s.
  - simpl.
    assert (Ascii.eqb c "*" = false) as ->.
    { apply Ascii.eqb_neq. apply Hp. simpl. left. }
    destruct s as [|d s]; [done |].
    rewrite andb_true_iff, Ascii.eqb_eq, IH.
    + split; [by intros [-> ->] | by intros [= -> ->]].
    + intros c' Hc'. apply Hp. simpl. by right.
Qed.

Lemma fnmatch_mp4 (s : string) :
  fnmatch "*.mp4" s = true ↔ ∃ t, s = t +:+ ".mp4".
Proof.
  assert (∀ s, fnmatch "*.mp4" s
               = fnmatch ".mp4" s
                 || match s with
                    | EmptyString => false
                    | String _ s' => fnmatch "*.mp4" s'
                    end) as Hstep by (by intros []).
  assert (∀ s, fnmatch ".mp4" s = true ↔ s = ".mp4") as Hlit.
  { intros s'. apply fnmatch_literal. intros c Hc. simpl in Hc.
    set_unfold in Hc. by destruct Hc as [->|[->|[->|[->|[]]]]]. }
  induction s as [|c s IH]; rewrite Hstep, orb_true_iff, Hlit.
  - split; [by intros [?|?] | intros [[|? ?] ?]; done].
  - rewrite IH. split.
    + intros [->|[t ->]]; [by exists "" | by exists (String c t)].
    + intros [[|d t] Heq]; simpl in Heq; [by left |].
      injection Heq as -> ->. right. by exists t.
Qed.

(** ** Entries that a rename leaves alone *)

Lemma os_rename_frame (src dst : path) (fs : store) (q : path) :
  ¬ src `prefix_of` q → ¬ dst `prefix_of` q →
  (os_rename src dst fs).2 !! q = fs !! q.
Proof.
  intros Hs Hd. destruct (os_rename src dst fs) as [r fs'] eqn:E.
  apply os_rename_inv in E
    as [(_ & _ & ->)|[(c & _ & _ & _ & _ & _ & _ & _ & ->)
       |[(_ & _ & Hinc & _ & ->)|(e & _ & ->)]]]; simpl; try done.
  - rewrite lookup_insert_ne, lookup_delete_ne; [done | |]; by intros ->.
  - rewrite lookup_relocate by done. by rewrite !decide_False.
Qed.

Lemma shutil_move_frame (src dst : path) (fs : store) (q : path) :
  ¬ src `prefix_of` q → ¬ dst `prefix_of` q →
  (shutil_move src dst fs).2 !! q = fs !! q.
Proof.
  intros Hs Hd. destruct (shutil_move src dst fs) as [r fs'] eqn:E.
  apply shutil_move_inv in E as [(e & _ & ->)|(dst' & Hd' & E)]; [done |].
  change fs' with (r, fs').2. rewrite <- E. apply os_rename_frame; [done |].
  destruct Hd' as [->| ->]; [done |]. intros Hp. apply Hd.
  etrans; [|done]. by apply prefix_app_r.
Qed.

(** ** One pass of each loop of the sweep *)

Section sweep_steps.
Context `{Scandir}.

Lemma flatten_move_inv (mp4 : path) (fs fs' : store) (r : outcome unit) :
  flatten_move mp4 fs = (r, fs') →
  (parent mp4 = VIDEO_DIR ∧ r = Ok tt ∧ fs' = fs)
  ∨ (parent mp4 ≠ VIDEO_DIR ∧ fs !! [name mp4] = Some Dir
     ∧ (∃ e, r = Raise e) ∧ fs' = fs)
  ∨ (parent mp4 ≠ VIDEO_DIR ∧ fs !! [name mp4] = None
     ∧ shutil_move mp4 [name mp4] fs = (r, fs'))
  ∨ (parent mp4 ≠ VIDEO_DIR ∧ (∃ c, fs !! [name mp4] = Some (File c))
     ∧ shutil_move mp4 [name mp4] (delete [name mp4] fs) = (r, fs')).
Proof.
  unfold flatten_move.
  destruct (decide (parent mp4 = VIDEO_DIR)) as [Hp|Hp];
    [intros [= <- <-]; by left |].
  intros Hm. right. unfold_M.
  change (VIDEO_DIR // name mp4) with [name mp4] in Hm.
  unfold exists_, unlink in Hm. rewrite stat_cons in Hm.
  destruct (fs !! [name mp4]) as [[c|]|] eqn:E; cbn beta in Hm;
    rewrite ?stat_cons, ?E in Hm; cbn beta iota in Hm.
  - right. right. eauto.
  - injection Hm as <- <-. left. eauto.
  - right. left. eauto.
Qed.

Lemma flatten_move_frame (mp4 : path) (fs : store) (q : path) :
  ¬ mp4 `prefix_of` q → ¬ [name mp4] `prefix_of` q →
  (flatten_move mp4 fs).2 !! q = fs !! q.
Proof.
  intros Hs Hd. destruct (flatten_move mp4 fs) as [r fs'] eqn:E.
  apply flatten_move_inv in E
    as [(_ & _ & ->)|[(_ & _ & _ & ->)|[(_ & _ & E)|(_ & _ & E)]]];
    simpl; try done.
  - change fs' with (r, fs').2. rewrite <- E. by apply shutil_move_frame.
  - change fs' with (r, fs').2. rewrite <- E.
    rewrite shutil_move_frame by done. apply lookup_delete_ne.
    intros Heq. apply Hd. by rewrite Heq.
Qed.

Lemma flatten_move_top (mp4 : path) (fs : store) :
  parent mp4 = VIDEO_DIR → flatten_move mp4 fs = (Ok tt, fs).
Proof. intros Hp. unfold flatten_move. by rewrite decide_True. Qed.

Lemma try_rmdir_inv (p : path) (fs : store) :
  (try_rmdir p fs = (Ok tt, delete p fs)
   ∧ p ≠ [] ∧ fs !! p = Some Dir ∧ ¬ has_entry fs p)
  ∨ try_rmdir p fs = (Ok tt, fs).
Proof.
  unfold try_rmdir. destruct (rmdir p fs) as [r fs'] eqn:E.
  apply rmdir_inv in E as [(-> & ? & ? & ? & ->)|(e & -> & -> & ->)];
    [left | right]; done.
Qed.

Lemma for_try_rmdir_Ok (l : list path) (fs : store) :
  (for_ l try_rmdir fs).1 = Ok tt.
Proof.
  revert fs. induction l as [|p l IH]; intros fs; [done |]. simpl. unfold_M.
  destruct (try_rmdir_inv p fs) as [[-> _]| ->]; apply IH.
Qed.
End sweep_steps.

(** ** Entries whose path has no component matching [*.mp4] *)

Lemma plain_not_prefix (p q : path) :
  plain q → p ≠ [] → fnmatch "*.mp4" (name p) = true → ¬ p `prefix_of` q.
Proof.
  intros Hq Hp Hm [r ->]. destruct (path_snoc p Hp) as (d & n & ->).
  rewrite name_snoc in Hm. unfold plain, joinpath in Hq.
  rewrite !Forall_app, Forall_singleton in Hq. destruct Hq as [[_ Hn] _].
  congruence.
Qed.

(** ** The store stays a tree *)

Lemma parent_prefix (k : path) : parent k `prefix_of` k.
Proof.
  destruct (decide (k = [])) as [->|Hk]; [done |].
  destruct (path_snoc k Hk) as (d & n & ->). rewrite parent_snoc.
  by apply prefix_app_r.
Qed.

Lemma parent_length (k : path) : k ≠ [] → length (parent k) < length k.
Proof.
  intros Hk. destruct (path_snoc k Hk) as (d & n & ->). rewrite parent_snoc.
  unfold joinpath. rewrite length_app. simpl. lia.
Qed.

Lemma parent_ne (k : path) : k ≠ [] → parent k ≠ k.
Proof. intros Hk Heq. apply parent_length in Hk. rewrite Heq in Hk. lia. Qed.

Lemma stat_insert_ne (fs : store) (p q : path) (v : node) :
  p ≠ q → stat (<[p := v]> fs) q = stat fs q.
Proof. intros Hne. destruct q; [done |]. simpl. by rewrite lookup_insert_ne. Qed.

Lemma stat_delete_ne (fs : store) (p q : path) :
  p ≠ q → stat (delete p fs) q = stat fs q.
Proof. intros Hne. destruct q; [done |]. simpl. by rewrite lookup_delete_ne. Qed.

Lemma is_dir_stat (fs : store) (p : path) :
  is_dir fs p = true ↔ stat fs p = Some Dir.
Proof. unfold is_dir. destruct (stat fs p) as [[]|]; naive_solver. Qed.

Lemma tree_lookup (fs : store) (k : path) (v : node) :
  tree fs → fs !! k = Some v → k ≠ [] ∧ stat fs (parent k) = Some Dir.
Proof. intros Ht Hk. exact (Ht k v Hk). Qed.

Lemma tree_entry_dir (fs : store) (d : path) :
  tree fs → has_entry fs d → stat fs d = Some Dir.
Proof.
  intros Ht [n [v Hv]]%has_entry_iff.
  destruct (tree_lookup fs _ v Ht Hv) as [_ Hp]. by rewrite parent_snoc in Hp.
Qed.

Lemma has_entry_delete (fs : store) (p d : path) :
  has_entry (delete p fs) d → has_entry fs d.
Proof.
  rewrite !has_entry_iff. intros [n [v Hv]]. exists n, v.
  by apply lookup_delete_Some in Hv as [_ Hv].
Qed.

Lemma tree_delete (fs : store) (p : path) :
  tree fs → ¬ has_entry fs p → tree (delete p fs).
Proof.
  intros Ht Hne k v [Hkp Hk]%lookup_delete_Some.
  destruct (tree_lookup fs k v Ht Hk) as [Hk0 Hpar]. split; [done |].
  rewrite stat_delete_ne; [done |]. intros ->. apply Hne.
  apply has_entry_iff. destruct (path_snoc k Hk0) as (d & n & ->).
  rewrite parent_snoc. by exists n, v.
Qed.

Lemma tree_insert (fs : store) (p : path) (v : node) :
  tree fs → p ≠ [] → stat fs (parent p) = Some Dir →
  v = Dir ∨ ¬ has_entry fs p →
  tree (<[p := v]> fs).
Proof.
  intros Ht Hp Hpar Hv k x Hk.
  destruct (decide (k = p)) as [->|Hkp].
  - split; [done |]. rewrite stat_insert_ne; [done |]. by apply not_eq_sym, parent_ne.
  - rewrite lookup_insert_ne in Hk by done.
    destruct (tree_lookup fs k x Ht Hk) as [Hk0 Hkpar]. split; [done |].
    destruct (decide (p = parent k)) as [->|Hne]; [|by rewrite stat_insert_ne].
    destruct Hv as [->|Hno].
    + rewrite stat_lookup by done. by rewrite lookup_insert_eq.
    + destruct Hno. apply has_entry_iff.
      destruct (path_snoc k Hk0) as (d & n & ->). rewrite parent_snoc.
      by exists n, x.
Qed.

Lemma tree_relocate (src dst : path) (fs : store) :
  tree fs → ¬ (src `prefix_of` dst ∨ dst `prefix_of` src) →
  is_dir fs (parent dst) = true →
  tree (relocate src dst fs).
Proof.
  intros Ht Hinc Hpd k v Hk.
  assert (dst ≠ []) as Hdst.
  { intros ->. apply Hinc. right. apply prefix_nil. }
  assert (src ≠ []) as Hsrc.
  { intros ->. apply Hinc. left. apply prefix_nil. }
  assert (∀ q, ¬ src `prefix_of` q → ¬ dst `prefix_of` q →
               stat (relocate src dst fs) q = stat fs q) as Hframe.
  { intros q Hs Hd. destruct q; [done |]. simpl.
    rewrite lookup_relocate by done. by rewrite !decide_False. }
  rewrite lookup_relocate in Hk by done.
  destruct (decide (src `prefix_of` k)) as [|Hsk]; [done |].
  destruct (decide (dst `prefix_of` k)) as [[r ->]|Hdk].
  - rewrite drop_app_length in Hk. split; [by destruct dst |].
    destruct r as [|n r _] using rev_ind.
    + rewrite app_nil_r. apply is_dir_stat in Hpd. rewrite Hframe; [done | |].
      * intros Hp. apply Hinc. left. etrans; [done |]. apply parent_prefix.
      * intros Hp%prefix_length. apply parent_length in Hdst. lia.
    + rewrite app_assoc in *. fold (joinpath (dst ++ r) n).
      fold (joinpath (src ++ r) n) in Hk. rewrite parent_snoc.
      destruct (tree_lookup fs _ v Ht Hk) as [_ Hpar].
      rewrite parent_snoc in Hpar.
      rewrite stat_lookup by (by destruct dst).
      rewrite stat_lookup in Hpar by (by destruct src).
      rewrite lookup_relocate by done.
      rewrite decide_False, decide_True, drop_app_length;
        [done | by apply prefix_app_r |].
      intros Hp. apply Hinc.
      destruct (prefix_weak_total src dst _ Hp); [by apply prefix_app_r | |];
        auto.
  - destruct (tree_lookup fs k v Ht Hk) as [Hk0 Hpar]. split; [done |].
    rewrite Hframe; [done | |]; intros Hp; [apply Hsk | apply Hdk];
      (etrans; [done |]; apply parent_prefix).
Qed.

Lemma tree_file_no_entry (fs : store) (p : path) (c : string) :
  tree fs → fs !! p = Some (File c) → ¬ has_entry fs p.
Proof.
  intros Ht Hp He. apply (tree_entry_dir fs p Ht) in He.
  destruct (tree_lookup fs p _ Ht Hp) as [Hp0 _].
  rewrite stat_lookup in He by done. congruence.
Qed.

Lemma tree_os_rename (src dst : path) (fs : store) :
  tree fs → tree (os_rename src dst fs).2.
Proof.
  intros Ht. destruct (os_rename src dst fs) as [r fs'] eqn:E.
  apply os_rename_inv in E
    as [(_ & _ & ->)|[(c & _ & Hs & Hd & Hne & Hsrc & Hdst & Hpd & ->)
       |[(_ & _ & Hinc & Hpd & ->)|(e & _ & ->)]]]; simpl; try done.
  - pose proof (tree_file_no_entry fs src c Ht Hsrc) as Hno.
    apply tree_insert; [by apply tree_delete | done | | right].
    + apply is_dir_stat in Hpd. rewrite stat_delete_ne; [done |].
      intros ->. destruct (parent dst); [done |]. simpl in Hpd. congruence.
    + intros He%has_entry_delete. apply (tree_entry_dir fs dst Ht) in He.
      rewrite stat_lookup in He by done. done.
  - by apply tree_relocate.
Qed.

Lemma tree_shutil_move (src dst : path) (fs : store) :
  tree fs → tree (shutil_move src dst fs).2.
Proof.
  intros Ht. destruct (shutil_move src dst fs) as [r fs'] eqn:E.
  apply shutil_move_inv in E as [(e & _ & ->)|(dst' & _ & E)]; [done |].
  change fs' with (r, fs').2. rewrite <- E. by apply tree_os_rename.
Qed.

Section tree_sweep.
Context `{Scandir}.

Lemma tree_flatten_move (mp4 : path) (fs : store) :
  tree fs → tree (flatten_move mp4 fs).2.
Proof.
  intros Ht. destruct (flatten_move mp4 fs) as [r fs'] eqn:E.
  apply flatten_move_inv in E
    as [(_ & _ & ->)|[(_ & _ & _ & ->)|[(_ & _ & E)|(_ & [c Hc] & E)]]];
    simpl; try done.
  - change fs' with (r, fs').2. rewrite <- E. by apply tree_shutil_move.
  - change fs' with (r, fs').2. rewrite <- E. apply tree_shutil_move.
    apply tree_delete; [done |]. by eapply tree_file_no_entry.
Qed.

Lemma tree_try_rmdir (p : path) (fs : store) :
  tree fs → tree (try_rmdir p fs).2.
Proof.
  intros Ht. destruct (try_rmdir_inv p fs) as [(-> & _ & _ & Hno)| ->];
    simpl; [by apply tree_delete | done].
Qed.

Lemma tree_move_videos (src_dir : path) (fs : store) :
  tree fs → tree (move_videos src_dir fs).2.
Proof.
  intros Ht. unfold move_videos. unfold_M.
  apply (for_inv tree); [|done]. intros. by apply tree_flatten_move.
Qed.

Lemma tree_prune_empty (src_dir : path) (fs : store) :
  tree fs → tree (prune_empty src_dir fs).2.
Proof.
  intros Ht. unfold prune_empty. unfold_M.
  apply (for_inv tree); [|done]. intros. by apply tree_try_rmdir.
Qed.

Lemma tree_flatten (src_dir : path) (fs : store) :
  tree fs → tree (_flatten_to_video_dir src_dir fs).2.
Proof.
  intros Ht. unfold _flatten_to_video_dir. unfold_M.
  destruct (exists_ fs src_dir); simpl; [|done].
  pose proof (tree_move_videos src_dir fs Ht) as Hm.
  destruct (move_videos src_dir fs) as [[[]|e] fs1]; simpl in *; [|done].
  by apply tree_prune_empty.
Qed.
End tree_sweep.

Lemma tree_ancestor (fs : store) (q k : path) (v : node) :
  tree fs → q ≠ [] → below q k → fs !! k = Some v → fs !! q = Some Dir.
Proof.
  intros Ht Hq [[r ->] Hne]. revert v.
  induction r as [|n r IH] using rev_ind; intros v Hk.
  - by rewrite app_nil_r in Hne.
  - rewrite app_assoc in Hk. fold (joinpath (q ++ r) n) in Hk.
    destruct (tree_lookup fs _ v Ht Hk) as [_ Hpar].
    rewrite parent_snoc in Hpar.
    rewrite stat_lookup in Hpar by (by destruct q).
    destruct r as [|a r]; [by rewrite app_nil_r in Hpar |].
    eapply IH; [|done]. intros Heq. apply (f_equal length) in Heq.
    rewrite length_app in Heq. simpl in Heq. lia.
Qed.

Lemma has_entry_weaken (fs fs' : store) (d : path) :
  fs' ⊆ fs → has_entry fs' d → has_entry fs d.
Proof.
  rewrite !has_entry_iff. intros Hsub [n [v Hv]]. exists n, v.
  by eapply lookup_weaken.
Qed.

Section frame.
Context `{Scandir}.

Lemma move_videos_plain (src_dir : path) (fs : store) (q : path) :
  plain q → (move_videos src_dir fs).2 !! q = fs !! q.
Proof.
  intros Hq. unfold move_videos. unfold_M.
  apply (for_rel (λ s s' : store, s' !! q = s !! q)); [done | congruence |].
  intros mp4 s (_ & _ & Hb & Hm)%elem_of_rglob.
  assert (mp4 ≠ []) as Hne.
  { intros ->. apply below_length in Hb. simpl in Hb. lia. }
  apply flatten_move_frame; apply plain_not_prefix; try done.
Qed.

(** What the second loop changes: it only takes away directories, and
    a directory it took away has no entry left. *)
Lemma prune_loop_removes (l : list path) (fs : store) (q : path) :
  let fs' := (for_ l try_rmdir fs).2 in
  fs' ⊆ fs
  ∧ (fs' !! q ≠ fs !! q →
     fs !! q = Some Dir ∧ fs' !! q = None ∧ ¬ has_entry fs' q).
Proof.
  revert fs. induction l as [|p l IH]; intros fs; simpl; [done |].
  unfold_M.
  destruct (try_rmdir_inv p fs) as [(Hr & Hp & Hdir & Hno)|Hr]; rewrite Hr;
    [|apply IH].
  destruct (IH (delete p fs)) as [Hsub1 Hch1]. simpl in *.
  assert ((for_ l try_rmdir (delete p fs)).2 ⊆ fs) as Hsub.
  { etrans; [done |]. apply delete_subseteq. }
  split; [done |]. intros Hch.
  destruct (decide (q = p)) as [->|Hqp].
  - split_and!; [done | |].
    + destruct ((for_ l try_rmdir (delete p fs)).2 !! p) as [v|] eqn:E;
        [|done].
      pose proof (lookup_weaken _ _ _ _ E Hsub1) as Hw.
      by rewrite lookup_delete_eq in Hw.
    + intros He. apply Hno. by eapply has_entry_weaken.
  - rewrite <- (lookup_delete_ne fs p q) in Hch by done.
    destruct (Hch1 Hch) as (Hd & ? & ?).
    by rewrite lookup_delete_ne in Hd.
Qed.

Lemma prune_empty_removes (src_dir : path) (fs : store) (q : path) :
  let fs' := (prune_empty src_dir fs).2 in
  fs' ⊆ fs
  ∧ (fs' !! q ≠ fs !! q →
     fs !! q = Some Dir ∧ fs' !! q = None ∧ ¬ has_entry fs' q).
Proof. unfold prune_empty. unfold_M. apply prune_loop_removes. Qed.

Lemma prune_empty_files (src_dir : path) (fs : store) (q : path) (c : string) :
  (prune_empty src_dir fs).2 !! q = Some (File c) ↔ fs !! q = Some (File c).
Proof.
  destruct (prune_empty_removes src_dir fs q) as [Hsub Hch]. simpl in *.
  split; [intros Hq; by eapply lookup_weaken |]. intros Hq.
  destruct (decide ((prune_empty src_dir fs).2 !! q = fs !! q)) as [->|Hne];
    [done |].
  destruct (Hch Hne) as [? _]. congruence.
Qed.

Lemma prune_empty_Ok (src_dir : path) (fs : store) :
  (prune_empty src_dir fs).1 = Ok tt.
Proof. unfold prune_empty. unfold_M. apply for_try_rmdir_Ok. Qed.

Lemma flatten_plain_files (src_dir : path) (fs : store) (q : path) (c : string) :
  plain q →
  (_flatten_to_video_dir src_dir fs).2 !! q = Some (File c)
  ↔ fs !! q = Some (File c).
Proof.
  intros Hq. unfold _flatten_to_video_dir. unfold_M.
  destruct (exists_ fs src_dir); simpl; [|done].
  pose proof (move_videos_plain src_dir fs q Hq) as Hm.
  destruct (move_videos src_dir fs) as [[[]|e] fs1]; simpl in *;
    [|by rewrite Hm].
  by rewrite prune_empty_files, Hm.
Qed.
End frame.

(** ** Moving one video file to the top level *)

Lemma unlink_file (p : path) (fs : store) (c : string) :
  p ≠ [] → fs !! p = Some (File c) → unlink p fs = (Ok tt, delete p fs).
Proof. intros Hp Hc. unfold unlink. by rewrite stat_lookup, Hc. Qed.

Lemma depth_two (p : path) : parent p ≠ VIDEO_DIR ↔ (2 ≤ length p)%nat.
Proof.
  destruct p as [|a [|b p]]; simpl; [naive_solver lia | naive_solver lia |].
  split; [lia | done].
Qed.

Lemma depth_not_nil (p : path) : (2 ≤ length p)%nat → p ≠ [].
Proof. intros Hlen ->. simpl in Hlen. lia. Qed.

Lemma depth_not_top (p : path) (n : string) : (2 ≤ length p)%nat → p ≠ [n].
Proof. intros Hlen ->. simpl in Hlen. lia. Qed.

Lemma shutil_move_file_top (mp4 : path) (n : string) (fs : store) (c : string) :
  (2 ≤ length mp4)%nat → fs !! mp4 = Some (File c) → fs !! [n] = None →
  shutil_move mp4 [n] fs = (Ok tt, <[[n] := File c]> (delete mp4 fs)).
Proof.
  intros Hlen Hc Hn. unfold shutil_move. unfold_M.
  unfold is_dir. rewrite stat_cons, Hn. unfold os_rename.
  rewrite stat_lookup by (by apply depth_not_nil). rewrite Hc.
  rewrite decide_False by (by apply depth_not_top).
  simpl. by rewrite Hn.
Qed.

Lemma flatten_move_file (mp4 : path) (fs : store) (c : string) :
  (2 ≤ length mp4)%nat → fs !! mp4 = Some (File c) →
  fs !! [name mp4] ≠ Some Dir →
  flatten_move mp4 fs = (Ok tt, <[[name mp4] := File c]> (delete mp4 fs)).
Proof.
  intros Hlen Hc Hd.
  assert (mp4 ≠ [name mp4]) as Hne by (by apply depth_not_top).
  assert (mp4 ≠ []) as Hne0 by (by apply depth_not_nil).
  unfold flatten_move. rewrite decide_False by (by apply depth_two).
  unfold_M. change (VIDEO_DIR // name mp4) with [name mp4].
  unfold exists_. rewrite stat_cons.
  destruct (fs !! [name mp4]) as [[old|]|] eqn:E; [|done|].
  - rewrite (unlink_file _ _ old) by done.
    rewrite (shutil_move_file_top _ _ _ c); [| done | | apply lookup_delete_eq].
    + f_equal. apply map_eq. intros k.
      destruct (decide (k = [name mp4])) as [->|Hk];
        [by rewrite !lookup_insert_eq |].
      rewrite !lookup_insert_ne by done.
      destruct (decide (k = mp4)) as [->|Hk2];
        [by rewrite !lookup_delete_eq |].
      by rewrite !lookup_delete_ne.
    + by rewrite lookup_delete_ne.
  - by rewrite (shutil_move_file_top _ _ _ c).
Qed.

(** ** The order of [sorted] *)

Lemma string_compare_refl (a : string) : String.compare a a = Eq.
Proof.
  pose proof (String.compare_antisym a a) as Ha.
  by destruct (String.compare a a).
Qed.

Lemma string_compare_lt_trans (a b c : string) :
  String.compare a b = Lt → String.compare b c = Lt → String.compare a c = Lt.
Proof.
  intros Hab Hbc. apply String_as_OT.cmp_lt.
  eapply String_as_OT.lt_trans; by apply String_as_OT.cmp_lt.
Qed.

Lemma path_cmp_antisym (p q : path) : path_cmp q p = CompOpp (path_cmp p q).
Proof.
  revert q. induction p as [|a p IH]; intros [|b q]; simpl; try done.
  rewrite (String.compare_antisym b a).
  destruct (String.compare a b); simpl; [apply IH | done | done].
Qed.

Lemma path_cmp_eq (p q : path) : path_cmp p q = Eq → p = q.
Proof.
  revert q. induction p as [|a p IH]; intros [|b q]; simpl; try done.
  destruct (String.compare a b) eqn:E; try done.
  apply String.compare_eq_iff in E as ->. by intros ->%IH.
Qed.

Lemma path_cmp_lt_trans (p q r : path) :
  path_cmp p q = Lt → path_cmp q r = Lt → path_cmp p r = Lt.
Proof.
  revert q r. induction p as [|a p IH]; intros [|b q] [|c r]; simpl; try done.
  destruct (String.compare a b) eqn:Eab; try done;
    destruct (String.compare b c) eqn:Ebc; try done.
  - apply String.compare_eq_iff in Eab as ->. rewrite Ebc. apply IH.
  - apply String.compare_eq_iff in Eab as ->. by rewrite Ebc.
  - apply String.compare_eq_iff in Ebc as ->. by rewrite Eab.
  - by rewrite (string_compare_lt_trans a b c).
Qed.

#[global] Instance path_ge_total : Total path_ge.
Proof.
  intros p q. unfold path_ge. rewrite (path_cmp_antisym p q).
  destruct (path_cmp p q); simpl; auto.
Qed.

#[global] Instance path_ge_trans : Transitive path_ge.
Proof.
  intros p q r Hpq Hqr Hpr. unfold path_ge in *.
  destruct (path_cmp p q) eqn:E1; [| done |].
  - apply path_cmp_eq in E1 as ->. done.
  - apply Hqr. apply (path_cmp_lt_trans q p r); [|done].
    rewrite (path_cmp_antisym p q), E1. done.
Qed.

Lemma path_cmp_app (d r : path) : r ≠ [] → path_cmp d (d ++ r) = Lt.
Proof.
  intros Hr. induction d as [|a d IH]; simpl.
  - by destruct r.
  - by rewrite string_compare_refl.
Qed.

Lemma below_path_lt (d k : path) : below d k → path_cmp d k = Lt.
Proof.
  intros [[r ->] Hne]. apply path_cmp_app. intros ->.
  by rewrite app_nil_r in Hne.
Qed.

Lemma sorted_reverse_sorted (l : list path) :
  StronglySorted path_ge (sorted_reverse l).
Proof. apply StronglySorted_merge_sort; apply _. Qed.

Lemma elem_of_sorted_reverse (l : list path) (p : path) :
  p ∈ sorted_reverse l ↔ p ∈ l.
Proof. unfold sorted_reverse. by rewrite merge_sort_Permutation. Qed.

(** ** The pruning loop *)

Lemma try_rmdir_dir (p : path) (fs : store) :
  p ≠ [] → fs !! p = Some Dir → ¬ has_entry fs p →
  try_rmdir p fs = (Ok tt, delete p fs).
Proof.
  intros Hp Hd Hno. unfold try_rmdir, rmdir. destruct p as [|a p]; [done |].
  rewrite stat_cons, Hd. by rewrite decide_False.
Qed.


Lemma prune_loop_frame (l : list path) (fs : store) (k : path) :
  k ∉ l → (for_ l try_rmdir fs).2 !! k = fs !! k.
Proof.
  revert fs. induction l as [|p l IH]; intros fs Hk; simpl; [done |].
  apply not_elem_of_cons in Hk as [Hkp Hk]. unfold_M.
  destruct (try_rmdir_inv p fs) as [(Hr & _)|Hr]; rewrite Hr.
  - rewrite IH by done. by apply lookup_delete_ne.
  - by apply IH.
Qed.


(** After the loop over a list in which no path comes before a path
    below it, every directory of the list that is left has an entry. *)
Lemma prune_loop_char (l : list path) (fs : store) (p : path) :
  StronglySorted path_ge l → Forall (λ q, q ≠ []) l → p ∈ l →
  (for_ l try_rmdir fs).2 !! p = Some Dir →
  has_entry (for_ l try_rmdir fs).2 p.
Proof.
  intros Hs Hnil. revert fs.
  induction l as [|x l IH]; intros fs Hp; [by apply not_elem_of_nil in Hp |].
  apply StronglySorted_inv in Hs as [Hs Hx].
  apply Forall_cons in Hnil as [Hx0 Hnil].
  simpl. unfold_M.
  destruct (decide (p ∈ l)) as [Hpl|Hpl].
  { destruct (try_rmdir_inv x fs) as [(Hr & _)|Hr]; rewrite Hr; by apply IH. }
  apply elem_of_cons in Hp as [->|?]; [|done].
  destruct (for_ l try_rmdir (try_rmdir x fs).2) as [r fin] eqn:Efin.
  assert (fin = (for_ l try_rmdir (try_rmdir x fs).2).2) as Hfin
    by (by rewrite Efin).
  destruct (try_rmdir x fs) as [r1 fs1] eqn:E1. simpl in *.
  assert (r1 = Ok tt) as ->.
  { destruct (try_rmdir_inv x fs) as [(Hr & _)|Hr]; congruence. }
  rewrite Efin. simpl. intros Hdir.
  destruct (prune_loop_removes l fs1 x) as [Hsub _]. simpl in Hsub.
  rewrite <- Hfin in Hsub.
  pose proof (lookup_weaken _ _ _ _ Hdir Hsub) as Hdir1.
  destruct (decide (has_entry fs x)) as [He|He].
  - destruct (try_rmdir_inv x fs) as [(_ & _ & _ & Hno)|Hr]; [done |].
    assert (fs1 = fs) as -> by congruence.
    apply has_entry_iff in He as [n Hn]. apply has_entry_iff. exists n.
    rewrite Hfin, prune_loop_frame; [done |].
    intros Hin. rewrite Forall_forall in Hx. specialize (Hx _ Hin).
    apply Hx. apply below_path_lt, entry_below, entry_of_iff. by exists n.
  - destruct (try_rmdir_inv x fs) as [(Hr & _)|Hr].
    + assert (fs1 = delete x fs) as -> by congruence.
      by rewrite lookup_delete_eq in Hdir1.
    + assert (fs1 = fs) as -> by congruence.
      rewrite try_rmdir_dir in E1 by done.
      injection E1 as E1. rewrite <- E1 in Hdir1.
      by rewrite lookup_delete_eq in Hdir1.
Qed.

Section prune.
Context `{Scandir}.



Lemma rglob_not_nil (pat : string) (d : path) (fs : store) :
  Forall (λ q, q ≠ []) (rglob pat d fs).
Proof.
  apply Forall_forall. intros k (_ & _ & Hb & _)%elem_of_rglob ->.
  apply below_length in Hb. simpl in Hb. lia.
Qed.

End prune.

(** ** The moving loop when every [*.mp4] entry is a file *)

Lemma videos_are_files_weaken (fs fs' : store) :
  fs' ⊆ fs → videos_are_files fs → videos_are_files fs'.
Proof. intros Hsub Hv k v Hk. apply (Hv k v). by eapply lookup_weaken. Qed.


Lemma move_loop_files (l : list path) (fs : store) :
  NoDup l → videos_are_files fs →
  (∀ x, x ∈ l → fnmatch "*.mp4" (name x) = true
               ∧ ((2 ≤ length x)%nat → ∃ c, fs !! x = Some (File c))) →
  ∃ fs', for_ l flatten_move fs = (Ok tt, fs')
         ∧ videos_are_files fs'
         ∧ (∀ x, x ∈ l → (2 ≤ length x)%nat → fs' !! x = None)
         ∧ (∀ k, (2 ≤ length k)%nat → k ∉ l → fs' !! k = fs !! k)
         ∧ (∀ k, fs' !! k = Some Dir → fs !! k = Some Dir).
Proof.
  intros Hnd. revert fs. induction Hnd as [|x l Hx Hnd IH]; intros fs Hv Hl.
  { exists fs. split_and!; try done. intros x Hin. by apply not_elem_of_nil in Hin. }
  destruct (Hl x (list_elem_of_here _ _)) as [Hm Hfile].
  destruct (decide (2 ≤ length x)%nat) as [Hlen|Hlen].
  - destruct (Hfile Hlen) as [c Hc].
    assert (fs !! [name x] ≠ Some Dir) as Hdest.
    { intros Hd. by apply (Hv [name x] Dir Hd). }
    pose proof (depth_not_top x (name x) Hlen) as Hne.
    set (fs1 := <[[name x] := File c]> (delete x fs)).
    destruct (IH fs1) as (fs' & Hfor & Hv' & Hgone & Hsame & Hdir).
    + intros k v Hk Hmk. unfold fs1 in Hk.
      apply lookup_insert_Some in Hk as [[_ <-]|[_ Hk]]; [done |].
      apply lookup_delete_Some in Hk as [_ Hk]. by apply (Hv k v).
    + intros y Hy. destruct (Hl y) as [Hmy Hfy]; [by right |].
      split; [done |]. intros Hly. destruct (Hfy Hly) as [cy Hcy].
      exists cy. unfold fs1.
      rewrite lookup_insert_ne by (by apply not_eq_sym, depth_not_top).
      rewrite lookup_delete_ne; [done |]. by intros ->.
    + exists fs'. simpl. unfold_M.
      rewrite (flatten_move_file x fs c) by done. fold fs1. rewrite Hfor.
      split_and!; try done.
      * intros y [->|Hy]%elem_of_cons Hly; [|by apply Hgone].
        rewrite Hsame by done. unfold fs1.
        rewrite lookup_insert_ne by (by apply not_eq_sym).
        apply lookup_delete_eq.
      * intros k Hk [Hkx Hkl]%not_elem_of_cons. rewrite Hsame by done.
        unfold fs1.
        rewrite lookup_insert_ne by (by apply not_eq_sym, depth_not_top).
        by rewrite lookup_delete_ne.
      * intros k Hk%Hdir. unfold fs1 in Hk.
        apply lookup_insert_Some in Hk as [[_ ?]|[_ Hk]]; [done |].
        by apply lookup_delete_Some in Hk as [_ Hk].
  - destruct (IH fs Hv) as (fs' & Hfor & Hv' & Hgone & Hsame & Hdir).
    { intros y Hy. apply Hl. by right. }
    exists fs'. simpl. unfold_M.
    rewrite flatten_move_top.
    2:{ destruct (decide (parent x = VIDEO_DIR)) as [|Hp]; [done |].
        apply depth_two in Hp. lia. }
    rewrite Hfor. split_and!; try done.
    + intros y [->|Hy]%elem_of_cons Hly; [lia | by apply Hgone].
    + intros k Hk [Hkx Hkl]%not_elem_of_cons. by apply Hsame.
Qed.

Lemma last_cons_Some {A} (x y : A) (l : list A) :
  last l = Some y → last (x :: l) = Some y.
Proof. destruct l; [done | by intros <-]. Qed.

(** Where several moved files share a name, the last one listed is the
    one found at the top level afterwards. *)
Lemma move_loop_top (l : list path) (fs : store) (n : string) :
  NoDup l → videos_are_files fs →
  (∀ x, x ∈ l → fnmatch "*.mp4" (name x) = true
               ∧ ((2 ≤ length x)%nat → ∃ c, fs !! x = Some (File c))) →
  (for_ l flatten_move fs).2 !! [n]
  = match last (writers n l) with
    | Some x => fs !! x
    | None => fs !! [n]
    end.
Proof.
  intros Hnd. revert fs. induction Hnd as [|x l Hx Hnd IH]; intros fs Hv Hl;
    [done |].
  destruct (Hl x (list_elem_of_here _ _)) as [Hm Hfile].
  simpl. unfold_M. unfold writers. rewrite filter_cons. fold (writers n l).
  destruct (decide (2 ≤ length x)%nat) as [Hlen|Hlen].
  - destruct (Hfile Hlen) as [c Hc].
    assert (fs !! [name x] ≠ Some Dir) as Hdest.
    { intros Hd. by apply (Hv [name x] Dir Hd). }
    rewrite (flatten_move_file x fs c) by done.
    set (fs1 := <[[name x] := File c]> (delete x fs)).
    rewrite IH.
    + destruct (last (writers n l)) as [y|] eqn:Ey.
      * assert (y ∈ writers n l) as Hy.
        { apply last_Some in Ey as [l' ->].
          apply elem_of_app. right. apply list_elem_of_here. }
        apply list_elem_of_filter in Hy as [[Hly _] Hyl].
        assert (fs1 !! y = fs !! y) as ->.
        { unfold fs1.
          rewrite lookup_insert_ne by (by apply not_eq_sym, depth_not_top).
          rewrite lookup_delete_ne; [done |]. by intros ->. }
        destruct (decide _); [by rewrite (last_cons_Some _ y) | by rewrite Ey].
      * unfold fs1. apply last_None in Ey. rewrite Ey.
        destruct (decide ((2 ≤ length x)%nat ∧ name x = n)) as [[_ <-]|Hn]; simpl.
        -- by rewrite lookup_insert_eq.
        -- rewrite lookup_insert_ne by (intros [= ?]; by apply Hn).
           rewrite lookup_delete_ne; [done |]. by apply depth_not_top.
    + intros k v Hk Hmk. unfold fs1 in Hk.
      apply lookup_insert_Some in Hk as [[_ <-]|[_ Hk]]; [done |].
      apply lookup_delete_Some in Hk as [_ Hk]. by apply (Hv k v).
    + intros y Hy. destruct (Hl y) as [Hmy Hfy]; [by right |].
      split; [done |]. intros Hly. destruct (Hfy Hly) as [cy Hcy].
      exists cy. unfold fs1.
      rewrite lookup_insert_ne by (by apply not_eq_sym, depth_not_top).
      rewrite lookup_delete_ne; [done |]. by intros ->.
  - rewrite flatten_move_top.
    2:{ destruct (decide (parent x = VIDEO_DIR)) as [|Hp]; [done |].
        apply depth_two in Hp. lia. }
    rewrite decide_False by (by intros [? _]).
    apply IH; [done |]. intros y Hy. apply Hl. by right.
Qed.

Section files_only.
Context `{Scandir}.

Lemma move_videos_files (src_dir : path) (fs : store) :
  videos_are_files fs →
  ∃ fs', move_videos src_dir fs = (Ok tt, fs')
         ∧ videos_are_files fs'
         ∧ (is_dir fs src_dir = true →
            ∀ k, (2 ≤ length k)%nat → below src_dir k →
                 fnmatch "*.mp4" (name k) = true → fs' !! k = None)
         ∧ (∀ k v, (2 ≤ length k)%nat → fs' !! k = Some v → fs !! k = Some v)
         ∧ (∀ k, fs' !! k = Some Dir → fs !! k = Some Dir).
Proof.
  intros Hv. unfold move_videos. unfold_M.
  destruct (move_loop_files (rglob "*.mp4" src_dir fs) fs)
    as (fs' & Hfor & Hv' & Hgone & Hsame & Hdir);
    [apply NoDup_rglob | done | |].
  { intros x (_ & [v Hx] & _ & Hm)%elem_of_rglob. split; [done |].
    intros _. destruct v as [c|]; [by exists c |]. by destruct (Hv x Dir Hx Hm). }
  exists fs'. split_and!; try done.
  - intros Hd k Hk Hb Hm.
    destruct (decide (k ∈ rglob "*.mp4" src_dir fs)) as [Hin|Hin];
      [by apply Hgone |].
    rewrite Hsame by done.
    destruct (fs !! k) as [v|] eqn:E; [|done].
    destruct Hin. apply elem_of_rglob. by rewrite E.
  - intros k v Hk Hkv.
    destruct (decide (k ∈ rglob "*.mp4" src_dir fs)) as [Hin|Hin].
    + by rewrite Hgone in Hkv.
    + by rewrite Hsame in Hkv.
Qed.

Lemma flatten_files (src_dir : path) (fs : store) :
  videos_are_files fs →
  ∃ fs1, move_videos src_dir fs = (Ok tt, fs1)
    ∧ _flatten_to_video_dir src_dir fs
      = (Ok tt, if exists_ fs src_dir then (prune_empty src_dir fs1).2 else fs)
    ∧ let fs' := (_flatten_to_video_dir src_dir fs).2 in
      videos_are_files fs'
      ∧ (is_dir fs src_dir = true →
         ∀ k, (2 ≤ length k)%nat → below src_dir k →
              fnmatch "*.mp4" (name k) = true → fs' !! k = None)
      ∧ (∀ k v, (2 ≤ length k)%nat → fs' !! k = Some v → fs !! k = Some v)
      ∧ (∀ k, fs' !! k = Some Dir → fs !! k = Some Dir).
Proof.
  intros Hv.
  destruct (move_videos_files src_dir fs Hv)
    as (fs1 & Hmv & Hv1 & Hgone & Hmono & Hdir).
  exists fs1. split; [done |].
  unfold _flatten_to_video_dir. unfold_M.
  destruct (exists_ fs src_dir) eqn:Hex; simpl.
  - rewrite Hmv.
    pose proof (prune_empty_Ok src_dir fs1) as Hok.
    destruct (prune_empty_removes src_dir fs1 []) as [Hsub _].
    destruct (prune_empty src_dir fs1) as [r fs2]. simpl in *. subst r.
    split; [done |]. split_and!.
    + by eapply videos_are_files_weaken.
    + intros Hd k Hk Hb Hm.
      destruct (fs2 !! k) as [v|] eqn:E; [|done].
      pose proof (lookup_weaken _ _ _ _ E Hsub) as E1.
      by rewrite Hgone in E1.
    + intros k v Hk Hkv. apply Hmono; [done |]. by eapply lookup_weaken.
    + intros k Hk. apply Hdir. by eapply lookup_weaken.
  - split; [done |]. split_and!; try done.
    intros Hd. unfold exists_, is_dir in *. by destruct (stat fs src_dir) as [[]|].
Qed.

End files_only.

(** C6.  When a video file below the top level is moved and a file of
    its name is already at the top level, [flatten_move] first unlinks
    that file and then moves the new one to a place that is free by
    then: the new contents are at the top level, the file has left its
    old place and nothing else changes.  When the occupant is a
    directory, the unlink raises and nothing is overwritten.  Over the
    whole loop the last writer wins: in a store with no directory named
    [*.mp4], the top-level entry of a name holds afterwards what the last
    moved path of that name held. *)
Theorem flatten_move_collision `{Scandir} (mp4 : path) (fs : store) (c : string) :
  parent mp4 ≠ VIDEO_DIR → fs !! mp4 = Some (File c) →
  let dest := VIDEO_DIR // name mp4 in
  (∀ old, fs !! dest = Some (File old) →
     let fs1 := delete dest fs in
     let fs2 := <[dest := File c]> (delete mp4 fs1) in
     unlink dest fs = (Ok tt, fs1)
     ∧ exists_ fs1 dest = false
     ∧ shutil_move mp4 dest fs1 = (Ok tt, fs2)
     ∧ flatten_move mp4 fs = (Ok tt, fs2)
     ∧ fs2 !! dest = Some (File c) ∧ fs2 !! mp4 = None
     ∧ ∀ q, q ≠ dest → q ≠ mp4 → fs2 !! q = fs !! q)
  ∧ (fs !! dest = Some Dir → flatten_move mp4 fs = (Raise EISDIR, fs))
  ∧ (videos_are_files fs →
     ∀ src_dir n,
       (move_videos src_dir fs).2 !! (VIDEO_DIR // n)
       = match last (writers n (rglob "*.mp4" src_dir fs)) with
         | Some x => fs !! x
         | None => fs !! (VIDEO_DIR // n)
         end).
Proof.
  intros Hp%depth_two Hc. change (VIDEO_DIR // name mp4) with [name mp4].
  assert (mp4 ≠ [name mp4]) as Hne by (by apply depth_not_top).
  assert (mp4 ≠ []) as Hne0 by (by apply depth_not_nil).
  split_and!.
  - intros old Hold. simpl.
    assert (shutil_move mp4 [name mp4] (delete [name mp4] fs)
            = (Ok tt, <[[name mp4] := File c]> (delete mp4 (delete [name mp4] fs))))
      as Hmove.
    { apply shutil_move_file_top; [done | | apply lookup_delete_eq].
      by rewrite lookup_delete_ne. }
    split_and!.
    + by apply (unlink_file _ _ old).
    + unfold exists_. by rewrite stat_cons, lookup_delete_eq.
    + done.
    + unfold flatten_move. rewrite decide_False by (by apply depth_two).
      unfold_M. change (VIDEO_DIR // name mp4) with [name mp4].
      unfold exists_. rewrite stat_cons, Hold.
      by rewrite (unlink_file _ _ old).
    + apply lookup_insert_eq.
    + rewrite lookup_insert_ne by done. apply lookup_delete_eq.
    + intros q Hq1 Hq2. by rewrite lookup_insert_ne, !lookup_delete_ne.
  - intros Hdir. unfold flatten_move.
    rewrite decide_False by (by apply depth_two).
    unfold_M. change (VIDEO_DIR // name mp4) with [name mp4].
    unfold exists_. rewrite stat_cons, Hdir. cbn beta iota.
    unfold unlink. by rewrite stat_cons, Hdir.
  - intros Hv src_dir n. unfold move_videos. unfold_M.
    apply move_loop_top; [apply NoDup_rglob | done |].
    intros x (_ & [v Hx] & _ & Hm)%elem_of_rglob. split; [done |].
    intros _. destruct v as [cx|]; [by exists cx |].
    by destruct (Hv x Dir Hx Hm).
Qed.

Lemma flatten_move_collision_witness :
  flatten_move ["1080p60"; "IntegralScene.mp4"] store_collision
  = (Ok tt, <[["IntegralScene.mp4"] := File "new"]>
              (delete ["1080p60"; "IntegralScene.mp4"]
                 (delete ["IntegralScene.mp4"] store_collision))).
Proof.
  assert (parent ["1080p60"; "IntegralScene.mp4"] ≠ VIDEO_DIR) as H1 by done.
  assert (store_collision !! ["1080p60"; "IntegralScene.mp4"] = Some (File "new"))
    as H2 by (vm_compute; reflexivity).
  apply (proj1 (@flatten_move_collision as_listed _ _ _ H1 H2) "stale").
  vm_compute. reflexivity.
Defined.

(** ** The moving loop in any well-formed store *)





Section general.
Context `{Scandir}.



End general.



(** ** What the sweep leaves alone *)

(** C10, as stated, fails: [rglob("*.mp4")] also yields a directory whose
    name ends in [.mp4], and the sweep moves it with all it holds, so a
    text file in it leaves its place. *)
Lemma flatten_moves_file_in_mp4_dir :
  ¬ (∀ (order : Scandir) (src_dir : path) (fs : store) (q : path) (c : string),
       below src_dir q → fnmatch "*.mp4" (name q) = false →
       fs !! q = Some (File c) →
       (@_flatten_to_video_dir order src_dir fs).2 !! q = Some (File c)).
Proof.
  intros Hall.
  specialize (Hall as_listed ["1080p60"] store_clip_dir
                ["1080p60"; "clip.mp4"; "notes.txt"] "notes").
  assert (below ["1080p60"] ["1080p60"; "clip.mp4"; "notes.txt"]) as Hb.
  { split; [by exists ["clip.mp4"; "notes.txt"] | done]. }
  specialize (Hall Hb eq_refl eq_refl). vm_compute in Hall. discriminate.
Qed.

Section sheltered.
Context `{Scandir}.

Lemma flatten_move_keeps_file (x q : path) (s : store) (c : string) :
  tree s → fnmatch "*.mp4" (name x) = true → sheltered q →
  s !! q = Some (File c) → (flatten_move x s).2 !! q = Some (File c).
Proof.
  intros Ht Hm [Hq Habove] Hc.
  destruct (decide (parent x = VIDEO_DIR)) as [Hp|Hp];
    [by rewrite flatten_move_top |].
  assert (¬ x `prefix_of` q) as Hxq.
  { intros [->|Hb]%prefix_below; [congruence |].
    rewrite Habove in Hm; [done | done | by apply depth_two]. }
  destruct (decide ([name x] `prefix_of` q)) as [[<-|Hb]%prefix_below|Hnq].
  - change (name [name x]) with (name x) in Hq. congruence.
  - assert (s !! [name x] = Some Dir) as Hd by (by eapply tree_ancestor).
    destruct (flatten_move x s) as [r s1] eqn:E.
    apply flatten_move_inv in E
      as [(_ & _ & ->)|[(_ & _ & _ & ->)|[(_ & ? & _)|(_ & [? ?] & _)]]];
      simpl; congruence.
  - by rewrite flatten_move_frame.
Qed.

Lemma flatten_keeps_file (src_dir q : path) (fs : store) (c : string) :
  tree fs → sheltered q → fs !! q = Some (File c) →
  (_flatten_to_video_dir src_dir fs).2 !! q = Some (File c).
Proof.
  intros Ht Hq Hc. unfold _flatten_to_video_dir. unfold_M.
  destruct (exists_ fs src_dir); simpl; [|done].
  assert (tree (move_videos src_dir fs).2
          ∧ (move_videos src_dir fs).2 !! q = Some (File c)) as [Ht1 Hc1].
  { unfold move_videos. unfold_M.
    apply (for_inv (λ s : store, tree s ∧ s !! q = Some (File c))); [|done].
    intros x s (_ & _ & _ & Hm)%elem_of_rglob [Hts Hcs].
    split; [by apply tree_flatten_move | by apply flatten_move_keeps_file]. }
  destruct (move_videos src_dir fs) as [[[]|e] fs1]; simpl in *; [|done].
  by apply prune_empty_files.
Qed.
End sheltered.

(** C10, amended.  In a well-formed store the sweep leaves in place, with
    its contents, every file whose name does not end in [.mp4] and that
    has above it, the top level apart, no directory whose name ends in
    [.mp4]; and whatever the store, a file whose path has no component
    ending in [.mp4] is there with given contents after the sweep exactly
    when it was before.  The pruning loop, run on any store, changes
    nothing but directories, and a directory it removes has no entry
    left.  In a well-formed store every directory above a file that is
    there after the sweep is still there. *)
Theorem flatten_keeps_other_files `{Scandir} (src_dir : path) (fs : store) :
  let fs' := (_flatten_to_video_dir src_dir fs).2 in
  (tree fs →
   ∀ q c, sheltered q → fs !! q = Some (File c) → fs' !! q = Some (File c))
  ∧ (∀ q c, plain q → fs' !! q = Some (File c) ↔ fs !! q = Some (File c))
  ∧ (∀ fs1 q, let fs2 := (prune_empty src_dir fs1).2 in
              fs2 !! q ≠ fs1 !! q →
              fs1 !! q = Some Dir ∧ fs2 !! q = None ∧ ¬ has_entry fs2 q)
  ∧ (tree fs →
     ∀ q k c, q ≠ [] → below q k → fs' !! k = Some (File c) →
              fs' !! q = Some Dir).
Proof.
  split_and!.
  - intros Ht q c Hq Hc. by apply flatten_keeps_file.
  - intros q c Hq. by apply flatten_plain_files.
  - intros fs1 q. apply prune_empty_removes.
  - intros Ht q k c Hq Hb Hk.
    eapply tree_ancestor; [by apply tree_flatten | done | done | done].
Qed.

Lemma flatten_keeps_other_files_witness :
  (@_flatten_to_video_dir as_listed ["1080p60"] store_mixed).2
    !! ["1080p60"; "log.txt"] = Some (File "log")
  ∧ (@_flatten_to_video_dir as_listed ["1080p60"] store_mixed).2
      !! ["1080p60"] = Some Dir.
Proof.
  assert (tree store_mixed) as Ht
    by (apply (bool_decide_unpack _); vm_compute; exact I).
  assert (below ["1080p60"] ["1080p60"; "log.txt"]) as Hb
    by (split; [by exists ["log.txt"] | done]).
  split.
  - apply (proj1 (@flatten_keeps_other_files as_listed ["1080p60"] store_mixed) Ht).
    + split; [reflexivity |]. intros a Ha Hlen.
      apply below_length in Ha. simpl in Ha. lia.
    + vm_compute. reflexivity.
  - apply (proj2 (proj2 (proj2 (@flatten_keeps_other_files as_listed
                                  ["1080p60"] store_mixed)))
             Ht ["1080p60"] ["1080p60"; "log.txt"] "log"); [done | done |].
    vm_compute. reflexivity.
Defined.

(** ** The worker's clean-up after a successful render *)

Lemma shutil_move_file_inv (movie outfile : path) (fs fs' : store) (c : string) :
  fs !! movie = Some (File c) → movie ≠ [] →
  shutil_move movie outfile fs = (Ok tt, fs') →
  fs' = fs ∨ ∃ dst, dst ≠ [] ∧ fs' = <[dst := File c]> (delete movie fs).
Proof.
  intros Hc Hm [(e & ? & _)|(dst & _ & E)]%shutil_move_inv; [done |].
  apply os_rename_inv in E
    as [(_ & _ & ->)|[(c' & _ & _ & Hd & _ & Hc' & _ & _ & ->)
       |[(_ & Hdir & _)|(e & ? & _)]]]; [by left | | | done].
  - right. exists dst. split; [done |]. congruence.
  - rewrite stat_lookup in Hdir by done. congruence.
Qed.

Lemma videos_are_files_move (fs : store) (src dst : path) (c : string) :
  videos_are_files fs → videos_are_files (<[dst := File c]> (delete src fs)).
Proof.
  intros Hv k v Hk Hm.
  apply lookup_insert_Some in Hk as [[_ <-]|[_ Hk]]; [done |].
  apply lookup_delete_Some in Hk as [_ Hk]. by apply (Hv k v).
Qed.

Section collect.
Context `{Scandir}.

Lemma flatten_subdir_files (sub : path) (fs : store) :
  tree fs → videos_are_files fs → sub ≠ [] →
  ∃ fs', flatten_subdir sub fs = (Ok tt, fs')
         ∧ tree fs' ∧ videos_are_files fs'
         ∧ (∀ k v, (2 ≤ length k)%nat → fs' !! k = Some v → fs !! k = Some v)
         ∧ (name sub ≠ partial_movie_files →
            ∀ k, (2 ≤ length k)%nat → below sub k →
                 fnmatch "*.mp4" (name k) = true → fs' !! k = None).
Proof.
  intros Ht Hv Hsub. unfold flatten_subdir. unfold_M.
  destruct (is_dir fs sub) eqn:Hd; simpl.
  - destruct (String.eqb_spec (name sub) partial_movie_files) as [Hn|Hn]; simpl.
    + exists fs. split_and!; done.
    + destruct (flatten_files sub fs Hv)
        as (fs1 & _ & Hfl & Hv' & Hgone & Hmono & _).
      pose proof (tree_flatten sub fs Ht) as Ht'.
      rewrite Hfl in *. simpl in *. eexists. split_and!; try done.
      intros _. by apply Hgone.
  - exists fs. split_and!; try done.
    intros _ k Hk Hb Hm. destruct (fs !! k) as [v|] eqn:E; [|done].
    pose proof (tree_ancestor fs sub k v Ht Hsub Hb E) as Hdir.
    assert (is_dir fs sub = true) as Hd'
      by (apply is_dir_stat; by rewrite stat_lookup).
    congruence.
Qed.

Lemma sweep_loop_files (l : list path) (fs : store) :
  tree fs → videos_are_files fs → Forall (λ q, q ≠ []) l →
  ∃ fs', for_ l flatten_subdir fs = (Ok tt, fs')
         ∧ tree fs' ∧ videos_are_files fs'
         ∧ (∀ k v, (2 ≤ length k)%nat → fs' !! k = Some v → fs !! k = Some v)
         ∧ (∀ sub k, sub ∈ l → name sub ≠ partial_movie_files →
               (2 ≤ length k)%nat → below sub k →
               fnmatch "*.mp4" (name k) = true → fs' !! k = None).
Proof.
  revert fs. induction l as [|x l IH]; intros fs Ht Hv Hl.
  { exists fs. split_and!; try done. intros sub k Hin. by apply not_elem_of_nil in Hin. }
  apply Forall_cons in Hl as [Hx Hl].
  destruct (flatten_subdir_files x fs Ht Hv Hx)
    as (fs1 & Hrun & Ht1 & Hv1 & Hmono1 & Hgone1).
  destruct (IH fs1 Ht1 Hv1 Hl) as (fs' & Hfor & Ht' & Hv' & Hmono & Hgone).
  exists fs'. simpl. unfold_M. rewrite Hrun, Hfor. split_and!; try done.
  - intros k v Hk Hkv. apply Hmono1; [done |]. by apply Hmono.
  - intros sub k [->|Hin]%elem_of_cons Hn Hk Hb Hm; [|by eapply Hgone].
    destruct (fs' !! k) as [v|] eqn:E; [|done].
    apply Hmono in E; [|done]. by rewrite Hgone1 in E.
Qed.

(** After steps 4 to 6 have run without an exception, no entry named
    [*.mp4] is left below the top level. *)
Lemma collect_flat (movie outfile : path) (fs fs' : store) (c : string) :
  tree fs → videos_are_files fs → fs !! movie = Some (File c) →
  collect movie outfile fs = (Ok tt, fs') →
  tree fs' ∧ videos_are_files fs'
  ∧ ∀ k, (2 ≤ length k)%nat → fnmatch "*.mp4" (name k) = true → fs' !! k = None.
Proof.
  intros Ht Hv Hc. unfold collect. unfold_M.
  pose proof (tree_shutil_move movie outfile fs Ht) as Ht4.
  destruct (shutil_move movie outfile fs) as [[[]|e] fs4] eqn:Emove; [|done].
  simpl in Ht4.
  assert (videos_are_files fs4) as Hv4.
  { apply (shutil_move_file_inv _ _ _ _ c) in Emove as [->|(dst & _ & ->)];
      [done | by apply videos_are_files_move | done |].
    by destruct (tree_lookup fs movie _ Ht Hc). }
  destruct (flatten_files [partial_movie_files] fs4 Hv4)
    as (fs1 & _ & Hfl & Hv5 & Hgone5 & Hmono5 & _).
  pose proof (tree_flatten [partial_movie_files] fs4 Ht4) as Ht5.
  change (VIDEO_DIR // partial_movie_files) with [partial_movie_files].
  rewrite Hfl in *. simpl in *.
  set (fs5 := if exists_ fs4 [partial_movie_files]
              then (prune_empty [partial_movie_files] fs1).2 else fs4) in *.
  clearbody fs5.
  destruct (sweep_loop_files (iterdir VIDEO_DIR fs5) fs5 Ht5 Hv5)
    as (fs6 & Hfor & Ht6 & Hv6 & Hmono6 & Hgone6).
  { apply Forall_forall. by intros q (_ & Hq & _)%elem_of_iterdir. }
  rewrite Hfor. intros [= <-]. split_and!; try done.
  intros k Hk Hm. destruct (fs6 !! k) as [v|] eqn:E; [|done].
  pose proof (Hmono6 k v Hk E) as E5.
  destruct k as [|s rest]; [simpl in Hk; lia |].
  assert (below [s] (s :: rest)) as Hb.
  { split; [by exists rest |]. intros Heq. rewrite <- Heq in Hk. simpl in Hk. lia. }
  pose proof (tree_ancestor fs5 [s] _ v Ht5 ltac:(done) Hb E5) as Hs.
  destruct (decide (s = partial_movie_files)) as [->|Hn].
  - rewrite Hgone5 in E5; [done | | done | done | done].
    apply is_dir_stat. rewrite stat_cons. apply Hmono5 in E5; [|done].
    by eapply tree_ancestor.
  - rewrite (Hgone6 [s]) in E; [done | | done | done | done | done].
    apply elem_of_iterdir. split; [by rewrite Hs |]. done.
Qed.
End collect.

(** ** The worker *)

Section worker.
Context `{Scandir} `{Engines}.

(** The worker, case by case: what the [try] block did to the disk
    decides the entry written to [TASKS]. *)
Lemma worker_unfold (integrand var lower_s upper_s : string) (outfile : path)
    (vid : string) (w : world) :
  generate_integral_video integrand var lower_s upper_s outfile vid w
  = match render_and_collect integrand var lower_s upper_s outfile (disk w) with
    | (Ok _, fs') =>
        (Ok tt, mkWorld (<[vid := "ready"]> (<[vid := "pending"]> (TASKS w))) fs')
    | (Raise exc, fs') =>
        match unlink_missing_ok outfile fs' with
        | (Ok _, fs'') =>
            (Ok tt, mkWorld (<[vid := ("error:" ++ py_str exc)%string]>
                               (<[vid := "pending"]> (TASKS w))) fs'')
        | (Raise e, fs'') =>
            (Raise e, mkWorld (<[vid := "pending"]> (TASKS w)) fs'')
        end
    end.
Proof.
  unfold generate_integral_video, try_except, on_disk, set_task. unfold_M.
  simpl.
  destruct (render_and_collect _ _ _ _ _ (disk w)) as [[[]|exc] fs']; simpl;
    [done |].
  by destruct (unlink_missing_ok outfile fs') as [[[]|e] fs''].
Qed.

Lemma render_and_collect_unfold (integrand var lower_s upper_s : string)
    (outfile : path) (fs : store) :
  render_and_collect integrand var lower_s upper_s outfile fs
  = match render_scene integrand var lower_s upper_s fs with
    | (Ok movie, fs_r) => collect movie outfile fs_r
    | (Raise e, fs_r) => (Raise e, fs_r)
    end.
Proof. done. Qed.

End worker.

(** C1, as stated, fails: a run whose render fails after writing a
    fragment ends in [error:...] with the fragment still below
    [partial_movie_files]. *)
Lemma failed_run_leaves_nested_video :
  ¬ (∀ (order : Scandir) (engines : Engines)
       (integrand var lower_s upper_s : string) (outfile : path)
       (vid : string) (w : world),
       flat (disk (@generate_integral_video order engines integrand var
                     lower_s upper_s outfile vid w).2)).
Proof.
  intros Hall.
  specialize (Hall as_listed engines_crash "2*x" "x" "0" "1" ["0f.mp4"]
                "0f.mp4" world0
                ["partial_movie_files"; "IntegralScene"; "0.mp4"] "fragment").
  vm_compute in Hall. specialize (Hall eq_refl eq_refl). discriminate.
Qed.

(** C1, amended.  When the store the rendering engine leaves behind is
    well formed and has no directory named [*.mp4], and the movie path it
    returns is a file, a run that ends with the task [ready] leaves every
    [*.mp4] file at the top level of [VIDEO_DIR]. *)
Theorem ready_run_is_flat `{Scandir} `{Engines}
    (integrand var lower_s upper_s : string) (outfile : path) (vid : string)
    (w : world) :
  let rendered := render_scene integrand var lower_s upper_s (disk w) in
  tree rendered.2 → videos_are_files rendered.2 →
  (∀ movie, rendered.1 = Ok movie → ∃ c, rendered.2 !! movie = Some (File c)) →
  let w' := (generate_integral_video integrand var lower_s upper_s outfile
               vid w).2 in
  TASKS w' !! vid = Some "ready" → flat (disk w').
Proof.
  intros rendered Ht Hv Hmovie w'. subst w'. rewrite worker_unfold.
  rewrite render_and_collect_unfold. fold rendered.
  destruct rendered as [[movie|e] fs_r] eqn:Er; simpl in *.
  - destruct (Hmovie movie eq_refl) as [c Hc].
    destruct (collect movie outfile fs_r) as [[[]|exc] fs'] eqn:Ec.
    + simpl. intros _ k c' Hk Hm.
      destruct (collect_flat movie outfile fs_r fs' c Ht Hv Hc Ec)
        as (_ & _ & Hflat).
      destruct (decide (2 ≤ length k)%nat) as [Hlen|Hlen].
      { by rewrite Hflat in Hk. }
      destruct k as [|a [|b k]]; simpl in *; [|done|lia].
      destruct (collect_flat movie outfile fs_r fs' c Ht Hv Hc Ec)
        as (Ht' & _ & _).
      by destruct (tree_lookup fs' [] _ Ht' Hk).
    + destruct (unlink_missing_ok outfile fs') as [[[]|e] fs'']; simpl;
        rewrite lookup_insert_eq; intros [= Heq]; by destruct (py_str exc).
  - destruct (unlink_missing_ok outfile fs_r) as [[[]|e'] fs'']; simpl;
      rewrite lookup_insert_eq; intros [= Heq]; by destruct (py_str e).
Qed.

Lemma ready_run_is_flat_witness :
  flat (disk (@generate_integral_video as_listed engines_ok "2*x" "x" "0" "1"
                ["0f.mp4"] "0f.mp4" world0).2).
Proof.
  apply (@ready_run_is_flat as_listed engines_ok "2*x" "x" "0" "1"
           ["0f.mp4"] "0f.mp4" world0).
  - apply (bool_decide_unpack _). vm_compute. exact I.
  - apply (bool_decide_unpack _). vm_compute. exact I.
  - intros movie Hm. vm_compute in Hm. injection Hm as <-.
    exists "movie". vm_compute. reflexivity.
  - vm_compute. reflexivity.
Defined.

(** ** The output path of a fresh identifier *)

Lemma reserved_weaken (vid : string) (fs fs' : store) :
  fs' ⊆ fs → reserved vid fs → reserved vid fs'.
Proof.
  intros Hsub [Hk Hd]. split.
  - intros k [v Hv] Hn. apply Hk; [|done]. exists v. by eapply lookup_weaken.
  - intros Hv. apply Hd. by eapply lookup_weaken.
Qed.

Lemma os_rename_reserved (vid : string) (src dst : path) (fs : store) :
  reserved vid fs → name dst ≠ vid → (2 ≤ length src)%nat →
  reserved vid (os_rename src dst fs).2.
Proof.
  intros [Hk Hd] Hn Hlen. destruct (os_rename src dst fs) as [r fs'] eqn:E.
  assert (dst ≠ [vid]) as Hdv by (by intros ->).
  apply os_rename_inv in E
    as [(_ & _ & ->)|[(c & _ & _ & _ & _ & _ & _ & _ & ->)
       |[(_ & _ & Hinc & _ & ->)|(e & _ & ->)]]]; simpl; try done.
  - split.
    + intros k [v Hv] Hkn.
      apply lookup_insert_Some in Hv as [[<- _]|[_ Hv]]; [done |].
      apply lookup_delete_Some in Hv as [_ Hv]. apply Hk; [by exists v | done].
    + rewrite lookup_insert_ne by done. intros Hv.
      by apply lookup_delete_Some in Hv as [_ Hv].
  - split.
    + intros k [v Hv] Hkn. rewrite lookup_relocate in Hv by done.
      destruct (decide (src `prefix_of` k)); [done |].
      destruct (decide (dst `prefix_of` k)) as [[r' ->]|]; [|apply Hk; eauto].
      rewrite drop_app_length in Hv.
      destruct (decide (r' = [])) as [->|Hr']; [by rewrite app_nil_r in Hkn |].
      rewrite name_app in Hkn by done.
      assert (src ++ r' = [vid]) as Heq.
      { apply Hk; [by exists v |]. by rewrite name_app. }
      apply (f_equal length) in Heq. rewrite length_app in Heq. simpl in Heq. lia.
    + rewrite lookup_relocate by done.
      rewrite decide_False.
      2:{ intros Hp%prefix_length. simpl in Hp. lia. }
      rewrite decide_False; [done |].
      intros [r' Hr']. destruct dst as [|a [|b dst]]; simpl in *; try done.
      * apply Hinc. right. apply prefix_nil.
      * injection Hr' as -> _. done.
Qed.

Lemma shutil_move_reserved (vid : string) (src : path) (n : string) (fs : store) :
  reserved vid fs → n ≠ vid → name src = n → (2 ≤ length src)%nat →
  reserved vid (shutil_move src [n] fs).2.
Proof.
  intros Hr Hn Hs Hlen. destruct (shutil_move src [n] fs) as [r fs'] eqn:E.
  apply shutil_move_inv in E as [(e & _ & ->)|(dst & Hd & E)]; [done |].
  change fs' with (r, fs').2. rewrite <- E.
  apply os_rename_reserved; [done | | done].
  destruct Hd as [->| ->]; [done |]. by rewrite name_snoc, Hs.
Qed.

Section reserved.
Context `{Scandir}.

Lemma flatten_move_reserved (vid : string) (x : path) (fs : store) :
  reserved vid fs → (parent x ≠ VIDEO_DIR → name x ≠ vid) →
  reserved vid (flatten_move x fs).2.
Proof.
  intros Hr Hx. destruct (flatten_move x fs) as [r fs'] eqn:E.
  apply flatten_move_inv in E
    as [(_ & _ & ->)|[(_ & _ & _ & ->)|[(Hp & _ & E)|(Hp & _ & E)]]];
    simpl; try done.
  - change fs' with (r, fs').2. rewrite <- E.
    apply shutil_move_reserved; [done | by apply Hx | done | by apply depth_two].
  - change fs' with (r, fs').2. rewrite <- E.
    apply shutil_move_reserved; [| by apply Hx | done | by apply depth_two].
    eapply reserved_weaken; [apply delete_subseteq | done].
Qed.

Lemma move_videos_reserved (vid : string) (src_dir : path) (fs : store) :
  reserved vid fs → reserved vid (move_videos src_dir fs).2.
Proof.
  intros Hr. unfold move_videos. unfold_M.
  apply (for_inv (reserved vid)); [|done].
  intros x s (_ & Hx & _ & _)%elem_of_rglob Hs. apply flatten_move_reserved; [done |].
  intros Hp%depth_two Hn. destruct Hr as [Hk _].
  rewrite (Hk x Hx Hn) in Hp. simpl in Hp. lia.
Qed.

Lemma flatten_reserved (vid : string) (src_dir : path) (fs : store) :
  reserved vid fs → reserved vid (_flatten_to_video_dir src_dir fs).2.
Proof.
  intros Hr. unfold _flatten_to_video_dir. unfold_M.
  destruct (exists_ fs src_dir); simpl; [|done].
  pose proof (move_videos_reserved vid src_dir fs Hr) as Hm.
  destruct (move_videos src_dir fs) as [[[]|e] fs1]; simpl in *; [|done].
  destruct (prune_empty_removes src_dir fs1 []) as [Hsub _].
  by eapply reserved_weaken.
Qed.

Lemma flatten_subdir_reserved (vid : string) (sub : path) (fs : store) :
  reserved vid fs → reserved vid (flatten_subdir sub fs).2.
Proof.
  intros Hr. unfold flatten_subdir. unfold_M.
  destruct (_ && _); [by apply flatten_reserved | done].
Qed.

(** With a fresh identifier and a movie that is a file, steps 4 to 6
    never leave a directory at the output path. *)
Lemma collect_outfile_not_dir (vid : string) (movie : path) (fs : store) (c : string) :
  (∀ k, name k = vid → fs !! k = None) → fs !! movie = Some (File c) →
  (collect movie [vid] fs).2 !! [vid] ≠ Some Dir.
Proof.
  intros Hfresh Hc.
  assert (fs !! [vid] = None) as Hv by (by apply Hfresh).
  assert (reserved vid fs) as Hr0.
  { split; [|by rewrite Hv]. intros k [v Hk] Hn. by rewrite Hfresh in Hk. }
  assert (reserved vid (shutil_move movie [vid] fs).2) as Hr4.
  { unfold shutil_move. unfold_M. unfold is_dir. rewrite stat_cons, Hv.
    destruct (os_rename movie [vid] fs) as [r fs4] eqn:E.
    apply os_rename_inv in E
      as [(_ & _ & ->)|[(c' & _ & _ & _ & _ & Hc' & _ & _ & ->)
         |[(_ & Hdir & Hinc & _)|(e & _ & ->)]]]; simpl; try done.
    - split.
      + intros k [v Hk] Hn.
        apply lookup_insert_Some in Hk as [[<- _]|[_ Hk]]; [done |].
        apply lookup_delete_Some in Hk as [_ Hk]. by rewrite Hfresh in Hk.
      + by rewrite lookup_insert_eq.
    - destruct movie; [destruct Hinc; left; apply prefix_nil |].
      simpl in Hdir. congruence. }
  unfold collect. unfold_M.
  destruct (shutil_move movie [vid] fs) as [[[]|e] fs4]; simpl in *;
    [|apply Hr4].
  pose proof (flatten_reserved vid (VIDEO_DIR // partial_movie_files) fs4 Hr4)
    as Hr5.
  destruct (_flatten_to_video_dir _ fs4) as [[[]|e] fs5]; simpl in *;
    [|apply Hr5].
  apply (for_inv (reserved vid)); [|done].
  intros sub s _. apply flatten_subdir_reserved.
Qed.
End reserved.

Lemma unused_lookup (vid : string) (fs : store) (k : path) :
  unused vid fs → name k = vid → fs !! k = None.
Proof.
  intros Hu Hn. destruct (fs !! k) as [v|] eqn:E; [|done].
  by destruct (Hu k v E).
Qed.

Lemma stat_delete_eq (fs : store) (p : path) :
  stat fs p ≠ Some Dir → stat (delete p fs) p = None.
Proof. destruct p; [done |]. intros _. simpl. apply lookup_delete_eq. Qed.

(** C2.  Whatever the run, when it ends with the task [error:...] no
    entry is left at the output path.  When the [try] block raises and
    the output path is not a directory, the handler catches the
    exception: the worker returns, whatever is at the output path is
    unlinked and the task becomes ["error:" + str(exc)].  That is so in
    particular for the path [VIDEO_DIR / vid] of an identifier that no
    entry left by the rendering engine is named after, when the movie
    the engine returns is a file. *)
Theorem failed_run_cleans_up `{Scandir} `{Engines}
    (integrand var lower_s upper_s : string) (outfile : path) (vid : string)
    (w : world) :
  let run := generate_integral_video integrand var lower_s upper_s outfile
               vid w in
  let tried := render_and_collect integrand var lower_s upper_s outfile
                 (disk w) in
  let rendered := render_scene integrand var lower_s upper_s (disk w) in
  let failed exc :=
    (Ok tt, mkWorld (<[vid := ("error:" ++ py_str exc)%string]> (TASKS w))
              (delete outfile tried.2)) in
  (∀ s, TASKS run.2 !! vid = Some s → startswith s "error:" = true →
        stat (disk run.2) outfile = None)
  ∧ (∀ exc, tried.1 = Raise exc → stat tried.2 outfile ≠ Some Dir →
            run = failed exc)
  ∧ (outfile = VIDEO_DIR // vid → unused vid rendered.2 →
     (∀ movie, rendered.1 = Ok movie →
               ∃ c, rendered.2 !! movie = Some (File c)) →
     ∀ exc, tried.1 = Raise exc → run = failed exc).
Proof.
  intros run tried rendered failed.
  assert (∀ exc, tried.1 = Raise exc → stat tried.2 outfile ≠ Some Dir →
                 run = failed exc) as HB.
  { intros exc Hexc Hnd. subst run failed. rewrite worker_unfold. fold tried.
    destruct tried as [r fs']. simpl in *. subst r.
    destruct (unlink_missing_ok outfile fs') as [r'' fs''] eqn:Eu.
    apply unlink_missing_ok_inv in Eu as [(-> & -> & _)|(e & _ & _ & Hd)];
      [|done].
    by rewrite insert_insert_eq. }
  split_and!; [|done|].
  - intros s. subst run. rewrite worker_unfold. fold tried.
    destruct tried as [[[]|exc] fs']; simpl.
    + rewrite lookup_insert_eq. by intros [= <-].
    + destruct (unlink_missing_ok outfile fs') as [r'' fs''] eqn:Eu.
      apply unlink_missing_ok_inv in Eu as [(-> & -> & Hnd)|(e & -> & -> & Hd)];
        simpl.
      * intros _ _. by apply stat_delete_eq.
      * rewrite lookup_insert_eq. by intros [= <-].
  - intros -> Hu Hmovie exc Hexc. apply HB; [done |].
    subst tried. rewrite render_and_collect_unfold in *. fold rendered in Hexc |- *.
    change (VIDEO_DIR // vid) with [vid] in *. rewrite stat_cons.
    destruct rendered as [[movie|e] fs_r]; simpl in *.
    + destruct (Hmovie movie eq_refl) as [c Hc].
      apply (collect_outfile_not_dir vid movie fs_r c); [|done].
      intros k Hk. by apply (unused_lookup vid).
    + by rewrite (unused_lookup vid fs_r [vid]).
Qed.

Lemma failed_run_cleans_up_witness :
  @generate_integral_video as_listed engines_crash "2*x" "x" "0" "1"
    ["0f.mp4"] "0f.mp4" world0
  = (Ok tt,
     mkWorld (<["0f.mp4" := "error:ffmpeg exited with code 1"]> ∅)
       (delete ["0f.mp4"]
          (@render_and_collect as_listed engines_crash "2*x" "x" "0" "1"
             ["0f.mp4"] ∅).2)).
Proof.
  assert (unused "0f.mp4"
            (@render_scene engines_crash "2*x" "x" "0" "1" (disk world0)).2) as Hu
    by (apply (bool_decide_unpack _); vm_compute; exact I).
  assert (∀ movie,
            (@render_scene engines_crash "2*x" "x" "0" "1" (disk world0)).1
            = Ok movie →
            ∃ c, (@render_scene engines_crash "2*x" "x" "0" "1" (disk world0)).2
                   !! movie = Some (File c)) as Hm
    by (intros movie Hmovie; vm_compute in Hmovie; discriminate).
  apply (proj2 (proj2 (@failed_run_cleans_up as_listed engines_crash
                         "2*x" "x" "0" "1" ["0f.mp4"] "0f.mp4" world0))
           eq_refl Hu Hm (EngineError "ffmpeg exited with code 1")).
  vm_compute. reflexivity.
Defined.

(** ** Submission *)

Lemma string_length_append (a b : string) :
  String.length (a +:+ b) = (String.length a + String.length b)%nat.
Proof. induction a as [|c a IH]; simpl; [done | by rewrite IH]. Qed.

Lemma string_append_inj_l (s a b : string) : a +:+ s = b +:+ s → a = b.
Proof.
  revert b. induction a as [|c a IH]; intros [|d b] Heq.
  - done.
  - apply (f_equal String.length) in Heq.
    rewrite !string_length_append in Heq. simpl in Heq. lia.
  - apply (f_equal String.length) in Heq.
    rewrite !string_length_append in Heq. simpl in Heq. lia.
  - injection Heq as -> Heq. by rewrite (IH b Heq).
Qed.

(** C3, amended.  For a form whose four fields are not blank, [index]
    answers at once with a redirect that carries the identifier
    [hex + ".mp4"]; it has started one thread, for the stripped fields,
    the output path [VIDEO_DIR / vid] and the identifier, and has changed
    neither [TASKS] nor the disk.  Distinct values of [hex] give distinct
    identifiers.  When the identifier has no entry in [TASKS], [status]
    right after the submission answers [ready = false], [error = null];
    it answers the same once the worker has written [pending], which is
    the first thing the worker does, and a worker that has run leaves an
    entry for its identifier. *)
Theorem index_starts_one_worker `{Scandir} `{Engines}
    (form : gmap string string) (hex : string) (s : server) :
  (∀ k, k ∈ fields → ¬ whitespace_only (field form k)) →
  let vid := (hex +:+ ".mp4")%string in
  let s' := mkServer (the_world s) (flashes s) (started s ++ [job_of form hex]) in
  index "POST" form hex s = (redirect_result vid, s')
  ∧ (∀ hex', hex' ≠ hex → job_vid (job_of form hex') ≠ vid
                          ∧ job_outfile (job_of form hex') ≠ VIDEO_DIR // vid)
  ∧ (TASKS (the_world s) !! vid = None → status vid s' = jsonify_status false None)
  ∧ status vid (mkServer (set_task vid "pending" (the_world s')) (flashes s')
                  (started s'))
    = jsonify_status false None
  ∧ ∀ w, is_Some (TASKS (run_job (job_of form hex) w).2 !! vid).
Proof.
  intros Hvalid vid s'. split_and!.
  - unfold index. simpl String.eqb. cbv iota.
    by rewrite (proj2 (index_all_truthy form) Hvalid).
  - intros hex' Hne. simpl. split.
    + intros Heq. by apply string_append_inj_l in Heq.
    + intros [= Heq]. by apply string_append_inj_l in Heq.
  - intros Hnone. unfold status. simpl. by rewrite Hnone.
  - unfold status. simpl. by rewrite lookup_insert_eq.
  - intros w. unfold run_job. simpl. rewrite worker_unfold.
    destruct (render_and_collect _ _ _ _ _ _) as [[[]|exc] fs']; simpl.
    + by rewrite lookup_insert_eq.
    + destruct (unlink_missing_ok _ fs') as [[[]|e] fs'']; simpl;
        by rewrite lookup_insert_eq.
Qed.

Lemma index_starts_one_worker_witness :
  index "POST" form_2x "0f" server0
  = (redirect_result "0f.mp4", mkServer world0 [] [job_of form_2x "0f"]).
Proof.
  apply (@index_starts_one_worker as_listed engines_ok form_2x "0f" server0).
  apply index_all_truthy. reflexivity.
Defined.
(** * The desktop application, across its callbacks *)

Lemma getitem_in_range {A} (l : list A) (i : Z) :
  (0 ≤ i < Z.of_nat (length l))%Z → ∃ x, getitem l i = Ok x.
Proof.
  intros Hi. unfold getitem.
  destruct (Z.ltb_spec i 0); [lia |].
  destruct (Z.ltb_spec i 0); [lia |].
  destruct (l !! Z.to_nat i) as [x|] eqn:E; [by exists x |].
  apply lookup_ge_None in E. lia.
Qed.

Lemma py_int_raises (t : num) (e : exn) (m : string) :
  py_int t = Raise e → e ≠ IndexError m.
Proof.
  destruct t as [z|f]; simpl; [done |]. unfold int_of_float.
  destruct (Prim2SF f) as [| | |s mant ex]; intros [= <-]; done.
Qed.

(** The seek of a step button, when the step is an index of the
    timeline: it returns having told the player where to go, or the
    conversion of the seek point raises and nothing is changed. *)
Lemma seek_current_in_range (a : IntegralApp) :
  (0 ≤ current_step a < Z.of_nat (length (step_times a)))%Z →
  ∃ t, getitem (step_times a) (current_step a) = Ok t
       ∧ ((∃ n, py_int t = Ok n ∧ seek_current a = (Ok tt, player (Seek n) a))
          ∨ (∃ e, py_int t = Raise e ∧ seek_current a = (Raise e, a))).
Proof.
  intros Hi. destruct (getitem_in_range _ _ Hi) as [t Ht]. exists t.
  split; [done |]. unfold seek_current. unfold_M. rewrite Ht.
  destruct (py_int t) as [n|e]; eauto.
Qed.

Lemma prev_step_unfold (a : IntegralApp) :
  prev_step a
  = if (0 <? current_step a)%Z then
      match seek_current (set_current_step (current_step a - 1) a) with
      | (Ok _, a2) =>
          (Ok tt, set_next_btn NORMAL
                    (set_prev_btn (if (0 <? current_step a2)%Z
                                   then NORMAL else DISABLED) a2))
      | (Raise e, a2) => (Raise e, a2)
      end
    else (Ok tt, set_next_btn NORMAL (set_prev_btn DISABLED a)).
Proof.
  unfold prev_step. unfold_M. cbn beta.
  destruct (0 <? current_step a)%Z eqn:E; cbn beta iota.
  - by destruct (seek_current _) as [[[]|e] a2].
  - by rewrite E.
Qed.

Lemma next_step_unfold (a : IntegralApp) :
  next_step a
  = if (current_step a <? Z.of_nat (length (step_times a)) - 1)%Z then
      match seek_current (set_current_step (current_step a + 1) a) with
      | (Ok _, a2) =>
          (Ok tt, set_prev_btn NORMAL
                    (set_next_btn
                       (if (current_step a2
                            <? Z.of_nat (length (step_times a2)) - 1)%Z
                        then NORMAL else DISABLED) a2))
      | (Raise e, a2) => (Raise e, a2)
      end
    else (Ok tt, set_prev_btn NORMAL (set_next_btn DISABLED a)).
Proof.
  unfold next_step. unfold_M. cbn beta.
  destruct (current_step a <? _)%Z eqn:E; cbn beta iota.
  - by destruct (seek_current _) as [[[]|e] a2].
  - by rewrite E.
Qed.

Lemma prev_step_timeline (a : IntegralApp) :
  timeline_ok a →
  timeline_ok (prev_step a).2 ∧ ∀ m, (prev_step a).1 ≠ Raise (IndexError m).
Proof.
  intros Hok. rewrite prev_step_unfold.
  destruct (Z.ltb_spec 0 (current_step a)) as [Hpos|Hpos]; [|done].
  destruct Hok as [[_ Hc]|[Hlen Hc]]; [lia |].
  destruct (seek_current_in_range (set_current_step (current_step a - 1) a))
    as (t & _ & [(n & _ & ->)|(e & He & ->)]); simpl.
  - rewrite Hlen. lia.
  - split; [|done]. right. simpl. split; [done | lia].
  - split; [right; simpl; split; [done | lia] |].
    intros m [= ->]. by eapply py_int_raises.
Qed.

Lemma next_step_timeline (a : IntegralApp) :
  timeline_ok a →
  timeline_ok (next_step a).2 ∧ ∀ m, (next_step a).1 ≠ Raise (IndexError m).
Proof.
  intros Hok. rewrite next_step_unfold.
  destruct (Z.ltb_spec (current_step a) (Z.of_nat (length (step_times a)) - 1))
    as [Hlt|Hlt]; [|done].
  destruct Hok as [[Hnil Hc]|[Hlen Hc]]; [rewrite Hnil in Hlt; simpl in Hlt; lia |].
  rewrite Hlen in Hlt.
  destruct (seek_current_in_range (set_current_step (current_step a + 1) a))
    as (t & _ & [(n & _ & ->)|(e & He & ->)]); simpl.
  - rewrite Hlen. lia.
  - split; [|done]. right. simpl. split; [done | lia].
  - split; [right; simpl; split; [done | lia] |].
    intros m [= ->]. by eapply py_int_raises.
Qed.

Lemma finish_render_timeline_ok (video_path : string) (duration : option float)
    (a : IntegralApp) :
  timeline_ok a → timeline_ok (finish_render video_path duration a).
Proof.
  intros Hok. unfold finish_render. destruct (dur_le_0 duration); simpl.
  - done.
  - right. simpl. split; [done | lia].
Qed.

Lemma handle_timeline (h : handler) (a : IntegralApp) :
  timeline_ok a →
  timeline_ok (handle h a).2 ∧ ∀ m, (handle h a).1 ≠ Raise (IndexError m).
Proof.
  intros Hok. destruct h as [| | |c duration e_bound|i v l u]; simpl.
  - split; [|done]. unfold start_solve.
    by destruct (_ || _).
  - by apply prev_step_timeline.
  - by apply next_step_timeline.
  - split; [|done]. unfold modify. simpl.
    destruct c as [video_path|e|]; simpl.
    + by apply finish_render_timeline_ok.
    + by destruct e_bound.
    + done.
  - done.
Qed.

(** X1.  Whatever calls reach a new window and in whatever order, no
    call raises [IndexError]: the step stays an index of the timeline, in
    [0, 2], and the timeline is empty or has its three entries. *)
Theorem navigation_never_out_of_range (hs : list handler) :
  let run := mainloop hs __init__ in
  Forall (λ r, ∀ m, r ≠ Raise (IndexError m)) run.1
  ∧ timeline_ok run.2
  ∧ (0 ≤ current_step run.2 ≤ 2)%Z.
Proof.
  assert (∀ a, timeline_ok a →
               Forall (λ r, ∀ m, r ≠ Raise (IndexError m)) (mainloop hs a).1
               ∧ timeline_ok (mainloop hs a).2) as Hall.
  { induction hs as [|h hs IH]; intros a Hok; simpl; [done |].
    destruct (handle_timeline h a Hok) as [Hok1 Hr].
    destruct (handle h a) as [r a1]. simpl in *.
    destruct (IH a1 Hok1) as [Hrs Hok2].
    destruct (mainloop hs a1) as [rs a2]. simpl in *.
    split; [by constructor | done]. }
  destruct (Hall __init__) as [Hrs Hok]; [by left |].
  simpl. split; [done | split; [done |]].
  destruct Hok as [[_ ->]|[_ ?]]; [lia | done].
Qed.

(** A loop whose body always returns, keeping an invariant, returns and
    keeps it. *)
Lemma for_total {S A} (I : S → Prop) (l : list A) (body : A → M S unit) :
  (∀ x s, x ∈ l → I s → ∃ s', body x s = (Ok tt, s') ∧ I s') →
  ∀ s, I s → ∃ s', for_ l body s = (Ok tt, s') ∧ I s'.
Proof.
  induction l as [|x l IH]; intros Hbody s Hs; simpl; [by exists s |].
  unfold_M. destruct (Hbody x s (list_elem_of_here _ _) Hs) as (s1 & -> & Hs1).
  apply IH; [|done]. intros y s' Hy. apply Hbody. by right.
Qed.

(** X2.  After [finish_render] has set up the timeline of a video whose
    seek points convert to integers, any sequence of presses of the two
    step buttons returns without an exception, and afterwards Prev is
    enabled exactly when the step is above 0 and Next exactly when it is
    below 2; the player has only been sent to the three seek points. *)
Theorem step_buttons_match_position (video_path : string) (dur : float)
    (n1 n2 : Z) (a : IntegralApp) (presses : list bool) :
  (0 <? dur)%float = true →
  int_of_float (dur / 3) = Ok n1 →
  int_of_float (2 * (dur / 3)) = Ok n2 →
  let a0 := finish_render video_path (Some dur) a in
  ∃ a', for_ presses press a0 = (Ok tt, a')
        ∧ step_times a' = step_times a0
        ∧ (0 ≤ current_step a' ≤ 2)%Z
        ∧ nav_ok a'
        ∧ ∀ c, c ∈ videoplayer a' →
               c ∈ videoplayer a0 ∨ c = Seek 0 ∨ c = Seek n1 ∨ c = Seek n2.
Proof.
  intros Hpos H1 H2 a0.
  set (T := [PyInt 0; PyFloat (dur / 3); PyFloat (2 * (dur / 3))]).
  assert (step_times a0 = T) as HT.
  { unfold a0, finish_render. simpl. by rewrite (float_pos_not_le_0 dur Hpos). }
  rewrite HT.
  apply (for_total
           (λ s, step_times s = T ∧ (0 ≤ current_step s ≤ 2)%Z ∧ nav_ok s
                 ∧ ∀ c, c ∈ videoplayer s →
                        c ∈ videoplayer a0 ∨ c = Seek 0 ∨ c = Seek n1
                        ∨ c = Seek n2)).
  - intros b s _ (Hs & Hc & [Hp Hn] & Hv).
    destruct s as [ie vc le ue sb pb nb st cs vp dl th]. simpl in *.
    subst st.
    assert (cs = 0 ∨ cs = 1 ∨ cs = 2)%Z as [->|[->| ->]] by lia;
      destruct b; unfold press; rewrite ?next_step_unfold, ?prev_step_unfold;
      unfold seek_current; unfold_M; simpl; rewrite ?H1, ?H2; simpl;
      (eexists; split; [reflexivity |]); simpl.
    all: (split; [done |]); (split; [lia |]).
    all: split; [unfold nav_ok; simpl; split; split; (done || lia) |].
    all: intros c Hin; rewrite ?elem_of_app, ?list_elem_of_singleton in Hin.
    all: try (destruct Hin as [Hin| ->]; [by apply Hv | tauto]).
    all: by apply Hv.
  - unfold a0, finish_render. simpl. rewrite (float_pos_not_le_0 dur Hpos).
    simpl. split; [done |]. split; [lia |]. split.
    + unfold nav_ok. simpl. split; split; (done || lia).
    + intros c Hc. by left.
Qed.

Lemma step_buttons_match_position_witness :
  ∃ a', for_ [true; true; true; false] press
          (finish_render "out.mp4" (Some 9.0%float) app0) = (Ok tt, a')
        ∧ step_times a' = step_times (finish_render "out.mp4" (Some 9.0%float) app0)
        ∧ (0 ≤ current_step a' ≤ 2)%Z
        ∧ nav_ok a'
        ∧ ∀ c, c ∈ videoplayer a' →
               c ∈ videoplayer (finish_render "out.mp4" (Some 9.0%float) app0)
               ∨ c = Seek 0 ∨ c = Seek 3 ∨ c = Seek 6.
Proof.
  apply (step_buttons_match_position "out.mp4" 9.0%float 3 6 app0
           [true; true; true; false]); reflexivity.
Defined.

Section solve_cycle.
Context `{Desktop}.

Lemma solve_worker_cases (integrand_str var a_str b_str : string) :
  (∃ video_path,
     solve_worker integrand_str var a_str b_str
     = [after_finish_render video_path])
  ∨ (∃ e, solve_worker integrand_str var a_str b_str
          = [after_showerror e; after_solve_btn_normal]).
Proof.
  unfold solve_worker.
  destruct (desktop_solve _ _ _ _) as [s|e]; [|eauto].
  destruct (desktop_render _) as [video_path|e]; eauto.
Qed.

End solve_cycle.

(** X3.  A press of Solve with the three entries filled in disables the
    three buttons and starts one worker for the stripped entries and the
    variable.  Once the callbacks that this worker schedules have run,
    whatever the engines did and whatever the video widget reports, Solve
    is enabled again and Prev is disabled; either Next is enabled, on a
    fresh timeline of three entries at step 0, or Next is disabled and
    the timeline and the step are those of before the press. *)
Theorem solve_cycle_reenables `{Desktop} (a : IntegralApp)
    (duration : option float) (e_bound : bool) :
  ¬ whitespace_only (integrand_entry a) →
  ¬ whitespace_only (lower_entry a) →
  ¬ whitespace_only (upper_entry a) →
  let integrand := strip (integrand_entry a) in
  let lower := strip (lower_entry a) in
  let upper := strip (upper_entry a) in
  let a1 := start_solve a in
  let a2 := foldl (λ s c, run_callback duration e_bound c s) a1
              (solve_worker integrand (var_choice a) lower upper) in
  threads a1 = threads a ++ [(integrand, var_choice a, lower, upper)]
  ∧ (solve_btn a1 = DISABLED ∧ prev_btn a1 = DISABLED ∧ next_btn a1 = DISABLED)
  ∧ solve_btn a2 = NORMAL ∧ prev_btn a2 = DISABLED
  ∧ threads a2 = threads a1
  ∧ ((next_btn a2 = NORMAL ∧ length (step_times a2) = 3%nat
      ∧ current_step a2 = 0%Z)
     ∨ (next_btn a2 = DISABLED ∧ step_times a2 = step_times a
        ∧ current_step a2 = current_step a)).
Proof.
  intros Hi Hl Hu integrand lower upper a1 a2.
  assert (a1 = start_thread (integrand, var_choice a, lower, upper)
                 (set_next_btn DISABLED
                    (set_prev_btn DISABLED (set_solve_btn DISABLED a)))) as Ha1.
  { unfold a1, start_solve. fold integrand lower upper.
    destruct (truthy integrand) eqn:E1;
      [|by apply truthy_strip in E1].
    destruct (truthy lower) eqn:E2; [|by apply truthy_strip in E2].
    destruct (truthy upper) eqn:E3; [|by apply truthy_strip in E3].
    done. }
  split; [by rewrite Ha1 |]. split; [by rewrite Ha1 |].
  unfold a2. clearbody a1. subst a1.
  destruct (solve_worker_cases integrand (var_choice a) lower upper)
    as [[video_path ->]|[e ->]]; simpl.
  - unfold finish_render. destruct (dur_le_0 duration); simpl.
    + split_and!; try done. by right.
    + split_and!; try done. by left.
  - destruct e_bound; simpl; split_and!; try done; by right.
Qed.

Lemma solve_cycle_reenables_witness :
  solve_btn (foldl (λ s c, run_callback None false c s) (start_solve app0)
               (@solve_worker desktop_crash "2*x" "x" "0" "1")) = NORMAL.
Proof.
  assert (∀ s, strip s ≠ "" → ¬ whitespace_only s) as Hne
    by (intros s Hs Hw; by apply strip_empty_iff in Hw).
  pose proof (@solve_cycle_reenables desktop_crash app0 None false
                (Hne "2*x" ltac:(done)) (Hne "0" ltac:(done))
                (Hne "1" ltac:(done))) as Hc.
  cbv zeta in Hc. destruct Hc as (_ & _ & Hs & _). exact Hs.
Defined.

(** * The symbol palette *)

Lemma string_app_cons (c : ascii) (a b : string) :
  String c a +:+ b = String c (a +:+ b).
Proof. done. Qed.

Lemma string_app_nil_l (b : string) : "" +:+ b = b.
Proof. done. Qed.

Lemma string_app_assoc (a b c : string) : (a +:+ b) +:+ c = a +:+ (b +:+ c).
Proof.
  induction a as [|x a IH]; [done |]. rewrite !string_app_cons. by f_equal.
Qed.

Ltac string_norm :=
  rewrite ?string_app_assoc, ?string_app_cons, ?string_app_nil_l.

Lemma string_split_at (i : nat) (s : string) :
  (i ≤ String.length s)%nat →
  ∃ before after, s = before +:+ after ∧ String.length before = i.
Proof.
  revert i. induction s as [|c s IH]; intros i Hi.
  - exists "", "". simpl in *. split; [done | lia].
  - destruct i as [|i]; [by exists "", (String c s) |].
    destruct (IH i) as (b & a & -> & Hb); [simpl in Hi; lia |].
    exists (String c b), a. simpl. by rewrite Hb.
Qed.

Lemma insert_at_app (sym before after : string) :
  insert_at (String.length before) sym (before +:+ after)
  = before +:+ sym +:+ after.
Proof.
  induction before as [|c b IH]; string_norm; simpl.
  - by destruct after.
  - by rewrite IH.
Qed.

Lemma get_app_length (before : string) (c : ascii) (after : string) :
  String.get (String.length before) (before +:+ String c after) = Some c.
Proof. induction before as [|x b IH]; string_norm; simpl; done. Qed.

Lemma endswith_inv (s suffix : string) :
  endswith s suffix = true → ∃ body, s = body +:+ suffix.
Proof.
  induction s as [|c s IH]; cbn [endswith].
  - rewrite orb_false_r. intros Heq%String.eqb_eq. by exists "".
  - intros [Heq%String.eqb_eq|Hs]%orb_true_iff.
    + by exists "".
    + destruct (IH Hs) as [body ->]. by exists (String c body).
Qed.

Lemma endswith_app (body suffix : string) :
  endswith (body +:+ suffix) suffix = true.
Proof.
  induction body as [|c b IH]; string_norm.
  - destruct suffix; cbn [endswith]; by rewrite String.eqb_refl.
  - cbn [endswith]. rewrite IH. apply orb_true_r.
Qed.

Lemma index_INSERT_le (e : Entry) :
  (index_INSERT e ≤ String.length (entry_text e))%nat.
Proof. unfold index_INSERT. lia. Qed.

(** The entry after [insert_symbol], given where the cursor splits the
    text. *)
Lemma insert_symbol_app (sym before after : string) (e : Entry) :
  entry_text e = before +:+ after →
  String.length before = index_INSERT e →
  insert_symbol sym e
  = mkEntry (before +:+ sym +:+ after)
      (if endswith sym "()"
       then String.length before + String.length sym - 1
       else String.length before + String.length sym).
Proof.
  intros Ht Hb. unfold insert_symbol, entry_insert, icursor.
  pose proof (index_INSERT_le e) as Hle.
  rewrite (Nat.min_l _ _ Hle). rewrite Nat.leb_refl. cbn [entry_text insertPos].
  rewrite <- Hb, Ht, insert_at_app.
  destruct (endswith sym "()") eqn:E; [|done].
  f_equal. rewrite !string_length_append.
  destruct (endswith_inv _ _ E) as [body ->].
  rewrite string_length_append. simpl. lia.
Qed.

(** X4.  [insert_symbol] puts the symbol into the text at the cursor and
    leaves the rest of the text as it is.  After a symbol that ends in
    ["()"] the cursor stands between the two parentheses; after any other
    symbol it stands right behind the symbol. *)
Theorem insert_symbol_at_cursor (sym : string) (e : Entry) :
  let e' := insert_symbol sym e in
  ∃ before after,
    entry_text e = before +:+ after
    ∧ String.length before = index_INSERT e
    ∧ entry_text e' = before +:+ sym +:+ after
    ∧ (endswith sym "()" = false →
       insertPos e' = String.length (before +:+ sym))
    ∧ (endswith sym "()" = true →
       ∃ body, sym = body +:+ "()"
               ∧ insertPos e' = String.length (before +:+ body +:+ "(")
               ∧ String.get (insertPos e' - 1) (entry_text e') = Some "("%char
               ∧ String.get (insertPos e') (entry_text e') = Some ")"%char).
Proof.
  intros e'. destruct (string_split_at _ _ (index_INSERT_le e))
    as (before & after & Ht & Hb).
  exists before, after. unfold e'.
  rewrite (insert_symbol_app sym before after e Ht Hb). simpl.
  split; [done |]. split; [done |]. split; [done |]. split.
  - intros ->. by rewrite string_length_append.
  - intros E. rewrite E. destruct (endswith_inv _ _ E) as [body ->].
    exists body. rewrite !string_length_append. simpl.
    split; [done |]. split; [lia |]. split.
    + replace (String.length before + (String.length body + 2) - 1 - 1)
        with (String.length (before +:+ body))
        by (rewrite string_length_append; lia).
      replace (before +:+ (body +:+ "()") +:+ after)
        with ((before +:+ body) +:+ String "(" (String ")" after))
        by (by string_norm).
      apply get_app_length.
    + replace (String.length before + (String.length body + 2) - 1)
        with (String.length (before +:+ body +:+ "("))
        by (rewrite !string_length_append; simpl; lia).
      replace (before +:+ (body +:+ "()") +:+ after)
        with ((before +:+ body +:+ "(") +:+ String ")" after)
        by (by string_norm).
      apply get_app_length.
Qed.

(** X5.  What is inserted right after a symbol that ends in ["()"] lands
    between its parentheses: [sin()] followed by [pi] gives [sin(pi)]. *)
Theorem insert_symbol_nests (body sym : string) (e : Entry) :
  ∃ before after,
    entry_text e = before +:+ after
    ∧ String.length before = index_INSERT e
    ∧ entry_text (insert_symbol sym (insert_symbol (body +:+ "()") e))
      = before +:+ body +:+ "(" +:+ sym +:+ ")" +:+ after.
Proof.
  destruct (string_split_at _ _ (index_INSERT_le e))
    as (before & after & Ht & Hb).
  exists before, after. split; [done |]. split; [done |].
  rewrite (insert_symbol_app (body +:+ "()") before after e Ht Hb).
  rewrite endswith_app.
  rewrite (insert_symbol_app sym (before +:+ body +:+ "(") (")" +:+ after)).
  - simpl. by string_norm.
  - simpl. by string_norm.
  - unfold index_INSERT. simpl. rewrite !string_length_append. simpl. lia.
Qed.

(** * What [index] hands to the worker *)

Lemma whitespace_only_cons (c : ascii) (s : string) :
  whitespace_only (String c s) ↔ isspace c = true ∧ whitespace_only s.
Proof. unfold whitespace_only. simpl. by rewrite Forall_cons. Qed.

Lemma whitespace_only_nil : whitespace_only "".
Proof. constructor. Qed.

Lemma lstrip_split (s : string) :
  ∃ l, s = (l +:+ lstrip s)%string ∧ whitespace_only l.
Proof.
  induction s as [|c s (l & Hl & Hw)]; simpl.
  - exists "". split; [done | apply whitespace_only_nil].
  - destruct (isspace c) eqn:Hc.
    + exists (String c l). split; [by rewrite Hl at 1 |].
      by apply whitespace_only_cons.
    + exists "". split; [done | apply whitespace_only_nil].
Qed.

Lemma rstrip_split (s : string) :
  ∃ r, s = (rstrip s +:+ r)%string ∧ whitespace_only r.
Proof.
  induction s as [|c s (r & Hr & Hw)]; simpl.
  - exists "". split; [done | apply whitespace_only_nil].
  - destruct (rstrip s) as [|c' t] eqn:Et.
    + destruct (isspace c) eqn:Hc.
      * exists (String c s). split; [done |].
        apply whitespace_only_cons. split; [done |]. by rewrite Hr.
      * exists r. split; [by rewrite Hr at 1 | done].
    + exists r. split; [by rewrite Hr at 1 | done].
Qed.

Lemma head_lstrip (s : string) (c : ascii) :
  head (String.list_ascii_of_string (lstrip s)) = Some c → isspace c = false.
Proof.
  induction s as [|x s IH]; simpl; [done |].
  destruct (isspace x) eqn:Hx; [done |]. simpl. by intros [= <-].
Qed.

Lemma head_rstrip (s : string) (c : ascii) :
  head (String.list_ascii_of_string (rstrip s)) = Some c →
  head (String.list_ascii_of_string s) = Some c.
Proof.
  destruct s as [|x s]; simpl; [done |].
  destruct (rstrip s); [destruct (isspace x) |]; done.
Qed.

Lemma last_rstrip (s : string) (c : ascii) :
  last (String.list_ascii_of_string (rstrip s)) = Some c → isspace c = false.
Proof.
  induction s as [|x s IH]; simpl; [done |].
  destruct (rstrip s) as [|y t] eqn:Et.
  - destruct (isspace x) eqn:Hx; simpl; [done | by intros [= <-]].
  - simpl. simpl in IH. by destruct (String.list_ascii_of_string t).
Qed.

(** [strip] takes away whitespace at the two ends and nothing else. *)
Lemma strip_trimmed (v : string) : trimmed v (strip v).
Proof.
  split.
  - intros c [Hh|Hl].
    + unfold strip in Hh. apply head_rstrip in Hh. by eapply head_lstrip.
    + by eapply last_rstrip.
  - destruct (lstrip_split v) as (l & Hl & Hwl).
    destruct (rstrip_split (lstrip v)) as (r & Hr & Hwr).
    exists l, r. split; [|done]. unfold strip. by rewrite <- Hr.
Qed.

(** X6.  [index] starts a worker on a POST only, and one at most.  What
    it hands to the worker are the four fields of the form without the
    whitespace around them, whitespace inside a field being kept, and
    none of the four is empty. *)
Theorem index_hands_over_trimmed (method : string)
    (form : gmap string string) (hex : string) (s : server) :
  let s' := (index method form hex s).2 in
  started s' = started s
  ∨ (method = "POST"
     ∧ ∃ j, started s' = started s ++ [j]
            ∧ (trimmed (field form "integrand") (job_integrand j)
               ∧ job_integrand j ≠ "")
            ∧ (trimmed (field form "variable") (job_var j) ∧ job_var j ≠ "")
            ∧ (trimmed (field form "lower") (job_lower j) ∧ job_lower j ≠ "")
            ∧ (trimmed (field form "upper") (job_upper j)
               ∧ job_upper j ≠ "")).
Proof.
  intros s'. unfold s', index.
  destruct (String.eqb_spec method "POST") as [->|Hm]; [|by left].
  destruct (forallb truthy _) eqn:Hall; simpl; [|by left].
  right. split; [done |]. eexists. split; [done |]. simpl.
  simpl in Hall. rewrite !andb_true_iff in Hall.
  destruct Hall as (H1 & H2 & H3 & H4 & _).
  unfold form_get in *. fold (field form "integrand") in *.
  fold (field form "variable") in *. fold (field form "lower") in *.
  fold (field form "upper") in *.
  split_and!; try apply strip_trimmed; by intros Heq; rewrite Heq in *.
Qed.

(** * The preview endpoint *)

Section preview.
Context `{Preview}.

Lemma get_strip_object (members : list (string * json)) (k fallback : string) :
  get_strip (JObj members) k fallback
  = match member k members with
    | None => Has (strip fallback)
    | Some (JStr s) => Has (strip s)
    | Some v => AttributeError (no_attribute v "strip")
    end.
Proof. done. Qed.

Lemma get_strip_string_fields (members : list (string * json))
    (k fallback : string) :
  string_fields members → k ∈ fields →
  get_strip (JObj members) k fallback = Has (strip (text_of members k fallback)).
Proof.
  intros Hs Hk. rewrite get_strip_object. unfold text_of.
  destruct (member k members) as [v|] eqn:E; [|done].
  by destruct (Hs k v Hk E) as [s ->].
Qed.

Lemma get_strip_raises (members : list (string * json)) (k fallback msg : string) :
  k ∈ fields → get_strip (JObj members) k fallback = AttributeError msg →
  ¬ string_fields members.
Proof.
  intros Hk. rewrite get_strip_object.
  destruct (member k members) as [v|] eqn:E; [|done].
  intros Hr Hs. destruct (Hs k v Hk E) as [s ->]. done.
Qed.

Lemma get_strip_Has (members : list (string * json)) (k fallback t : string) :
  get_strip (JObj members) k fallback = Has t →
  ∀ v, member k members = Some v → ∃ s, v = JStr s.
Proof.
  rewrite get_strip_object. intros Hg v Hv. rewrite Hv in Hg.
  destruct v; try done. by eexists.
Qed.

Lemma latex_preview_object (members : list (string * json)) :
  latex_preview (Some (JObj members))
  = match get_strip (JObj members) "integrand" "" with
    | AttributeError msg => preview_raises msg
    | Has integrand =>
        match get_strip (JObj members) "variable" "x" with
        | AttributeError msg => preview_raises msg
        | Has variable0 =>
            match get_strip (JObj members) "lower" "" with
            | AttributeError msg => preview_raises msg
            | Has lower =>
                match get_strip (JObj members) "upper" "" with
                | AttributeError msg => preview_raises msg
                | Has upper =>
                    reply_of integrand
                      (if truthy variable0 then variable0 else "x") lower upper
                end
            end
        end
    end.
Proof. by destruct members. Qed.

Lemma reply_of_blank (variable : string) :
  reply_of "" variable "" "" = jsonify_latex "" "" "".
Proof.
  unfold reply_of, preview_texts, latex_or_empty. simpl.
  by destruct (sympy_symbols variable).
Qed.

Lemma latex_preview_empty : latex_preview (Some (JObj [])) = jsonify_latex "" "" "".
Proof. rewrite latex_preview_object. simpl. apply reply_of_blank. Qed.

Lemma in_fields (k : string) :
  k ∈ fields ↔ k = "integrand" ∨ k = "variable" ∨ k = "lower" ∨ k = "upper".
Proof.
  unfold fields. rewrite !elem_of_cons, elem_of_nil. tauto.
Qed.

Lemma reply_of_jsonify (integrand variable lower upper : string) :
  ∃ e l u, reply_of integrand variable lower upper = jsonify_latex e l u.
Proof.
  unfold reply_of, preview_texts.
  destruct (sympy_symbols variable); [|eauto].
  destruct (latex_or_empty variable integrand); [|eauto].
  destruct (latex_or_empty variable lower); [|eauto].
  destruct (latex_or_empty variable upper); eauto.
Qed.

Lemma latex_preview_falsy (v : json) :
  json_truthy v = false → latex_preview (Some v) = jsonify_latex "" "" "".
Proof.
  intros Hf. rewrite <- latex_preview_empty.
  unfold latex_preview. by rewrite Hf.
Qed.

Lemma latex_preview_not_object (v : json) :
  json_truthy v = true → (∀ members, v ≠ JObj members) →
  latex_preview (Some v) = preview_raises (no_attribute v "get").
Proof.
  intros Ht Hv. unfold latex_preview. rewrite Ht.
  destruct v; try done. by destruct (Hv members).
Qed.

Lemma member_app (k k' : string) (v : json) (members : list (string * json)) :
  member k (members ++ [(k', v)])
  = if String.eqb k' k then Some v else member k members.
Proof.
  induction members as [|[k0 v0] rest IH]; simpl.
  - done.
  - rewrite IH. by destruct (String.eqb k' k).
Qed.

End preview.

(** X7.  [latex_preview] fails, with an [AttributeError] that no handler
    catches, exactly when the body is a JSON value that is truthy and is
    not an object, or is an object in which one of the four keys holds
    something other than a string.  A body that is missing, is not JSON
    or is falsy gets the empty reply; every other body gets a JSON reply,
    whatever SymPy does. *)
Theorem latex_preview_raises `{Preview} (body : option json) :
  ((∃ msg, latex_preview body = preview_raises msg)
   ↔ ∃ v, body = Some v ∧ json_truthy v = true
          ∧ match v with
            | JObj members => ¬ string_fields members
            | _ => True
            end)
  ∧ (∀ v, body = Some v → json_truthy v = true →
          (∀ members, v ≠ JObj members) →
          latex_preview body = preview_raises (no_attribute v "get"))
  ∧ (match body with
     | None => True
     | Some v => json_truthy v = false
     end → latex_preview body = jsonify_latex "" "" "")
  ∧ ((∃ msg, latex_preview body = preview_raises msg)
     ∨ ∃ e l u, latex_preview body = jsonify_latex e l u).
Proof.
  assert (∀ members,
            (∃ msg, latex_preview (Some (JObj members)) = preview_raises msg)
            ↔ ¬ string_fields members) as Hobj.
  { intros members. rewrite latex_preview_object. split.
    - intros [msg Hm].
      destruct (get_strip _ "integrand" _) as [i|m1] eqn:E1;
        [|eapply get_strip_raises; [|done]; apply in_fields; tauto].
      destruct (get_strip _ "variable" _) as [v|m2] eqn:E2;
        [|eapply get_strip_raises; [|done]; apply in_fields; tauto].
      destruct (get_strip _ "lower" _) as [l|m3] eqn:E3;
        [|eapply get_strip_raises; [|done]; apply in_fields; tauto].
      destruct (get_strip _ "upper" _) as [u|m4] eqn:E4;
        [|eapply get_strip_raises; [|done]; apply in_fields; tauto].
      destruct (reply_of_jsonify i (if truthy v then v else "x") l u)
        as (e' & l' & u' & Hr). congruence.
    - intros Hn.
      destruct (get_strip _ "integrand" _) as [i|m1] eqn:E1; [|eauto].
      destruct (get_strip _ "variable" _) as [v|m2] eqn:E2; [|eauto].
      destruct (get_strip _ "lower" _) as [l|m3] eqn:E3; [|eauto].
      destruct (get_strip _ "upper" _) as [u|m4] eqn:E4; [|eauto].
      destruct Hn. intros k x [->|[->|[->| ->]]]%in_fields Hx.
      + by apply (get_strip_Has _ _ _ _ E1).
      + by apply (get_strip_Has _ _ _ _ E2).
      + by apply (get_strip_Has _ _ _ _ E3).
      + by apply (get_strip_Has _ _ _ _ E4). }
  split; [|split; [|split]].
  - destruct body as [v|].
    + destruct (json_truthy v) eqn:Ht.
      * destruct v as [| | | | |items|members].
        7: { rewrite Hobj. split; [intros Hn; eauto |].
             by intros (v & [= <-] & _ & Hn). }
        all: rewrite latex_preview_not_object by done.
        all: split; [intros _; eauto | eauto].
      * rewrite (latex_preview_falsy v Ht). split; [by intros [msg ?] |].
        intros (v' & [= <-] & Ht' & _). congruence.
    + change (latex_preview None) with (latex_preview (Some (JObj []))).
      rewrite latex_preview_empty. split; [by intros [msg ?] |].
      by intros (v & ? & _).
  - intros v -> Ht Hv. by apply latex_preview_not_object.
  - destruct body as [v|]; [apply latex_preview_falsy |].
    intros _. change (latex_preview None) with (latex_preview (Some (JObj []))).
    apply latex_preview_empty.
  - destruct body as [v|].
    + destruct (json_truthy v) eqn:Ht;
        [|right; rewrite (latex_preview_falsy v Ht); eauto].
      destruct v; try (left; rewrite latex_preview_not_object; by eauto).
      rewrite latex_preview_object.
      destruct (get_strip _ "integrand" _) as [i|m1] eqn:E1; [|eauto].
      destruct (get_strip _ "variable" _) as [v|m2] eqn:E2; [|eauto].
      destruct (get_strip _ "lower" _) as [l|m3] eqn:E3; [|eauto].
      destruct (get_strip _ "upper" _) as [u|m4] eqn:E4; [|eauto].
      right. apply reply_of_jsonify.
    + right. change (latex_preview None) with (latex_preview (Some (JObj []))).
      rewrite latex_preview_empty. eauto.
Qed.

(** X8.  For an object whose fields are strings, the reply is all or
    nothing: when [sympy.symbols] and the conversions of the three
    stripped fields all return, the reply holds the three results, a
    blank field giving the empty string without being parsed; when one
    of them raises, all three entries of the reply are empty. *)
Theorem latex_preview_all_or_nothing `{Preview}
    (members : list (string * json)) :
  string_fields members →
  let integrand := strip (text_of members "integrand" "") in
  let variable0 := strip (text_of members "variable" "x") in
  let variable := if truthy variable0 then variable0 else "x" in
  let lower := strip (text_of members "lower" "") in
  let upper := strip (text_of members "upper" "") in
  let tex text := if truthy text then parse_latex variable text else Ok "" in
  latex_preview (Some (JObj members))
  = match sympy_symbols variable, tex integrand, tex lower, tex upper with
    | Ok _, Ok e, Ok l, Ok u => jsonify_latex e l u
    | _, _, _, _ => jsonify_latex "" "" ""
    end.
Proof.
  intros Hs integrand variable0 variable lower upper tex.
  rewrite latex_preview_object.
  rewrite !(get_strip_string_fields members) by (done || apply in_fields; tauto).
  unfold reply_of, preview_texts, latex_or_empty.
  fold integrand variable0 lower upper. fold variable. fold (tex integrand).
  fold (tex lower). fold (tex upper).
  destruct (sympy_symbols variable); [|done].
  destruct (tex integrand); [|done].
  destruct (tex lower); [|by destruct (tex upper)].
  by destruct (tex upper).
Qed.

Lemma latex_preview_all_or_nothing_witness :
  @latex_preview preview_echo (Some (JObj body_2x)) = jsonify_latex "2*x" "0" "".
Proof.
  apply (@latex_preview_all_or_nothing preview_echo body_2x).
  intros k v [->|[->|[->| ->]]]%in_fields Hm; vm_compute in Hm;
    try discriminate; injection Hm as <-; by eexists.
Defined.


(** X9.  A variable that is missing or blank counts as [x]: the reply is
    the one for the same object with ["variable": "x"] added. *)
Theorem latex_preview_default_variable `{Preview}
    (members : list (string * json)) :
  (member "variable" members = None
   ∨ ∃ s, member "variable" members = Some (JStr s) ∧ whitespace_only s) →
  latex_preview (Some (JObj members))
  = latex_preview (Some (JObj (members ++ [("variable", JStr "x")]))).
Proof.
  intros Hv. rewrite !latex_preview_object, !get_strip_object, !member_app.
  simpl String.eqb. cbv iota.
  destruct Hv as [->|(s & -> & Hs)];
    [|apply strip_empty_iff in Hs; rewrite Hs]; done.
Qed.

Lemma latex_preview_default_variable_witness :
  @latex_preview preview_echo (Some (JObj body_2x))
  = @latex_preview preview_echo
      (Some (JObj (body_2x ++ [("variable", JStr "x")]))).
Proof.
  apply (@latex_preview_default_variable preview_echo body_2x).
  left. reflexivity.
Defined.


(** * The sweep, its own directory and the top level *)

(** What holds before a loop that returns and is kept by every pass that
    returns holds after the loop. *)
Lemma for_Ok_inv {S A} (I : S → Prop) (l : list A) (body : A → M S unit) :
  (∀ x s s', x ∈ l → I s → body x s = (Ok tt, s') → I s') →
  ∀ s s', I s → for_ l body s = (Ok tt, s') → I s'.
Proof.
  induction l as [|x l IH]; intros Hbody s s' Hs; simpl.
  - unfold_M. by intros [= <-].
  - unfold_M. destruct (body x s) as [[[]|e] s1] eqn:E; [|done].
    apply IH.
    + intros y t t' Hy. apply Hbody. by right.
    + eapply Hbody; [left | done | done].
Qed.

Lemma os_rename_dst (src dst : path) (fs fs' : store) :
  os_rename src dst fs = (Ok tt, fs') → is_Some (stat fs' dst).
Proof.
  unfold os_rename. destruct (stat fs src) as [n|] eqn:Es; [|done].
  destruct (decide (src = dst)) as [->|Hne]; [intros [= <-]; by rewrite Es |].
  destruct (is_dir fs (parent dst)); simpl; [|done].
  destruct n as [c|].
  - destruct (stat fs dst) as [[c'|]|] eqn:Ed; [|done|];
      intros [= <-]; (destruct dst; [done |]); rewrite stat_cons;
      by rewrite lookup_insert_eq.
  - assert (stat fs dst = Some Dir ∨ stat fs dst = None
            → (let r := if decide (src `prefix_of` dst ∨ dst `prefix_of` src)
                        then (Raise EINVAL, fs)
                        else if decide (has_entry fs dst)
                             then (Raise ENOTEMPTY, fs)
                             else (Ok tt, relocate src dst fs) in
               r = (Ok tt, fs') → is_Some (stat fs' dst))) as Hdir.
    { intros _ r. unfold r.
      destruct (decide (_ ∨ _)) as [Hc|Hc]; [done |].
      destruct (decide (has_entry fs dst)); [done |]. intros [= <-].
      assert (src ≠ []) as Hs by (intros ->; destruct Hc; left; apply prefix_nil).
      assert (dst ≠ []) as Hd by (intros ->; destruct Hc; right; apply prefix_nil).
      rewrite (stat_lookup _ _ Hd), lookup_relocate by done.
      rewrite decide_False by tauto. rewrite decide_True by done.
      rewrite drop_all, app_nil_r. rewrite <- (stat_lookup _ _ Hs). by rewrite Es. }
    destruct (stat fs dst) as [[c'|]|] eqn:Ed; [done | |]; apply Hdir; tauto.
Qed.

Lemma shutil_move_dst (src dst : path) (fs fs' : store) :
  shutil_move src dst fs = (Ok tt, fs') → is_Some (stat fs' dst).
Proof.
  unfold shutil_move. unfold_M. destruct (is_dir fs dst) eqn:Hd;
    [|apply os_rename_dst].
  destruct (decide (src = dst)); [apply os_rename_dst |].
  destruct (exists_ fs (dst // name src)); [done |].
  destruct dst as [|a dst]; [done |]. intros Hr.
  apply is_dir_stat in Hd. rewrite stat_cons in *.
  assert (¬ (a :: dst) // name src `prefix_of` a :: dst) as Hlen.
  { intros Hp%prefix_length. unfold joinpath in Hp.
    rewrite length_app in Hp. simpl in Hp. lia. }
  apply os_rename_inv in Hr
    as [(_ & _ & ->)|[(c & _ & _ & _ & _ & Hc & _ & _ & ->)
       |[(_ & _ & Hinc & _ & ->)|(e & ? & _)]]]; [by rewrite Hd | | |done].
  - rewrite lookup_insert_ne, lookup_delete_ne; [by rewrite Hd | |].
    + intros ->. congruence.
    + intros Heq. apply Hlen. by rewrite Heq.
  - rewrite lookup_relocate by done. rewrite !decide_False; [by rewrite Hd | done |].
    intros Hp. apply Hinc. left. etrans; [done |]. by apply prefix_app_r.
Qed.

Lemma prefix_top (m n : string) (q : path) : [m] `prefix_of` n :: q → m = n.
Proof. intros [r Hr]. simpl in Hr. by injection Hr. Qed.

Lemma deep_not_prefix_top (x : path) (n : string) :
  parent x ≠ VIDEO_DIR → ¬ x `prefix_of` [n].
Proof.
  intros Hx%depth_two Hp%prefix_length. simpl in Hp. lia.
Qed.

Section top_level.
Context `{Scandir}.

(** One pass of the first loop leaves a top-level directory in place. *)
Lemma flatten_move_top_dir (x : path) (s : store) (n : string) :
  s !! [n] = Some Dir → (flatten_move x s).2 !! [n] = Some Dir.
Proof.
  intros Hn. destruct (decide (parent x = VIDEO_DIR)) as [Hp|Hp];
    [by rewrite flatten_move_top |].
  destruct (decide (name x = n)) as [<-|Hne].
  - destruct (flatten_move x s) as [r s'] eqn:E.
    apply flatten_move_inv in E
      as [(_ & _ & ->)|[(_ & _ & _ & ->)|[(_ & Hnone & _)|(_ & [c Hc] & _)]]];
      simpl; congruence.
  - rewrite flatten_move_frame; [done | by apply deep_not_prefix_top |].
    by intros ?%prefix_top.
Qed.

(** A pass that returns leaves every top-level name in use. *)
Lemma flatten_move_top_used (x : path) (s s' : store) (n : string) :
  flatten_move x s = (Ok tt, s') → is_Some (s !! [n]) → is_Some (s' !! [n]).
Proof.
  intros E Hn. destruct (decide (name x = n)) as [<-|Hne].
  - apply flatten_move_inv in E
      as [(_ & _ & ->)|[(_ & _ & [e ?] & _)|[(_ & _ & E)|(_ & _ & E)]]];
      [done | done | |]; by apply shutil_move_dst in E.
  - destruct (decide (parent x = VIDEO_DIR)) as [Hp|Hp].
    + rewrite flatten_move_top in E by done. by injection E as <-.
    + change s' with (Ok tt, s').2. rewrite <- E.
      rewrite flatten_move_frame; [done | by apply deep_not_prefix_top |].
      by intros ?%prefix_top.
Qed.

Lemma prune_empty_top (src_dir : path) (s : store) (n : string) :
  src_dir ≠ VIDEO_DIR → (prune_empty src_dir s).2 !! [n] = s !! [n].
Proof.
  intros Hsrc. unfold prune_empty. unfold_M. apply prune_loop_frame.
  intros (_ & _ & Hb & _)%elem_of_sorted_reverse%elem_of_rglob.
  apply below_length in Hb. simpl in Hb. destruct src_dir; [done |].
  simpl in Hb. lia.
Qed.

Lemma flatten_top_dir (src_dir : path) (fs : store) (n : string) :
  src_dir ≠ VIDEO_DIR → fs !! [n] = Some Dir →
  (_flatten_to_video_dir src_dir fs).2 !! [n] = Some Dir.
Proof.
  intros Hsrc Hn. unfold _flatten_to_video_dir. unfold_M.
  destruct (exists_ fs src_dir); simpl; [|done].
  assert ((move_videos src_dir fs).2 !! [n] = Some Dir) as Hm.
  { unfold move_videos. unfold_M.
    apply (for_inv (λ s : store, s !! [n] = Some Dir)); [|done].
    intros x s _. apply flatten_move_top_dir. }
  destruct (move_videos src_dir fs) as [[[]|e] fs1]; simpl in *; [|done].
  by rewrite prune_empty_top.
Qed.

Lemma flatten_top_used (src_dir : path) (fs fs' : store) (n : string) :
  src_dir ≠ VIDEO_DIR → _flatten_to_video_dir src_dir fs = (Ok tt, fs') →
  is_Some (fs !! [n]) → is_Some (fs' !! [n]).
Proof.
  intros Hsrc. unfold _flatten_to_video_dir. unfold_M.
  destruct (exists_ fs src_dir); simpl; [|by intros [= <-]].
  destruct (move_videos src_dir fs) as [[[]|e] fs1] eqn:Em; [|done].
  intros Hp Hn.
  assert (is_Some (fs1 !! [n])) as Hn1.
  { revert Em. unfold move_videos. unfold_M.
    apply (for_Ok_inv (λ s : store, is_Some (s !! [n]))); [|done].
    intros x s s' _ Hs E. by eapply flatten_move_top_used. }
  change fs' with (Ok tt, fs').2. rewrite <- Hp. by rewrite prune_empty_top.
Qed.

(** The swept directory itself stays, pass by pass. *)
Lemma flatten_move_src_dir (src_dir x : path) (s : store) :
  tree s → below src_dir x → s !! src_dir = Some Dir →
  (flatten_move x s).2 !! src_dir = Some Dir.
Proof.
  intros Ht Hb Hd.
  assert (¬ x `prefix_of` src_dir) as Hx.
  { intros Hp%prefix_length. apply below_length in Hb. lia. }
  destruct (decide ([name x] `prefix_of` src_dir)) as [Hp|Hp];
    [|by rewrite flatten_move_frame].
  assert (s !! [name x] = Some Dir) as Htop.
  { destruct (prefix_below _ _ Hp) as [<-|Hbelow]; [done |].
    by eapply (tree_ancestor s [name x] src_dir). }
  destruct (flatten_move x s) as [r s'] eqn:E.
  apply flatten_move_inv in E
    as [(_ & _ & ->)|[(_ & _ & _ & ->)|[(_ & Hnone & _)|(_ & [c Hc] & _)]]];
    simpl; congruence.
Qed.

Lemma flatten_src_dir (src_dir : path) (fs : store) :
  tree fs → (_flatten_to_video_dir src_dir fs).2 !! src_dir = fs !! src_dir.
Proof.
  intros Ht. pose proof (tree_flatten src_dir fs Ht) as Ht'.
  destruct src_dir as [|a src_dir].
  { destruct (fs !! []) as [v|] eqn:E; [by destruct (tree_lookup _ _ _ Ht E) |].
    destruct ((_flatten_to_video_dir [] fs).2 !! []) as [v|] eqn:E'; [|done].
    by destruct (tree_lookup _ _ _ Ht' E'). }
  clear Ht'. unfold _flatten_to_video_dir. unfold_M.
  destruct (exists_ fs (a :: src_dir)); simpl; [|done].
  assert (tree (move_videos (a :: src_dir) fs).2
          ∧ (move_videos (a :: src_dir) fs).2 !! (a :: src_dir)
            = fs !! (a :: src_dir)) as [Ht1 Hm].
  { unfold move_videos. unfold_M.
    apply (for_inv (λ s : store, tree s ∧ s !! (a :: src_dir) = fs !! (a :: src_dir)));
      [|done].
    intros x s (Hd & _ & Hb & _)%elem_of_rglob [Hts Hs].
    split; [by apply tree_flatten_move |].
    apply is_dir_stat in Hd. rewrite stat_cons in Hd. rewrite Hd in *.
    by apply flatten_move_src_dir. }
  destruct (move_videos (a :: src_dir) fs) as [[[]|e] fs1]; simpl in *; [|done].
  rewrite <- Hm. unfold prune_empty. unfold_M. apply prune_loop_frame.
  intros (_ & _ & Hb & _)%elem_of_sorted_reverse%elem_of_rglob.
  by destruct Hb.
Qed.

End top_level.

(** X10.  In a well-formed store the sweep leaves the entry of the swept
    path itself as it is, whatever the outcome: both loops list what lies
    below [src_dir] only, so a directory that the sweep has emptied is
    still there afterwards. *)
Theorem flatten_keeps_src_dir `{Scandir} (src_dir : path) (fs : store) :
  tree fs →
  (_flatten_to_video_dir src_dir fs).2 !! src_dir = fs !! src_dir.
Proof. apply flatten_src_dir. Qed.

Lemma flatten_keeps_src_dir_witness :
  (@_flatten_to_video_dir as_listed ["1080p60"] store_mixed).2 !! ["1080p60"]
  = store_mixed !! ["1080p60"].
Proof.
  apply (@flatten_keeps_src_dir as_listed ["1080p60"] store_mixed).
  apply (bool_decide_unpack _). vm_compute. exact I.
Defined.

(** X11.  The sweep of a path other than [VIDEO_DIR] takes nothing away
    from the top level: a directory there is still a directory after the
    sweep, whatever the outcome, and when the sweep returns every
    top-level name that was in use is still in use. *)
Theorem flatten_keeps_top_level `{Scandir} (src_dir : path) (fs : store)
    (n : string) :
  src_dir ≠ VIDEO_DIR →
  let run := _flatten_to_video_dir src_dir fs in
  (fs !! [n] = Some Dir → run.2 !! [n] = Some Dir)
  ∧ (run.1 = Ok tt → is_Some (fs !! [n]) → is_Some (run.2 !! [n])).
Proof.
  intros Hsrc run. split.
  - by apply flatten_top_dir.
  - unfold run. destruct (_flatten_to_video_dir src_dir fs) as [r fs'] eqn:E.
    simpl. intros ->. by eapply flatten_top_used.
Qed.

Lemma flatten_keeps_top_level_witness :
  is_Some ((@_flatten_to_video_dir as_listed ["1080p60"] store_collision).2
             !! ["IntegralScene.mp4"]).
Proof.
  apply (@flatten_keeps_top_level as_listed ["1080p60"] store_collision
           "IntegralScene.mp4"); [done | vm_compute; reflexivity |].
  vm_compute. eauto.
Defined.

(** ** Directories left below the swept path *)

Lemma length_lt_bound (fs : store) (k : path) :
  is_Some (fs !! k) → length k < S (max_list (length <$> keys fs)).
Proof.
  intros Hk%elem_of_keys. apply Nat.lt_succ_r, max_list_elem_of_le.
  apply list_elem_of_fmap. by exists k.
Qed.

Lemma below_snoc (d q : path) (n : string) : below d q → below d (q // n).
Proof.
  intros Hb. eapply below_trans; [apply Hb |].
  apply entry_below, entry_of_iff. by exists n.
Qed.

(** When every directory below [d0] has an entry, every directory below
    [d0] has a file somewhere below it. *)
Lemma dir_holds_file (fs : store) (d0 : path) :
  (∀ d, below d0 d → fs !! d = Some Dir → has_entry fs d) →
  ∀ d, below d0 d → fs !! d = Some Dir →
       ∃ k c, below d k ∧ fs !! k = Some (File c).
Proof.
  intros Hfull.
  assert (∀ n d, below d0 d → fs !! d = Some Dir →
                 (S (max_list (length <$> keys fs)) ≤ length d + n)%nat →
                 ∃ k c, below d k ∧ fs !! k = Some (File c)) as Hind.
  { induction n as [|n IH]; intros d Hb Hd Hn.
    - pose proof (length_lt_bound fs d ltac:(by rewrite Hd)). lia.
    - destruct (proj1 (has_entry_iff fs d) (Hfull d Hb Hd)) as [m [v Hv]].
      assert (below d (d // m)) as Hdm
        by (apply entry_below, entry_of_iff; by exists m).
      destruct v as [c|]; [by exists (d // m), c |].
      destruct (IH (d // m)) as (k & c & Hk & Hc); [by apply below_snoc | done | |].
      { unfold joinpath. rewrite length_app. simpl. lia. }
      exists k, c. split; [|done]. eapply below_trans; [apply Hdm | done]. }
  intros d Hb Hd. apply (Hind (S (max_list (length <$> keys fs))) d Hb Hd). lia.
Qed.

Section emptied.
Context `{Scandir}.

Lemma flatten_no_empty_dir (src_dir : path) (fs fs' : store) (d : path) :
  tree fs → _flatten_to_video_dir src_dir fs = (Ok tt, fs') →
  below src_dir d → fs' !! d = Some Dir → has_entry fs' d.
Proof.
  intros Ht. unfold _flatten_to_video_dir. unfold_M.
  destruct (exists_ fs src_dir) eqn:Hex; simpl.
  - pose proof (tree_move_videos src_dir fs Ht) as Ht1.
    destruct (move_videos src_dir fs) as [[[]|e] fs1]; [|done]. simpl in Ht1.
    intros Hp Hb Hd.
    assert (fs' = (prune_empty src_dir fs1).2) as -> by (by rewrite Hp).
    destruct (prune_empty_removes src_dir fs1 d) as [Hsub _]. simpl in Hsub.
    pose proof (lookup_weaken _ _ _ _ Hd Hsub) as Hd1.
    unfold prune_empty in *. unfold_M.
    apply prune_loop_char; [apply sorted_reverse_sorted | | | done].
    + apply Forall_forall. intros q Hq.
      apply (proj1 (elem_of_sorted_reverse _ _)) in Hq.
      pose proof (rglob_not_nil "*" src_dir fs1) as Hnil.
      rewrite Forall_forall in Hnil. by apply Hnil.
    + apply elem_of_sorted_reverse, elem_of_rglob.
      split_and!; [| by rewrite Hd1 | done | apply fnmatch_star].
      apply is_dir_stat. destruct src_dir as [|a src_dir]; [done |].
      rewrite stat_cons. by eapply (tree_ancestor fs1 (a :: src_dir) d).
  - intros [= <-] Hb Hd. destruct src_dir as [|a src_dir]; [done |].
    unfold exists_ in Hex. rewrite stat_cons in Hex.
    by rewrite (tree_ancestor fs (a :: src_dir) d Dir Ht) in Hex.
Qed.

End emptied.

(** X12.  In a well-formed store, once the sweep has returned, no empty
    directory is left below the swept path: every directory that is
    still there has an entry, and somewhere below it a file. *)
Theorem flatten_leaves_no_empty_directory `{Scandir} (src_dir : path)
    (fs fs' : store) (d : path) :
  tree fs → _flatten_to_video_dir src_dir fs = (Ok tt, fs') →
  below src_dir d → fs' !! d = Some Dir →
  has_entry fs' d ∧ ∃ k c, below d k ∧ fs' !! k = Some (File c).
Proof.
  intros Ht Hrun Hb Hd. split; [by eapply flatten_no_empty_dir |].
  apply (dir_holds_file fs' src_dir); [|done|done].
  intros d' Hb' Hd'. by eapply flatten_no_empty_dir.
Qed.

Lemma flatten_leaves_no_empty_directory_witness :
  let fs' := (@_flatten_to_video_dir as_listed ["partial_movie_files"]
                store_rendered).2 in
  has_entry fs' ["partial_movie_files"; "IntegralScene"]
  ∧ ∃ k c, below ["partial_movie_files"; "IntegralScene"] k
           ∧ fs' !! k = Some (File c).
Proof.
  apply (@flatten_leaves_no_empty_directory as_listed ["partial_movie_files"]
           store_rendered).
  - apply (bool_decide_unpack _). vm_compute. exact I.
  - apply returns_pair. vm_compute. reflexivity.
  - split; [by exists ["IntegralScene"] | done].
  - vm_compute. reflexivity.
Defined.

(** * The order in which the entries are listed *)

Lemma path_cmp_refl (p : path) : path_cmp p p = Eq.
Proof.
  induction p as [|a p IH]; simpl; [done |]. by rewrite string_compare_refl.
Qed.

#[global] Instance path_ge_antisymm : AntiSymm (=) path_ge.
Proof.
  intros p q Hpq Hqp. unfold path_ge in *. apply path_cmp_eq.
  rewrite path_cmp_antisym in Hqp.
  destruct (path_cmp p q); simpl in *; done.
Qed.

Lemma sorted_reverse_perm (l1 l2 : list path) :
  l1 ≡ₚ l2 → sorted_reverse l1 = sorted_reverse l2.
Proof.
  intros Hp. apply (StronglySorted_unique path_ge);
    [apply sorted_reverse_sorted | apply sorted_reverse_sorted |].
  unfold sorted_reverse. by rewrite !merge_sort_Permutation.
Qed.

Lemma at_most_one {A} (w : list A) :
  NoDup w → (∀ x y, x ∈ w → y ∈ w → x = y) → w = [] ∨ ∃ x, w = [x].
Proof.
  destruct w as [|x [|y w]]; [by left | by right; exists x |].
  intros Hnd Heq. apply NoDup_cons in Hnd as [Hx _]. destruct Hx.
  rewrite (Heq x y); [left | left | right; left].
Qed.

Lemma perm_at_most_one {A} (w1 w2 : list A) :
  w1 ≡ₚ w2 → (w1 = [] ∨ ∃ x, w1 = [x]) → w1 = w2.
Proof.
  intros Hp [->|[x ->]].
  - by apply Permutation_nil_l.
  - by apply Permutation_singleton_l.
Qed.

Section listing_order.
Context `{Scandir}.

Lemma move_loop_root (l : list path) (fs : store) :
  (for_ l flatten_move fs).2 !! [] = fs !! ([] : path).
Proof.
  apply (for_rel (λ s s' : store, s' !! [] = s !! ([] : path)));
    [done | congruence |].
  intros x s _. destruct (decide (parent x = VIDEO_DIR)) as [Hp|Hp];
    [by rewrite flatten_move_top |].
  apply flatten_move_frame.
  - intros Hx%prefix_length. apply depth_two in Hp. simpl in Hx. lia.
  - intros Hx%prefix_length. simpl in Hx. lia.
Qed.

(** When no two of the paths moved share a name, the first loop gives
    the same store in whatever order it takes them. *)
Lemma move_loop_perm (l1 l2 : list path) (fs : store) :
  l1 ≡ₚ l2 → NoDup l1 → videos_are_files fs →
  (∀ x, x ∈ l1 → fnmatch "*.mp4" (name x) = true
                ∧ ((2 ≤ length x)%nat → ∃ c, fs !! x = Some (File c))) →
  (∀ x y, x ∈ l1 → y ∈ l1 → (2 ≤ length x)%nat → (2 ≤ length y)%nat →
          name x = name y → x = y) →
  for_ l1 flatten_move fs = for_ l2 flatten_move fs.
Proof.
  intros Hp Hnd1 Hv Hl1 Huniq.
  assert (NoDup l2) as Hnd2 by (by rewrite <- Hp).
  assert (∀ x, x ∈ l2 → fnmatch "*.mp4" (name x) = true
                         ∧ ((2 ≤ length x)%nat → ∃ c, fs !! x = Some (File c)))
    as Hl2 by (intros x Hx; apply Hl1; by rewrite Hp).
  destruct (move_loop_files l1 fs Hnd1 Hv Hl1) as (fs1 & E1 & _ & Hg1 & Hf1 & _).
  destruct (move_loop_files l2 fs Hnd2 Hv Hl2) as (fs2 & E2 & _ & Hg2 & Hf2 & _).
  rewrite E1, E2. f_equal. apply map_eq. intros k.
  destruct k as [|n [|b k]].
  - pose proof (move_loop_root l1 fs) as R1. pose proof (move_loop_root l2 fs) as R2.
    rewrite E1 in R1. rewrite E2 in R2. simpl in *. congruence.
  - pose proof (move_loop_top l1 fs n Hnd1 Hv Hl1) as T1.
    pose proof (move_loop_top l2 fs n Hnd2 Hv Hl2) as T2.
    rewrite E1 in T1. rewrite E2 in T2. simpl in *. rewrite T1, T2.
    assert (writers n l1 = writers n l2) as ->; [|done].
    apply perm_at_most_one; [unfold writers; by rewrite Hp |].
    apply at_most_one; [by apply NoDup_filter |].
    intros x y [[Hx Hxn] Hxl]%list_elem_of_filter
      [[Hy Hyn] Hyl]%list_elem_of_filter.
    apply Huniq; try done. congruence.
  - destruct (decide (n :: b :: k ∈ l1)) as [Hin|Hin].
    + rewrite Hg1, Hg2; [done | by rewrite <- Hp | simpl; lia | done | simpl; lia].
    + rewrite Hf1, Hf2; [done | simpl; lia | by rewrite <- Hp | simpl; lia | done].
Qed.

End listing_order.

(** X13.  In a store with no directory named [*.mp4], when no two entries
    named [*.mp4] below the top level and below the swept path share a
    name, the sweep gives the same store whatever the order in which the
    operating system lists the entries. *)
Theorem flatten_listing_order (S1 S2 : Scandir) (src_dir : path) (fs : store) :
  videos_are_files fs →
  (∀ x y, below src_dir x → below src_dir y →
          (2 ≤ length x)%nat → (2 ≤ length y)%nat →
          is_Some (fs !! x) → is_Some (fs !! y) →
          fnmatch "*.mp4" (name x) = true → name x = name y → x = y) →
  @_flatten_to_video_dir S1 src_dir fs = @_flatten_to_video_dir S2 src_dir fs.
Proof.
  intros Hv Huniq.
  assert (@move_videos S1 src_dir fs = @move_videos S2 src_dir fs) as Hm.
  { unfold move_videos. unfold_M.
    apply move_loop_perm; [| apply NoDup_rglob | done | |].
    - unfold rglob. destruct (is_dir fs src_dir); [|done].
      by rewrite !scandir_perm.
    - intros x (_ & [v Hx] & _ & Hm)%elem_of_rglob. split; [done |].
      intros _. destruct v as [c|]; [by exists c |]. by destruct (Hv x Dir Hx Hm).
    - intros x y (_ & Hx & Hbx & Hmx)%elem_of_rglob (_ & Hy & Hby & _)%elem_of_rglob.
      intros Hlx Hly Hn. by apply Huniq. }
  unfold _flatten_to_video_dir. unfold_M.
  destruct (exists_ fs src_dir); simpl; [|done]. rewrite Hm.
  destruct (@move_videos S2 src_dir fs) as [[[]|e] fs1]; [|done].
  unfold prune_empty. unfold_M. f_equal. apply sorted_reverse_perm.
  unfold rglob. destruct (is_dir fs1 src_dir); [|done].
  by rewrite !scandir_perm.
Qed.

Lemma flatten_listing_order_witness :
  @_flatten_to_video_dir as_listed ["partial_movie_files"] store_rendered
  = @_flatten_to_video_dir reversed ["partial_movie_files"] store_rendered.
Proof.
  apply (flatten_listing_order as_listed reversed).
  - apply (bool_decide_unpack _). vm_compute. exact I.
  - intros x y _ _ Hlx Hly Hx%elem_of_keys Hy%elem_of_keys Hm Hn.
    remember (keys store_rendered) as ks eqn:Hks. vm_compute in Hks. subst ks.
    repeat (apply elem_of_cons in Hx as [->|Hx]);
      try (by apply elem_of_nil in Hx);
      repeat (apply elem_of_cons in Hy as [->|Hy]);
      try (by apply elem_of_nil in Hy);
      try done; try (simpl in Hlx, Hly; lia);
      vm_compute in Hn; vm_compute in Hm; discriminate.
Defined.

(** * The worker, as the two polling endpoints see it *)

Section outfile.
Context `{Scandir}.

Lemma flatten_subdir_top_used (sub : path) (s s' : store) (n : string) :
  sub ≠ VIDEO_DIR → flatten_subdir sub s = (Ok tt, s') →
  is_Some (s !! [n]) → is_Some (s' !! [n]).
Proof.
  intros Hsub. unfold flatten_subdir. unfold_M.
  destruct (is_dir s sub && negb (String.eqb (name sub) partial_movie_files)).
  - by apply flatten_top_used.
  - by intros [= <-].
Qed.

(** After steps 4 to 6 have run without an exception there is an entry
    at a top-level output path. *)
Lemma collect_outfile_exists (movie : path) (vid : string) (fs fs' : store) :
  collect movie (VIDEO_DIR // vid) fs = (Ok tt, fs') → is_Some (fs' !! [vid]).
Proof.
  unfold collect. unfold_M.
  destruct (shutil_move movie (VIDEO_DIR // vid) fs) as [[[]|e] fs4] eqn:E4;
    [|done].
  apply shutil_move_dst in E4. change (VIDEO_DIR // vid) with [vid] in E4.
  rewrite stat_cons in E4.
  destruct (_flatten_to_video_dir (VIDEO_DIR // partial_movie_files) fs4)
    as [[[]|e] fs5] eqn:E5; [|done].
  apply (flatten_top_used _ _ _ vid) in E5; [|done|done].
  apply (for_Ok_inv (λ s : store, is_Some (s !! [vid]))); [|done].
  intros sub s s' (_ & Hsub & _)%elem_of_iterdir Hs Hrun.
  by eapply flatten_subdir_top_used.
Qed.

End outfile.

Lemma status_of_error (vid m : string) (w : world) (fl : list (string * string))
    (st : list job) :
  TASKS w !! vid = Some ("error:" +:+ m)%string →
  status vid (mkServer w fl st)
  = jsonify_status false (Some ("error:" +:+ m)%string).
Proof. intros Hv. unfold status. simpl. rewrite Hv. by destruct m. Qed.

(** X14.  When a run for the output path [VIDEO_DIR / vid] has ended with
    the task [ready], there is an entry at that path: the result page
    reports the video as ready, as the poll does. *)
Theorem ready_video_exists `{Scandir} `{Engines}
    (integrand var lower_s upper_s vid : string) (w : world)
    (fl : list (string * string)) (st : list job) :
  let w' := (generate_integral_video integrand var lower_s upper_s
               (VIDEO_DIR // vid) vid w).2 in
  TASKS w' !! vid = Some "ready" →
  exists_ (disk w') (VIDEO_DIR // vid) = true
  ∧ result vid (mkServer w' fl st)
    = render_result vid ("/static/videos/" +:+ vid)%string true
  ∧ status vid (mkServer w' fl st) = jsonify_status true None.
Proof.
  intros w' Hready.
  assert (exists_ (disk w') (VIDEO_DIR // vid) = true) as Hex.
  { revert Hready. unfold w'. rewrite worker_unfold, render_and_collect_unfold.
    destruct (render_scene integrand var lower_s upper_s (disk w))
      as [[movie|e] fs_r].
    - destruct (collect movie (VIDEO_DIR // vid) fs_r) as [[[]|exc] fs'] eqn:Ec.
      + intros _. simpl. apply collect_outfile_exists in Ec as [v Hv].
        unfold exists_. change (VIDEO_DIR // vid) with [vid].
        by rewrite stat_cons, Hv.
      + destruct (unlink_missing_ok _ fs') as [[[]|e] fs'']; simpl;
          rewrite lookup_insert_eq; intros [= Heq];
          by destruct (py_str exc).
    - destruct (unlink_missing_ok _ fs_r) as [[[]|e'] fs'']; simpl;
        rewrite lookup_insert_eq; intros [= Heq]; by destruct (py_str e). }
  split; [done |]. split.
  - unfold result. simpl. by rewrite Hex.
  - unfold status. simpl. by rewrite Hready.
Qed.

Lemma ready_video_exists_witness :
  exists_ (disk (@generate_integral_video as_listed engines_ok "2*x" "x" "0" "1"
                   (VIDEO_DIR // "0f.mp4") "0f.mp4" world0).2)
    (VIDEO_DIR // "0f.mp4") = true.
Proof.
  apply (@ready_video_exists as_listed engines_ok "2*x" "x" "0" "1" "0f.mp4"
           world0 [] []).
  vm_compute. reflexivity.
Defined.

(** X15.  A worker that has returned has left a final state for its
    identifier: the poll answers [ready] with no error, or not ready with
    the error ["error:" + str(exc)].  The worker raises only when the
    [unlink] of its handler does, which takes a directory at the output
    path; the task is then left at [pending].  No run changes the entry
    of another identifier. *)
Theorem worker_final_status `{Scandir} `{Engines}
    (integrand var lower_s upper_s : string) (outfile : path) (vid : string)
    (w : world) (fl : list (string * string)) (st : list job) :
  let run := generate_integral_video integrand var lower_s upper_s outfile
               vid w in
  let poll := status vid (mkServer run.2 fl st) in
  (run.1 = Ok tt →
   poll = jsonify_status true None
   ∨ ∃ exc, poll = jsonify_status false (Some ("error:" +:+ py_str exc)%string))
  ∧ (∀ e, run.1 = Raise e →
          poll = jsonify_status false None
          ∧ is_dir (disk run.2) outfile = true)
  ∧ (∀ v, v ≠ vid → TASKS run.2 !! v = TASKS w !! v).
Proof.
  intros run poll. unfold poll, run. rewrite worker_unfold.
  destruct (render_and_collect _ _ _ _ _ _) as [[[]|exc] fs'].
  - split_and!.
    + intros _. left. unfold status. simpl. by rewrite lookup_insert_eq.
    + done.
    + intros v Hv. simpl. by rewrite !lookup_insert_ne.
  - destruct (unlink_missing_ok outfile fs') as [r fs''] eqn:Eu.
    apply unlink_missing_ok_inv in Eu
      as [(-> & -> & _)|(e & -> & -> & Hd)].
    + split_and!.
      * intros _. right. exists exc. apply status_of_error. simpl.
        by rewrite lookup_insert_eq.
      * done.
      * intros v Hv. simpl. by rewrite !lookup_insert_ne.
    + split_and!.
      * done.
      * intros e' _. split.
        -- unfold status. simpl. by rewrite lookup_insert_eq.
        -- simpl. by apply is_dir_stat.
      * intros v Hv. simpl. by rewrite !lookup_insert_ne.
Qed.

Lemma worker_final_status_witness :
  status "0f.mp4"
    (mkServer (@generate_integral_video as_listed engines_crash "2*x" "x" "0" "1"
                 ["0f.mp4"] "0f.mp4" world0).2 [] [])
  = jsonify_status true None
  ∨ ∃ exc,
      status "0f.mp4"
        (mkServer (@generate_integral_video as_listed engines_crash "2*x" "x"
                     "0" "1" ["0f.mp4"] "0f.mp4" world0).2 [] [])
      = jsonify_status false (Some ("error:" +:+ py_str exc)%string).
Proof.
  apply (proj1 (@worker_final_status as_listed engines_crash "2*x" "x" "0" "1"
                  ["0f.mp4"] "0f.mp4" world0 [] [])).
  vm_compute. reflexivity.
Defined.

(** ** The video of a ready run *)

Lemma shutil_move_fresh (vid : string) (movie : path) (fs fs' : store)
    (c : string) :
  unused vid fs → fs !! movie = Some (File c) →
  shutil_move movie [vid] fs = (Ok tt, fs') →
  fs' = <[[vid] := File c]> (delete movie fs) ∧ reserved vid fs'.
Proof.
  intros Hu Hc. pose proof (unused_lookup vid fs [vid] Hu eq_refl) as Hnone.
  unfold shutil_move. unfold_M. unfold is_dir. rewrite stat_cons, Hnone.
  intros E.
  apply os_rename_inv in E
    as [(_ & -> & _)|[(c' & _ & _ & _ & _ & Hc' & _ & _ & ->)
       |[(_ & Hdir & Hinc & _)|(e & ? & _)]]]; [congruence | | |done].
  - assert (c' = c) as -> by congruence. split; [done |]. split.
    + intros k [v Hk] Hn.
      apply lookup_insert_Some in Hk as [[<- _]|[_ Hk]]; [done |].
      apply lookup_delete_Some in Hk as [_ Hk].
      by rewrite (unused_lookup vid fs k Hu Hn) in Hk.
    + by rewrite lookup_insert_eq.
  - destruct movie; [destruct Hinc; left; apply prefix_nil |].
    simpl in Hdir. congruence.
Qed.

Section ready_video.
Context `{Scandir}.

(** A sweep leaves alone the top-level entry of a name that no other
    entry has. *)
Lemma flatten_reserved_entry (vid : string) (src_dir : path) (fs : store) :
  src_dir ≠ VIDEO_DIR → reserved vid fs →
  (_flatten_to_video_dir src_dir fs).2 !! [vid] = fs !! [vid].
Proof.
  intros Hsrc [Hk _]. unfold _flatten_to_video_dir. unfold_M.
  destruct (exists_ fs src_dir); simpl; [|done].
  assert ((move_videos src_dir fs).2 !! [vid] = fs !! [vid]) as Hm.
  { unfold move_videos. unfold_M.
    apply (for_rel (λ s s' : store, s' !! [vid] = s !! [vid]));
      [done | congruence |].
    intros x s (_ & Hx & _ & _)%elem_of_rglob.
    destruct (decide (parent x = VIDEO_DIR)) as [Hp|Hp];
      [by rewrite flatten_move_top |].
    apply flatten_move_frame; [by apply deep_not_prefix_top |].
    intros Hn%prefix_top. apply depth_two in Hp.
    rewrite (Hk x Hx Hn) in Hp. simpl in Hp. lia. }
  destruct (move_videos src_dir fs) as [[[]|e] fs1]; simpl in *; [|done].
  by rewrite prune_empty_top.
Qed.

Lemma collect_fresh (vid : string) (movie : path) (fs fs' : store) (c : string) :
  unused vid fs → fs !! movie = Some (File c) →
  collect movie (VIDEO_DIR // vid) fs = (Ok tt, fs') →
  fs' !! [vid] = Some (File c).
Proof.
  intros Hu Hc. unfold collect. unfold_M.
  change (VIDEO_DIR // vid) with [vid].
  destruct (shutil_move movie [vid] fs) as [[[]|e] fs4] eqn:E4; [|done].
  destruct (shutil_move_fresh vid movie fs fs4 c Hu Hc E4) as [Hfs4 Hr4].
  assert (fs4 !! [vid] = Some (File c)) as Hv4
    by (by rewrite Hfs4, lookup_insert_eq).
  pose proof (flatten_reserved vid (VIDEO_DIR // partial_movie_files) fs4 Hr4)
    as Hr5.
  pose proof (flatten_reserved_entry vid (VIDEO_DIR // partial_movie_files) fs4
                ltac:(done) Hr4) as Hv5.
  destruct (_flatten_to_video_dir (VIDEO_DIR // partial_movie_files) fs4)
    as [[[]|e] fs5]; [|done]. simpl in *.
  intros Hloop.
  assert (reserved vid (for_ (iterdir VIDEO_DIR fs5) flatten_subdir fs5).2
          ∧ (for_ (iterdir VIDEO_DIR fs5) flatten_subdir fs5).2 !! [vid]
            = Some (File c)) as [_ Hfin].
  { apply (for_inv (λ s : store, reserved vid s ∧ s !! [vid] = Some (File c)));
      [|split; [done | congruence]].
    intros sub s (_ & Hsub & _)%elem_of_iterdir [Hrs Hvs].
    split; [by apply flatten_subdir_reserved |].
    unfold flatten_subdir. unfold_M.
    destruct (_ && _); [|done]. by rewrite flatten_reserved_entry. }
  by rewrite Hloop in Hfin.
Qed.

End ready_video.

(** X16.  When the identifier is the name of no entry that the rendering
    engine leaves behind and the movie the engine returns is a file, a
    run that ends with the task [ready] has put the contents of that
    movie at [VIDEO_DIR / vid]: the sweeps that follow the move do not
    touch it. *)
Theorem ready_video_is_the_movie `{Scandir} `{Engines}
    (integrand var lower_s upper_s vid : string) (w : world)
    (movie : path) (fs_r : store) (c : string) :
  render_scene integrand var lower_s upper_s (disk w) = (Ok movie, fs_r) →
  unused vid fs_r → fs_r !! movie = Some (File c) →
  let w' := (generate_integral_video integrand var lower_s upper_s
               (VIDEO_DIR // vid) vid w).2 in
  TASKS w' !! vid = Some "ready" →
  disk w' !! (VIDEO_DIR // vid) = Some (File c).
Proof.
  intros Hr Hu Hc w'. unfold w'.
  rewrite worker_unfold, render_and_collect_unfold, Hr.
  destruct (collect movie (VIDEO_DIR // vid) fs_r) as [[[]|exc] fs'] eqn:Ec.
  - intros _. simpl. by eapply collect_fresh.
  - destruct (unlink_missing_ok _ fs') as [[[]|e] fs'']; simpl;
      rewrite lookup_insert_eq; intros [= Heq]; by destruct (py_str exc).
Qed.

Lemma ready_video_is_the_movie_witness :
  disk (@generate_integral_video as_listed engines_ok "2*x" "x" "0" "1"
          (VIDEO_DIR // "0f.mp4") "0f.mp4" world0).2 !! (VIDEO_DIR // "0f.mp4")
  = Some (File "movie").
Proof.
  apply (@ready_video_is_the_movie as_listed engines_ok "2*x" "x" "0" "1"
           "0f.mp4" world0 ["1080p60"; "IntegralScene.mp4"]
           (@render_scene engines_ok "2*x" "x" "0" "1" (disk world0)).2 "movie").
  - apply returns_pair. vm_compute. reflexivity.
  - apply (bool_decide_unpack _). vm_compute. exact I.
  - vm_compute. reflexivity.
  - vm_compute. reflexivity.
Defined.
